(** * mapproxy.core.seed_ng: the region-pruning seeder

    A shallow embedding of [src/mapproxy/core/seed_ng.py] and the properties
    of its descent, of the task's region classification, of the status
    glyphs, and of the pool and its workers.

    Conventions of the embedding.
    - Python floats (bbox extents, the progress weight, [self.progress]) are
      exact rationals [Q] in [Seeder]; the module [Float64] has the same
      pass with binary64 floats, for what depends on rounding.
    - A bbox is a 4-tuple of numbers.
    - Python ints are [Z]; the classification constants keep their integer
      values because the code tests them for truthiness.
    - Exceptions are values of [exn]; code that can raise returns a [result]
      or, when it also touches the seeder's state, an [outcome].
    - Console output ([print], [sys.stdout.flush]) is not modelled, and with
      it [report_till_level], which only gates a [print].
    - The worker processes of a pool are a step relation ([Pool.step]): one
      step for each [put] of the main process and each [get] of a worker.
    - The collaborators that live outside this file (the meta grid, the bbox
      helpers of [mapproxy.core.grid], SRS transformation, shapely) are the
      fields of the classes [MetaGrid], [GridModule], [SrsModule] and
      [Shapely]. *)

From Stdlib Require Import ZArith QArith Qround List String Bool Lia Lqa.
From Stdlib Require Import Permutation Sorted.
From Stdlib Require Import Floats.
Import ListNotations.
Local Open Scope Z_scope.

(** ** Exceptions and results *)

Inductive exn : Type :=
| ZeroDivisionError
| IndexError
| NameError
| AttributeError
| ImportError.

Inductive result (A : Type) : Type :=
| Ok (a : A)
| Error (e : exn).
Arguments Ok {A} a.
Arguments Error {A} e.

Definition result_bind {A B} (r : result A) (k : A -> result B) : result B :=
  match r with
  | Ok a => k a
  | Error e => Error e
  end.

(** ** Data *)

(** A bbox is the 4-tuple [(minx, miny, maxx, maxy)]. *)
Definition BBox : Type := (Q * Q * Q * Q)%type.

(** A tile coordinate [(x, y, z)]. *)
Definition Tile : Type := (Z * Z * Z)%type.

Definition bbox0 (b : BBox) : Q := let '(x0, _, _, _) := b in x0.
Definition bbox1 (b : BBox) : Q := let '(_, y0, _, _) := b in y0.
Definition bbox2 (b : BBox) : Q := let '(_, _, x1, _) := b in x1.
Definition bbox3 (b : BBox) : Q := let '(_, _, _, y1) := b in y1.

(** [NONE = 0], [CONTAINS = -1], [INTERSECTS = 1]. *)
Definition NONE : Z := 0.
Definition CONTAINS : Z := -1.
Definition INTERSECTS : Z := 1.

(** Truthiness of a Python int. *)
Definition truthy (z : Z) : bool := negb (z =? 0).

(** A ring is its list of points; a polygon an exterior ring and its holes. *)
Definition ring : Type := list (Q * Q).

Definition polygon : Type := (ring * list ring)%type.

(** The shapely objects the module handles: the two geometry types
    [transform_geometry] knows, any other geometry, and the result of
    [shapely.prepared.prep]. *)
Inductive geometry : Type :=
| Polygon (p : polygon)
| MultiPolygon (polygons : list polygon)
| OtherGeometry
| PreparedGeometry (context : geometry).

(** ** Collaborators outside this file *)

(** The [MetaGrid] instance of a seeder. *)
Class MetaGrid : Type := {
  level_tiles : Type;
  get_affected_level_tiles : BBox -> Z -> BBox * level_tiles * list (option Tile);
  meta_bbox : Tile -> BBox
}.

(** [from mapproxy.core.grid import bbox_intersects, bbox_contains]. *)
Class GridModule : Type := {
  bbox_intersects : BBox -> BBox -> bool;
  bbox_contains : BBox -> BBox -> bool
}.

(** [mapproxy.core.srs.SRS]. *)
Class SrsModule : Type := {
  SRS : Type;
  srs_ne : SRS -> SRS -> bool;          (* [a != b] *)
  transform_bbox_to : SRS -> SRS -> BBox -> BBox;
  transform_to : SRS -> SRS -> list (Q * Q) -> list (Q * Q)
}.

(** The shapely package; [shapely_present] is the module-level flag set by
    the guarded import. *)
Class Shapely : Type := {
  shapely_present : bool;
  bounds : geometry -> BBox;
  contains : geometry -> geometry -> bool;
  intersects_geom : geometry -> geometry -> bool
}.

(** Looking up the global name [shapely] when the import failed. *)
Definition shapely_name `{Shapely} : result unit :=
  if shapely_present then Ok tt else Error NameError.

(** ** [status_symbol] *)

(** [l[k]] for a Python list: negative indices count from the end. *)
Definition py_index {A} (l : list A) (k : Z) : result A :=
  let n := Z.of_nat (List.length l) in
  let k' := if k <? 0 then k + n else k in
  if (k' <? 0) || (n <=? k') then Error IndexError
  else match nth_error l (Z.to_nat k') with
       | Some a => Ok a
       | None => Error IndexError
       end.

(** The quotient [i/(total/4)] is a quotient of floats; it is taken exactly
    here.  For ints up to [2^50] in size the program's rounded quotient of a
    sibling position has the same ceiling; far beyond, the two can differ,
    and an int too large for a float makes the program raise
    [OverflowError]. *)
Definition status_symbol (i total : Z) : result string :=
  let symbols := [" "; "."; "o"; "O"; "0"]%string in
  let i := i + 1 in
  if (0 <? i) && (i >? total) then Ok "X"%string
  else if total =? 0 then Error ZeroDivisionError
  else py_index symbols (Qceiling (inject_Z i / (inject_Z total / 4))).

(** ** [SeedTask] *)

Module SeedTask.
Section task.
Context {grid_module : GridModule} {srs_module : SrsModule} {shapely : Shapely}.

(** The attributes of a task.  [self.intersects] is bound once, by
    [__init__], from [geom]; it is the function [intersects] below. *)
Record t : Type := {
  start_level : Z;
  max_level : Z;
  bbox_srs : option SRS;
  seed_srs : SRS;
  bbox : BBox;
  geom : option geometry
}.

(** [ring.xy]: the pair of coordinate arrays. *)
Definition xy (r : ring) : list Q * list Q := (map fst r, map snd r).

(** [bbox_srs != seed_srs]; [bbox_srs] is [None] when the view names none. *)
Definition srs_differ (bbox_srs : option SRS) (seed_srs : SRS) : bool :=
  match bbox_srs with
  | Some s => srs_ne s seed_srs
  | None => true
  end.

Definition transform_xy (from_srs : option SRS) (to_srs : SRS)
    (xy : list Q * list Q) : result (list (Q * Q)) :=
  match from_srs with
  | Some s => Ok (transform_to s to_srs (combine (fst xy) (snd xy)))
  | None => Error AttributeError
  end.

Fixpoint map_result {A B} (f : A -> result B) (l : list A) : result (list B) :=
  match l with
  | [] => Ok []
  | a :: l' =>
      result_bind (f a) (fun b =>
      result_bind (map_result f l') (fun bs => Ok (b :: bs)))
  end.

Definition transform_polygon (transf : list Q * list Q -> result (list (Q * Q)))
    (p : polygon) : result polygon :=
  result_bind (transf (xy (fst p))) (fun ext =>
  result_bind (map_result (fun ring => transf (xy ring)) (snd p)) (fun ints =>
  result_bind shapely_name (fun _ => Ok (ext, ints)))).

Definition transform_multipolygon (transf : list Q * list Q -> result (list (Q * Q)))
    (multipolygon : list polygon) : result (list polygon) :=
  result_bind (map_result (transform_polygon transf) multipolygon)
    (fun transformed_polygons =>
  result_bind shapely_name (fun _ => Ok transformed_polygons)).

(** Falls off the end, returning [None], for any other geometry type; a
    prepared geometry has no [type] attribute. *)
Definition transform_geometry (from_srs : option SRS) (to_srs : SRS)
    (g : geometry) : result (option geometry) :=
  let transf := transform_xy from_srs to_srs in
  match g with
  | Polygon p =>
      result_bind (transform_polygon transf p) (fun p' => Ok (Some (Polygon p')))
  | MultiPolygon ps =>
      result_bind (transform_multipolygon transf ps)
        (fun ps' => Ok (Some (MultiPolygon ps')))
  | OtherGeometry => Ok None
  | PreparedGeometry _ => Error AttributeError
  end.

Definition __init__ (bbox : BBox) (level : Z * Z) (bbox_srs : option SRS)
    (seed_srs : SRS) (geom : option geometry) : result t :=
  result_bind
    (if srs_differ bbox_srs seed_srs then
       match geom with
       | Some g =>
           result_bind (transform_geometry bbox_srs seed_srs g) (fun geom =>
           match geom with
           | None => Error AttributeError
           | Some g' =>
               let bbox := bounds g' in
               result_bind shapely_name (fun _ =>
               Ok (bbox, Some (PreparedGeometry g')))
           end)
       | None =>
           match bbox_srs with
           | Some s => Ok (transform_bbox_to s seed_srs bbox, None)
           | None => Error AttributeError
           end
       end
     else Ok (bbox, geom))
    (fun '(bbox, geom) =>
       Ok {| start_level := fst level;
             max_level := snd level;
             bbox_srs := bbox_srs;
             seed_srs := seed_srs;
             bbox := bbox;
             geom := geom |}).

Definition _geom_intersects (self : t) (g : geometry) (bbox : BBox) : result Z :=
  result_bind shapely_name (fun _ =>
  let bbox_poly := Polygon ([ (bbox0 bbox, bbox1 bbox);
                              (bbox2 bbox, bbox1 bbox);
                              (bbox2 bbox, bbox3 bbox);
                              (bbox0 bbox, bbox3 bbox) ], []) in
  if contains g bbox_poly then Ok CONTAINS
  else if intersects_geom g bbox_poly then Ok INTERSECTS
  else Ok NONE).

Definition _bbox_intersects (self : t) : BBox -> result Z :=
  let self_bbox := bbox self in
  fun bbox =>
    if bbox_contains self_bbox bbox then Ok CONTAINS
    else if bbox_intersects self_bbox bbox then Ok INTERSECTS
    else Ok NONE.

(** [self.intersects], as [__init__] binds it. *)
Definition intersects (self : t) (bbox : BBox) : result Z :=
  match self.(geom) with
  | Some g => _geom_intersects self g bbox
  | None => _bbox_intersects self bbox
  end.

End task.
End SeedTask.

Definition check_shapely `{Shapely} : result unit :=
  if negb shapely_present then Error ImportError else Ok tt.

(** ** The seeder's state and effects *)

(** The queue element [(tiles, (progess_str, self.progress))]. *)
Definition SeedJob : Type := (list (option Tile) * (string * Q))%type.

(** What a descent does, in order.  [Put] is a job put on the pool's
    [tiles_queue]; the other three are bookkeeping: [Call] is an entry into
    [_seed] with its arguments, [Intersects] an invocation of
    [task.intersects], [Update] an execution of [self.progress += progress]
    with the level of the visit and the new value. *)
Inductive event : Type :=
| Call (cur_bbox : BBox) (level : Z) (progess_str : string) (progress : Q)
       (all_subtiles : bool)
| Intersects (bbox : BBox)
| Update (level : Z) (value : Q)
| Put (job : SeedJob).

Record state : Type := {
  progress : Q;          (* self.progress *)
  trace : list event
}.

Inductive outcome (A : Type) : Type :=
| Return (a : A) (s : state)
| Raise (e : exn) (s : state)
| OutOfFuel (s : state).
Arguments Return {A} a s.
Arguments Raise {A} e s.
Arguments OutOfFuel {A} s.

Definition final {A} (o : outcome A) : state :=
  match o with
  | Return _ s => s
  | Raise _ s => s
  | OutOfFuel s => s
  end.

Definition M (A : Type) : Type := state -> outcome A.

Definition ret {A} (a : A) : M A := fun s => Return a s.

Definition bind {A B} (m : M A) (k : A -> M B) : M B :=
  fun s =>
    match m s with
    | Return a s' => k a s'
    | Raise e s' => Raise e s'
    | OutOfFuel s' => OutOfFuel s'
    end.

Definition raise {A} (e : exn) : M A := fun s => Raise e s.

Definition out_of_fuel {A} : M A := fun s => OutOfFuel s.

Definition lift {A} (r : result A) : M A :=
  match r with
  | Ok a => ret a
  | Error e => raise e
  end.

Definition emit (e : event) : M unit :=
  fun s => Return tt {| progress := progress s; trace := trace s ++ [e] |}.

Definition get_progress : M Q := fun s => Return (progress s) s.

Declare Scope seed_scope.
Delimit Scope seed_scope with seed.
Notation "x <- m ;; k" := (bind m (fun x => k))
  (at level 61, m at next level, right associativity) : seed_scope.
Notation "m ;; k" := (bind m (fun _ => k))
  (at level 61, right associativity) : seed_scope.
Local Open Scope seed_scope.

(** [for i, a in enumerate(l): body], counting from [i]. *)
Fixpoint for_enumerate {A} (i : Z) (l : list A) (body : Z -> A -> M unit) : M unit :=
  match l with
  | [] => ret tt
  | a :: l' => body i a ;; for_enumerate (i + 1) l' body
  end.

(** [x / n] for a float [x] and an int [n], as the exact quotient;
    [Float64.true_div] below is the rounded one. *)
Definition true_div (x : Q) (n : Z) : M Q :=
  if n =? 0 then raise ZeroDivisionError else ret (x / inject_Z n)%Q.

Module SeedPool.

(** [self.tiles_queue.put((tiles, progress))]. *)
Definition seed (tiles : list (option Tile)) (progress : string * Q) : M unit :=
  emit (Put (tiles, progress)).

End SeedPool.

(** ** [Seeder] *)

Module Seeder.
Section seeder.
Context {grid : MetaGrid} {grid_module : GridModule} {srs_module : SrsModule}
        {shapely : Shapely}.
Variable task : SeedTask.t.

(** The state [__init__] leaves: [self.progress = 0.0], nothing done yet. *)
Definition __init__ : state := {| progress := 0%Q; trace := [] |}.

(** [self.task.intersects(sub_bbox)]. *)
Definition task_intersects (sub_bbox : BBox) : M Z :=
  emit (Intersects sub_bbox) ;;
  lift (SeedTask.intersects task sub_bbox).

(** The loop of [_sub_seeds]; [sub_seeds] is the list built so far. *)
Fixpoint _sub_seeds_from (sub_seeds : list (BBox * Z))
    (subtiles : list (option Tile)) (all_subtiles : bool) : M (list (BBox * Z)) :=
  match subtiles with
  | [] => ret sub_seeds
  | None :: subtiles' => _sub_seeds_from sub_seeds subtiles' all_subtiles
  | Some subtile :: subtiles' =>
      let sub_bbox := meta_bbox subtile in
      intersection <- (if all_subtiles then ret CONTAINS
                       else task_intersects sub_bbox) ;;
      if truthy intersection
      then _sub_seeds_from (sub_seeds ++ [(sub_bbox, intersection)])
                           subtiles' all_subtiles
      else _sub_seeds_from sub_seeds subtiles' all_subtiles
  end.

Definition _sub_seeds (subtiles : list (option Tile)) (all_subtiles : bool)
    : M (list (BBox * Z)) :=
  _sub_seeds_from [] subtiles all_subtiles.

(** [self.progress += progress], in the visit at [level], as the exact
    sum; [Float64.add_progress] below is the rounded one. *)
Definition add_progress (level : Z) (w : Q) : M unit :=
  fun s =>
    let p := (progress s + w)%Q in
    Return tt {| progress := p; trace := trace s ++ [Update level p] |}.

(** The recursion descends one level per call and stops at [max_level], so
    [fuel] bounds its depth; [seed] below supplies enough.  The line printed
    for the levels up to [report_till_level] is left out: it goes to stdout,
    and [format_bbox] raises nothing for a bbox that is a 4-tuple of
    numbers, as every [BBox] is (for a list, as a bbox read from YAML and
    not reprojected is, it raises [TypeError]). *)
Fixpoint _seed (fuel : nat) (cur_bbox : BBox) (level : Z) (progess_str : string)
    (progress : Q) (all_subtiles : bool) : M unit :=
  match fuel with
  | O => out_of_fuel
  | S fuel =>
      emit (Call cur_bbox level progess_str progress all_subtiles) ;;
      let '(bbox_, tiles_, subtiles) := get_affected_level_tiles cur_bbox level in
      (if level <? SeedTask.max_level task then
         sub_seeds <- _sub_seeds subtiles all_subtiles ;;
         progress <- true_div progress (Z.of_nat (List.length sub_seeds)) ;;
         match sub_seeds with
         | _ :: _ =>
             let total_sub_seeds := Z.of_nat (List.length sub_seeds) in
             for_enumerate 0 sub_seeds (fun i '(sub_bbox, intersection) =>
               symbol <- lift (status_symbol i total_sub_seeds) ;;
               let cur_progess_str := (progess_str ++ symbol)%string in
               let all_subtiles :=
                 if intersection =? CONTAINS then true else false in
               _seed fuel sub_bbox (level + 1) cur_progess_str
                     progress all_subtiles)
         | [] => ret tt
         end
       else
         add_progress level progress) ;;
      self_progress <- get_progress ;;
      SeedPool.seed subtiles (progess_str, self_progress)
  end.

Definition seed : M unit :=
  _seed (S (Z.to_nat (SeedTask.max_level task - SeedTask.start_level task)))
        (SeedTask.bbox task) (SeedTask.start_level task) "" 1%Q false.

End seeder.
End Seeder.

(** ** The pass in the program's own arithmetic *)

(** The weights and [self.progress] are Python floats, IEEE 754 binary64.
    In [Seeder] above they are exact rationals, which is the arithmetic the
    sums are meant in; here is the same pass with the floats themselves, for
    what depends on rounding.  The state is what the program has,
    [self.progress] and the queue, without the bookkeeping events. *)
Module Float64.

(** [float(n)] for an int [0 <= n < 2^63], as [x / n] converts a length. *)
Definition of_int (n : Z) : float := PrimFloat.of_uint63 (Uint63.of_Z n).

(** The queue element [(tiles, (progess_str, self.progress))]. *)
Definition SeedJob : Type := (list (option Tile) * (string * float))%type.

Record state : Type := {
  progress : float;              (* self.progress *)
  tiles_queue : list SeedJob     (* the jobs put, oldest first *)
}.

Inductive outcome (A : Type) : Type :=
| Return (a : A) (s : state)
| Raise (e : exn) (s : state)
| OutOfFuel (s : state).
Arguments Return {A} a s.
Arguments Raise {A} e s.
Arguments OutOfFuel {A} s.

Definition M (A : Type) : Type := state -> outcome A.

Definition ret {A} (a : A) : M A := fun s => Return a s.

Definition bind {A B} (m : M A) (k : A -> M B) : M B :=
  fun s =>
    match m s with
    | Return a s' => k a s'
    | Raise e s' => Raise e s'
    | OutOfFuel s' => OutOfFuel s'
    end.

Definition raise {A} (e : exn) : M A := fun s => Raise e s.

Definition out_of_fuel {A} : M A := fun s => OutOfFuel s.

Definition lift {A} (r : result A) : M A :=
  match r with
  | Ok a => ret a
  | Error e => raise e
  end.

Definition get_progress : M float := fun s => Return (progress s) s.

Declare Scope float64_scope.
Notation "x <- m ;; k" := (bind m (fun x => k))
  (at level 61, m at next level, right associativity) : float64_scope.
Notation "m ;; k" := (bind m (fun _ => k))
  (at level 61, right associativity) : float64_scope.
Local Open Scope float64_scope.

Fixpoint for_enumerate {A} (i : Z) (l : list A) (body : Z -> A -> M unit) : M unit :=
  match l with
  | [] => ret tt
  | a :: l' => body i a ;; for_enumerate (i + 1) l' body
  end.

(** [x / n] for a float [x] and an int [n]. *)
Definition true_div (x : float) (n : Z) : M float :=
  if n =? 0 then raise ZeroDivisionError else ret (x / of_int n)%float.

(** [self.tiles_queue.put((tiles, progress))]. *)
Definition seed_pool_seed (tiles : list (option Tile)) (progress : string * float)
    : M unit :=
  fun s => Return tt {| progress := s.(Float64.progress);
                        tiles_queue := tiles_queue s ++ [(tiles, progress)] |}.

Section seeder.
Context {grid : MetaGrid} {grid_module : GridModule} {srs_module : SrsModule}
        {shapely : Shapely}.
Variable task : SeedTask.t.

(** [self.progress = 0.0], nothing put yet. *)
Definition __init__ : state := {| progress := 0%float; tiles_queue := [] |}.

Fixpoint _sub_seeds_from (sub_seeds : list (BBox * Z))
    (subtiles : list (option Tile)) (all_subtiles : bool) : M (list (BBox * Z)) :=
  match subtiles with
  | [] => ret sub_seeds
  | None :: subtiles' => _sub_seeds_from sub_seeds subtiles' all_subtiles
  | Some subtile :: subtiles' =>
      let sub_bbox := meta_bbox subtile in
      intersection <- (if all_subtiles then ret CONTAINS
                       else lift (SeedTask.intersects task sub_bbox)) ;;
      if truthy intersection
      then _sub_seeds_from (sub_seeds ++ [(sub_bbox, intersection)])
                           subtiles' all_subtiles
      else _sub_seeds_from sub_seeds subtiles' all_subtiles
  end.

Definition _sub_seeds (subtiles : list (option Tile)) (all_subtiles : bool)
    : M (list (BBox * Z)) :=
  _sub_seeds_from [] subtiles all_subtiles.

(** [self.progress += progress]. *)
Definition add_progress (w : float) : M unit :=
  fun s => Return tt {| progress := (s.(Float64.progress) + w)%float;
                        tiles_queue := tiles_queue s |}.

Fixpoint _seed (fuel : nat) (cur_bbox : BBox) (level : Z) (progess_str : string)
    (progress : float) (all_subtiles : bool) : M unit :=
  match fuel with
  | O => out_of_fuel
  | S fuel =>
      let '(bbox_, tiles_, subtiles) := get_affected_level_tiles cur_bbox level in
      (if level <? SeedTask.max_level task then
         sub_seeds <- _sub_seeds subtiles all_subtiles ;;
         progress <- true_div progress (Z.of_nat (List.length sub_seeds)) ;;
         match sub_seeds with
         | _ :: _ =>
             let total_sub_seeds := Z.of_nat (List.length sub_seeds) in
             for_enumerate 0 sub_seeds (fun i '(sub_bbox, intersection) =>
               symbol <- lift (status_symbol i total_sub_seeds) ;;
               let cur_progess_str := (progess_str ++ symbol)%string in
               let all_subtiles :=
                 if intersection =? CONTAINS then true else false in
               _seed fuel sub_bbox (level + 1) cur_progess_str
                     progress all_subtiles)
         | [] => ret tt
         end
       else
         add_progress progress) ;;
      self_progress <- get_progress ;;
      seed_pool_seed subtiles (progess_str, self_progress)
  end.

Definition seed : M unit :=
  _seed (S (Z.to_nat (SeedTask.max_level task - SeedTask.start_level task)))
        (SeedTask.bbox task) (SeedTask.start_level task) "" 1%float false.

End seeder.
End Float64.

(** ** [caches_from_layer] *)

(** A layer or a source is known here by the attributes the function probes
    with [hasattr]: an attribute is [Some] when the object has it. *)
Section layers.
Variable Cache : Type.

Record source_obj : Type := { source_cache : option Cache }.

#[local] Unset Elimination Schemes.
Inductive layer_obj : Type :=
| Layer (layers : option (list layer_obj))
        (sources : option (list source_obj))
        (cache : option Cache).
#[local] Set Elimination Schemes.

(** [[source.cache for source in layer.sources if hasattr(source, 'cache')]]. *)
Definition source_caches (sources : list source_obj) : list Cache :=
  flat_map (fun source =>
              match source_cache source with
              | Some c => [c]
              | None => []
              end) sources.

(** The [for layer in layers] loop; [caches] is the list built so far. *)
Fixpoint caches_from_layers (caches : list Cache) (layers : list layer_obj)
    : result (list Cache) :=
  match layers with
  | [] => Ok caches
  | Layer _ (Some sources) _ :: layers' =>
      caches_from_layers (caches ++ source_caches sources) layers'
  | Layer _ None (Some c) :: layers' =>
      caches_from_layers (caches ++ [c]) layers'
  | Layer _ None None :: _ => Error AttributeError
  end.

Definition caches_from_layer (layer : layer_obj) : result (list Cache) :=
  let layers :=
    match layer with
    | Layer (Some layers) _ _ => layers
    | Layer None _ _ => [layer]
    end in
  caches_from_layers [] layers.

(** The same layer without its [layers] attribute. *)
Definition without_layers (layer : layer_obj) : layer_obj :=
  match layer with Layer _ sources cache => Layer None sources cache end.

(** A layer the loop can handle: it has [sources] or it has a [cache]. *)
Definition has_caches (layer : layer_obj) : bool :=
  match layer with
  | Layer _ (Some _) _ => true
  | Layer _ None (Some _) => true
  | Layer _ None None => false
  end.

(** The layers the loop runs over. *)
Definition considered (layer : layer_obj) : list layer_obj :=
  match layer with
  | Layer (Some layers) _ _ => layers
  | Layer None _ _ => [layer]
  end.

(** What the loop adds for one layer it can handle. *)
Definition layer_caches (layer : layer_obj) : list Cache :=
  match layer with
  | Layer _ (Some sources) _ => source_caches sources
  | Layer _ None (Some c) => [c]
  | Layer _ None None => []
  end.

(** Concatenation of results, the first error winning. *)
Fixpoint concat_results (rs : list (result (list Cache))) : result (list Cache) :=
  match rs with
  | [] => Ok []
  | r :: rs' =>
      result_bind r (fun l =>
      result_bind (concat_results rs') (fun l' => Ok (l ++ l')))
  end.

End layers.
Arguments Layer {Cache} layers sources cache.
Arguments source_cache {Cache} s.
Arguments Build_source_obj {Cache} source_cache.
Arguments source_caches {Cache} sources.
Arguments caches_from_layers {Cache} caches layers.
Arguments caches_from_layer {Cache} layer.
Arguments without_layers {Cache} layer.
Arguments has_caches {Cache} layer.
Arguments considered {Cache} layer.
Arguments concat_results {Cache} rs.
Arguments layer_caches {Cache} layer.

(** ** [SeedWorker] *)

Module SeedWorker.
Section worker.

(** What can escape [seed.exp_backoff(load_tiles, ...)]. *)
Variable Failure : Type.

Variable dry_run : bool.

(** [seed.exp_backoff(load_tiles, exceptions=(TileSourceError, IOError))] for
    a batch: it returns, or an exception escapes it.  Both [exp_backoff] and
    [load_tile_coords] live outside this file. *)
Variable load : list (option Tile) -> option Failure.

(** What a worker does: the progress line it prints (the path and the
    percentage [progress[1]*100]; the timestamp and the layout of the line
    are left out) and the batch it hands to the loader. *)
Inductive action : Type :=
| Print (progess_str : string) (percent : Q)
| Load (tiles : list (option Tile)).

(** How [run] ends: it returns at a sentinel, an exception escapes it, or
    it waits in [get] on a queue that delivers nothing more. *)
Inductive ending : Type :=
| Exited
| Died (f : Failure)
| Waiting.

(** [run], over the items [tiles_queue.get()] delivers to this worker, in
    order: [Some job] is a job put by [SeedPool.seed], [None] the sentinel
    [(None, None)] put by [SeedPool.stop].  The result is what was done, how
    the loop ended, and the items not taken. *)
Fixpoint run_from (done : list action) (queue : list (option SeedJob))
    : list action * ending * list (option SeedJob) :=
  match queue with
  | [] => (done, Waiting, [])
  | None :: queue' => (done, Exited, queue')
  | Some (tiles, progress) :: queue' =>
      let done := done ++ [Print (fst progress) (snd progress * 100)%Q] in
      if dry_run then run_from done queue'
      else
        let done := done ++ [Load tiles] in
        match load tiles with
        | None => run_from done queue'
        | Some f => (done, Died f, queue')
        end
  end.

Definition run (queue : list (option SeedJob))
    : list action * ending * list (option SeedJob) :=
  run_from [] queue.

(** What handling one job looks like when its load is made. *)
Definition handled (job : SeedJob) : list action :=
  let '(tiles, progress) := job in
  Print (fst progress) (snd progress * 100)%Q ::
  (if dry_run then [] else [Load tiles]).

End worker.
Arguments Exited {Failure}.
Arguments Died {Failure} f.
Arguments Waiting {Failure}.
Arguments run_from {Failure} dry_run load done queue.
Arguments run {Failure} dry_run load queue.
End SeedWorker.

(** ** [SeedPool] with its workers *)

(** The pool as the main process and its workers see it.  The workers are
    processes of their own: which of them takes the next item, and when, is
    not determined, so the pool is given as a step relation, one step for
    each [put] of the main process and for each [get] of a worker. *)
Module Pool.
Section pool.

Variable Failure : Type.
Variable dry_run : bool.
Variable load : list (option Tile) -> option Failure.

(** [tiles_queue]: the items put and not yet taken, oldest first; an item
    is a job put by [seed] or the sentinel [(None, None)] put by [stop].
    [procs]: for each worker, the items its [get] has returned so far. *)
Record t : Type := {
  tiles_queue : list (option SeedJob);
  procs : list (list (option SeedJob))
}.

(** [multiprocessing.Queue(32)]: a [put] blocks while 32 items wait. *)
Definition maxsize : nat := 32.

(** [__init__]: an empty queue and [size] workers, started. *)
Definition __init__ (size : nat) : t :=
  {| tiles_queue := []; procs := repeat [] size |}.

(** The item [seed] puts. *)
Definition seed (job : SeedJob) : option SeedJob := Some job.

(** The items [stop] puts, one sentinel for each of [self.procs], before it
    joins them. *)
Definition stop (self : t) : list (option SeedJob) :=
  repeat None (List.length (procs self)).

(** Where the [run] of a worker stands after the items [taken]: waiting in
    [get], returned, or dead. *)
Definition standing (taken : list (option SeedJob)) : SeedWorker.ending Failure :=
  snd (fst (SeedWorker.run dry_run load taken)).

(** [proc.join()] returns for every worker: none is still running. *)
Definition joined (self : t) : Prop :=
  Forall (fun taken => standing taken <> SeedWorker.Waiting) (procs self).

(** A moment of the run: the puts the main process has still to make, and
    the pool. *)
Definition moment : Type := (list (option SeedJob) * t)%type.

(** One step.  The main process puts its next item, if the queue has room;
    or a worker waiting in [get] takes the oldest item and works on it. *)
Inductive step : moment -> moment -> Prop :=
| step_put item todo self :
    (List.length (tiles_queue self) < maxsize)%nat ->
    step (item :: todo, self)
         (todo, {| tiles_queue := tiles_queue self ++ [item];
                   procs := procs self |})
| step_get todo item queue before taken after :
    standing taken = SeedWorker.Waiting ->
    step (todo, {| tiles_queue := item :: queue;
                   procs := before ++ taken :: after |})
         (todo, {| tiles_queue := queue;
                   procs := before ++ (taken ++ [item]) :: after |}).

(** [n] steps. *)
Inductive steps : nat -> moment -> moment -> Prop :=
| steps_O m : steps 0 m m
| steps_S n m1 m2 m3 : steps n m1 m2 -> step m2 m3 -> steps (S n) m1 m3.

(** Nothing can move any more. *)
Definition idle (m : moment) : Prop := forall m', ~ step m m'.

(** The sentinels among some items. *)
Definition sentinels (items : list (option SeedJob)) : nat :=
  List.length (filter (fun item => match item with None => true | Some _ => false end)
                      items).

(** What a worker has taken when no load fails: some of the [jobs], and
    after them at most the one sentinel. *)
Definition tidy (jobs : list SeedJob) (taken : list (option SeedJob)) : Prop :=
  exists js,
    Forall (fun job => In job jobs) js /\
    (taken = map Some js \/ taken = map Some js ++ [None]).

(** What then holds at every moment of a run that began with the [jobs] and
    the sentinels of [size] workers still to put: the items taken so far,
    those on the queue and those still to put are, in this order, all the
    items. *)
Definition sound (jobs : list SeedJob) (size : nat) (m : moment) : Prop :=
  List.length (procs (snd m)) = size /\
  Forall (tidy jobs) (procs (snd m)) /\
  exists consumed,
    Permutation consumed (List.concat (procs (snd m))) /\
    consumed ++ tiles_queue (snd m) ++ fst m =
    map Some jobs ++ repeat None size.

End pool.
Arguments standing {Failure} dry_run load taken.
Arguments joined {Failure} dry_run load self.
Arguments step {Failure} dry_run load _ _.
Arguments steps {Failure} dry_run load _ _ _.
Arguments idle {Failure} dry_run load m.
End Pool.

(** ** [CacheSeeder] *)

Module CacheSeeder.
Section cache_seeder.
Context {grid_module : GridModule} {srs_module : SrsModule} {shapely : Shapely}.

(** [a == b] on SRS objects, as [in] tests it. *)
Variable srs_eq : SRS -> SRS -> bool.

(** [remove_before] and its truth value. *)
Variable Timestamp : Type.
Variable timestamp_truth : Timestamp -> bool.

(** A cache, by what [seed_view] and [Seeder] read of it: the meta grid
    made of [cache.grid], and [cache.grid.srs]. *)
Record cache : Type := {
  cache_grid : MetaGrid;
  cache_grid_srs : SRS
}.

Record t : Type := {
  caches : list cache;
  remove_before : Timestamp;
  dry_run : bool;
  concurrency : Z
}.

(** What [seed_view] does to the caches, by position in [self.caches]:
    the expiry hook is installed, a [SeedPool] is created (its workers
    start), the pass of the seeder returned leaving a state, the pool is
    stopped. *)
Inductive event : Type :=
| ExpireSet (i : nat)
| PoolStarted (i : nat) (size : Z) (dry_run : bool)
| Seeded (i : nat) (s : state)
| PoolStopped (i : nat).

Inductive outcome : Type :=
| Completed (log : list event)
| Aborted (log : list event) (e : exn)
| Stuck (log : list event).

(** [not cache_srs or cache.grid.srs in cache_srs]. *)
Definition selected (cache_srs : option (list SRS)) (c : cache) : bool :=
  match cache_srs with
  | None => true
  | Some [] => true
  | Some l => existsb (fun s => srs_eq (cache_grid_srs c) s) l
  end.

(** The loop of [seed_view] from position [i] on. *)
Fixpoint seed_view_from (self : t) (i : nat) (rest : list cache)
    (bbox : BBox) (level : Z * Z) (srs : option SRS)
    (cache_srs : option (list SRS)) (geom : option geometry)
    (log : list event) : outcome :=
  match rest with
  | [] => Completed log
  | c :: rest' =>
      if selected cache_srs c then
        let log := if timestamp_truth (remove_before self)
                   then log ++ [ExpireSet i] else log in
        let log := log ++ [PoolStarted i (concurrency self) (dry_run self)] in
        match SeedTask.__init__ bbox level srs (cache_grid_srs c) geom with
        | Error e => Aborted log e
        | Ok seed_task =>
            match @Seeder.seed (cache_grid c) _ _ _ seed_task Seeder.__init__ with
            | Return _ s =>
                seed_view_from self (S i) rest' bbox level srs cache_srs geom
                  (log ++ [Seeded i s; PoolStopped i])
            | Raise e _ => Aborted log e
            | OutOfFuel _ => Stuck log
            end
        end
      else
        seed_view_from self (S i) rest' bbox level srs cache_srs geom log
  end.

Definition seed_view (self : t) (bbox : BBox) (level : Z * Z)
    (srs : option SRS) (cache_srs : option (list SRS))
    (geom : option geometry) : outcome :=
  seed_view_from self 0 (caches self) bbox level srs cache_srs geom [].

Definition log_of (o : outcome) : list event :=
  match o with
  | Completed log => log
  | Aborted log _ => log
  | Stuck log => log
  end.

(** The pools started and not stopped, by position, oldest first. *)
Fixpoint running (log : list event) (pools : list nat) : list nat :=
  match log with
  | [] => pools
  | PoolStarted i _ _ :: log' => running log' (pools ++ [i])
  | PoolStopped i :: log' =>
      running log' (filter (fun j => negb (Nat.eqb i j)) pools)
  | _ :: log' => running log' pools
  end.

(** At every moment of the log at most one pool is running. *)
Definition one_pool_at_a_time (log : list event) : Prop :=
  forall pre post, log = pre ++ post -> (List.length (running pre []) <= 1)%nat.

(** How a run of [seed_view] leaves the pools: if it completes, none is
    running and never more than one was; if it is aborted, the pool started
    last is the one still running; it is never stuck. *)
Definition pools_left (o : outcome) : Prop :=
  match o with
  | Completed log => running log [] = [] /\ one_pool_at_a_time log
  | Aborted log e =>
      (exists i size dry_run front,
         log = front ++ [PoolStarted i size dry_run] /\ running log [] = [i]) /\
      one_pool_at_a_time log
  | Stuck _ => False
  end.

(** The positions for which a pool was started, in order. *)
Definition started (log : list event) : list nat :=
  flat_map (fun e => match e with PoolStarted i _ _ => [i] | _ => [] end) log.

(** The positions from [i] on of the caches [seed_view] selects. *)
Fixpoint selected_from (cache_srs : option (list SRS)) (i : nat)
    (rest : list cache) : list nat :=
  match rest with
  | [] => []
  | c :: rest' =>
      if selected cache_srs c then i :: selected_from cache_srs (S i) rest'
      else selected_from cache_srs (S i) rest'
  end.

End cache_seeder.
Arguments caches {srs_module Timestamp} t.
Arguments remove_before {srs_module Timestamp} t.
Arguments dry_run {srs_module Timestamp} t.
Arguments concurrency {srs_module Timestamp} t.
Arguments seed_view_from {grid_module srs_module shapely} srs_eq {Timestamp}
  timestamp_truth self i rest bbox level srs cache_srs geom log.
Arguments seed_view {grid_module srs_module shapely} srs_eq {Timestamp}
  timestamp_truth self bbox level srs cache_srs geom.
End CacheSeeder.

(** ** A sample world, to run the definitions *)

Module Sample.

Definition Qlt_bool (a b : Q) : bool := negb (Qle_bool b a).

(** Modelled from the spec: [bbox_contains] and [bbox_intersects] belong to
    [mapproxy.core.grid], which is not part of this file.  A region bbox
    "fully contains" a query bbox when it reaches at least as far on all four
    sides, and the two "overlap" when their interiors meet. *)
#[export] Instance grid_module : GridModule := {|
  bbox_intersects a b :=
    Qlt_bool (bbox0 a) (bbox2 b) && Qlt_bool (bbox0 b) (bbox2 a) &&
    Qlt_bool (bbox1 a) (bbox3 b) && Qlt_bool (bbox1 b) (bbox3 a);
  bbox_contains a b :=
    Qle_bool (bbox0 a) (bbox0 b) && Qle_bool (bbox2 b) (bbox2 a) &&
    Qle_bool (bbox1 a) (bbox1 b) && Qle_bool (bbox3 b) (bbox3 a)
|}.

Definition tiles_per_side (z : Z) : Z := 2 ^ z.

(** The tile [(x, y, z)], or the placeholder when it lies off the grid. *)
Definition tile_or_none (z y x : Z) : option Tile :=
  if (0 <=? x) && (x <? tiles_per_side z) && (0 <=? y) && (y <? tiles_per_side z)
  then Some (x, y, z) else None.

(** The integers [lo, lo+1, ..., hi-1]. *)
Definition range (lo hi : Z) : list Z :=
  map (fun k => lo + Z.of_nat k) (seq 0 (Z.to_nat (hi - lo))).

(** Modelled from the spec: the Grid is an external collaborator
    ([getAffectedLevelTiles], [metaBbox]).  This sample is a quadtree over the
    unit square with one tile per meta tile: level [z] has [2^z] tiles a side,
    the tiles a bbox touches are listed row by row, and a position off the
    grid is an absent placeholder. *)
#[export] Instance grid : MetaGrid := {|
  level_tiles := (Z * Z)%type;
  get_affected_level_tiles bbox z :=
    let n := inject_Z (tiles_per_side z) in
    let x0 := Qfloor (bbox0 bbox * n) in
    let x1 := Qceiling (bbox2 bbox * n) in
    let y0 := Qfloor (bbox1 bbox * n) in
    let y1 := Qceiling (bbox3 bbox * n) in
    (bbox, (x1 - x0, y1 - y0),
     flat_map (fun y => map (tile_or_none z y) (range x0 x1)) (range y0 y1));
  meta_bbox '(x, y, z) :=
    let n := inject_Z (tiles_per_side z) in
    (inject_Z x / n, inject_Z y / n, inject_Z (x + 1) / n, inject_Z (y + 1) / n)%Q
|}.

(** An SRS is its EPSG code; the sample transformation moves nothing. *)
#[export] Instance srs_module : SrsModule := {|
  SRS := Z;
  srs_ne a b := negb (a =? b);
  transform_bbox_to _ _ bbox := bbox;
  transform_to _ _ points := points
|}.

Definition epsg4326 : SRS := 4326.

(** An installation without shapely. *)
#[export] Instance no_shapely : Shapely := {|
  shapely_present := false;
  bounds _ := (0, 0, 0, 0)%Q;
  contains _ _ := false;
  intersects_geom _ _ := false
|}.

(** A bbox task in the grid's own SRS, as [__init__] builds it. *)
Definition bbox_task (bbox : BBox) (level : Z * Z) : SeedTask.t :=
  {| SeedTask.start_level := fst level;
     SeedTask.max_level := snd level;
     SeedTask.bbox_srs := Some epsg4326;
     SeedTask.seed_srs := epsg4326;
     SeedTask.bbox := bbox;
     SeedTask.geom := None |}.

Definition unit_square : BBox := (0, 0, 1, 1)%Q.

(** The whole grid, levels 0 to 2. *)
Definition whole : SeedTask.t := bbox_task unit_square (0, 2).

(** The lower half of the grid, levels 1 to 2: it covers two level-1
    tiles, and both survive. *)
Definition lower_half : SeedTask.t := bbox_task (0, 0, 1, 1 # 2)%Q (1, 2).

(** A bbox that sticks out of the grid on the left, seeded at level 1 only. *)
Definition overhang : SeedTask.t := bbox_task (- (1 # 2), 0, 1 # 2, 1 # 2)%Q (1, 1).

(** A bbox of no extent, on the common corner of the four level-1 tiles. *)
Definition point : SeedTask.t := bbox_task (1 # 2, 1 # 2, 1 # 2, 1 # 2)%Q (0, 2).

(** A level range given the wrong way round. *)
Definition reversed : SeedTask.t := bbox_task (0, 0, 1 # 8, 1 # 8)%Q (3, 1).

(** The states in which the passes over [whole] and [lower_half] end. *)
Definition whole_end : state := final (Seeder.seed whole Seeder.__init__).
Definition lower_half_end : state :=
  final (Seeder.seed lower_half Seeder.__init__).

End Sample.


(** ** More samples *)

Module Fixtures.

Definition epsg3857 : SRS (SrsModule := Sample.srs_module) := 3857.

Definition triangle : geometry := Polygon ([(0, 0); (1, 0); (0, 1)]%Q, []).

(** An installation with shapely, for which every geometry contains and
    intersects everything and has the unit square for bounds. *)
Definition with_shapely : Shapely := {|
  shapely_present := true;
  bounds _ := Sample.unit_square;
  contains _ _ := true;
  intersects_geom _ _ := true
|}.

(** A polygon task over the sample grid, levels 0 to 2. *)
Definition polygon_task : SeedTask.t (srs_module := Sample.srs_module) :=
  {| SeedTask.start_level := 0;
     SeedTask.max_level := 2;
     SeedTask.bbox_srs := Some Sample.epsg4326;
     SeedTask.seed_srs := Sample.epsg4326;
     SeedTask.bbox := Sample.unit_square;
     SeedTask.geom := Some triangle |}.

(** A loader that lets an exception escape on an empty batch. *)
Definition load_nonempty (tiles : list (option Tile)) : option unit :=
  match tiles with
  | [] => Some tt
  | _ :: _ => None
  end.

Definition job_a : SeedJob := ([Some (0, 0, 1)], ("."%string, (1 # 2)%Q)).
Definition job_b : SeedJob := ([Some (1, 0, 1)], ("0"%string, 1%Q)).
Definition job_empty : SeedJob := ([], ("0"%string, 1%Q)).

(** Two caches on the sample grid, one per SRS, seeded with two workers
    and no expiry. *)
Definition two_caches
    : CacheSeeder.t (srs_module := Sample.srs_module) (option Q) :=
  {| CacheSeeder.caches :=
       [ {| CacheSeeder.cache_grid := Sample.grid;
            CacheSeeder.cache_grid_srs := Sample.epsg4326 |};
         {| CacheSeeder.cache_grid := Sample.grid;
            CacheSeeder.cache_grid_srs := epsg3857 |} ];
     CacheSeeder.remove_before := None;
     CacheSeeder.dry_run := true;
     CacheSeeder.concurrency := 2 |}.

(** The truth value of a [remove_before] that is [None] or a float. *)
Definition float_truth (t : option Q) : bool :=
  match t with
  | Some x => negb (Qeq_bool x 0)
  | None => false
  end.

(** Three by three tiles of level 2, seeded at levels 2 and 3: the
    start-level visit has nine survivors. *)
Definition nine : SeedTask.t (srs_module := Sample.srs_module) :=
  Sample.bbox_task (0, 0, 3 # 4, 3 # 4)%Q (2, 3).

End Fixtures.

(** ** The vocabulary of the properties *)

(** [wp m Q E s]: running [m] from [s] either returns a value and state
    satisfying [Q], or stops early in a state satisfying [E]; [E] is told the
    exception, or [None] when the fuel ran out. *)
Definition wp {A} (m : M A) (Q : A -> state -> Prop)
    (E : option exn -> state -> Prop) (s : state) : Prop :=
  match m s with
  | Return a s' => Q a s'
  | Raise e s' => E (Some e) s'
  | OutOfFuel s' => E None s'
  end.

Section vocabulary.
Context {grid : MetaGrid} {grid_module : GridModule} {srs_module : SrsModule}
        {shapely : Shapely}.
Variable task : SeedTask.t.

(** The tile list a visit of [cur_bbox] at [level] works on. *)
Definition subtiles_of (cur_bbox : BBox) (level : Z) : list (option Tile) :=
  snd (get_affected_level_tiles cur_bbox level).

Definition is_intersects (e : event) : Prop :=
  match e with Intersects _ => True | _ => False end.

(** [s'] differs from [s] by invocations of the predicate only, and by none
    under [all_subtiles]. *)
Definition classified (all_subtiles : bool) (s s' : state) : Prop :=
  progress s' = progress s /\
  exists seg, trace s' = trace s ++ seg /\ Forall is_intersects seg /\
              (all_subtiles = true -> seg = []).

(** An entry of [sub_seeds]: its classification is truthy, and is
    [CONTAINS] under [all_subtiles], else what the predicate said. *)
Definition survivor (all_subtiles : bool) (c : BBox * Z) : Prop :=
  truthy (snd c) = true /\
  if all_subtiles then snd c = CONTAINS
  else SeedTask.intersects task (fst c) = Ok (snd c).

(** The state after the [Call] event and the state after the final [put]. *)
Definition entered (cur_bbox : BBox) (level : Z) (progess_str : string)
    (w : Q) (a : bool) (s : state) : state :=
  {| progress := progress s;
     trace := trace s ++ [Call cur_bbox level progess_str w a] |}.

Definition submitted_own (cur_bbox : BBox) (level : Z) (progess_str : string)
    (s : state) : state :=
  {| progress := progress s;
     trace := trace s ++
              [Put (subtiles_of cur_bbox level, (progess_str, progress s))] |}.

(** Under an inherited [CONTAINS] nothing asks the predicate and every
    visit carries the flag. *)
Definition inherited (e : event) : Prop :=
  match e with
  | Intersects _ => False
  | Call _ _ _ _ all_subtiles => all_subtiles = true
  | _ => True
  end.

(** A visit of a bbox the predicate classifies [CONTAINS] carries the flag. *)
Definition flag_follows (e : event) : Prop :=
  match e with
  | Call cur_bbox _ _ _ all_subtiles =>
      SeedTask.intersects task cur_bbox = Ok CONTAINS -> all_subtiles = true
  | _ => True
  end.

(** Every present subtile, classified [CONTAINS]. *)
Definition all_contains (subtiles : list (option Tile)) : list (BBox * Z) :=
  flat_map (fun subtile =>
              match subtile with
              | Some t => [(meta_bbox t, CONTAINS)]
              | None => []
              end) subtiles.

(** Post-order: a visit opens with its [Call] and closes with the [Put] of
    its own tile list and path; whatever lies between is again made of
    complete visits (and bookkeeping), so every job of a descendant precedes
    the job of its ancestor. *)
Inductive nested : list event -> Prop :=
| nested_nil : nested []
| nested_intersects bbox tr :
    nested tr -> nested (Intersects bbox :: tr)
| nested_update level value tr :
    nested tr -> nested (Update level value :: tr)
| nested_visit cur_bbox level progess_str w a body snapshot tr :
    nested body -> nested tr ->
    nested (Call cur_bbox level progess_str w a ::
            body ++
            Put (subtiles_of cur_bbox level, (progess_str, snapshot)) :: tr).

(** The job each visit owes: its tile list, as the grid returned it, and its
    path. *)
Definition owed (tr : list event) : list (list (option Tile) * string) :=
  flat_map (fun e =>
              match e with
              | Call cur_bbox level progess_str _ _ =>
                  [(subtiles_of cur_bbox level, progess_str)]
              | _ => []
              end) tr.

(** The jobs put on the queue, without their progress snapshot. *)
Definition submitted (tr : list event) : list (list (option Tile) * string) :=
  flat_map (fun e =>
              match e with
              | Put (tiles, (progess_str, _)) => [(tiles, progess_str)]
              | _ => []
              end) tr.

Definition visited_between (lo hi : Z) (e : event) : Prop :=
  match e with
  | Call _ level _ _ _ => lo <= level <= hi
  | _ => True
  end.

(** No submitted batch holds a placeholder. *)
Definition placeholders_skipped (tr : list event) : Prop :=
  forall job, In (Put job) tr -> ~ In None (fst job).

(** [climbs p tr p']: along [tr] the progress value starts at [p], never
    decreases at an update, is what every job's snapshot shows, and ends at
    [p']. *)
Fixpoint climbs (p : Q) (tr : list event) (p' : Q) : Prop :=
  match tr with
  | [] => p' = p
  | Update _ value :: tr' => (p <= value)%Q /\ climbs value tr' p'
  | Put (_, (_, snapshot)) :: tr' => snapshot = p /\ climbs p tr' p'
  | _ :: tr' => climbs p tr' p'
  end.

Definition update_at (level : Z) (e : event) : Prop :=
  match e with
  | Update l _ => l = level
  | _ => True
  end.

Definition value_within (lo hi : Q) (e : event) : Prop :=
  match e with
  | Update _ value => (lo <= value <= hi)%Q
  | Put (_, (_, snapshot)) => (lo <= snapshot <= hi)%Q
  | _ => True
  end.

(** What holds of the progress value between the start of a visit with
    weight [w] and any state the visit ends in. *)
Definition advanced (l : Z) (w : Q) (s s' : state) : Prop :=
  exists seg,
    trace s' = trace s ++ seg /\
    climbs (progress s) seg (progress s') /\
    (progress s' <= progress s + w)%Q /\
    Forall (update_at (Z.max l (SeedTask.max_level task))) seg.

(** [s'] continues [s] by events that all satisfy [P]. *)
Definition extends_by (P : event -> Prop) (s s' : state) : Prop :=
  exists seg, trace s' = trace s ++ seg /\ Forall P seg.

(** [s'] continues [s] by one complete visit: its [Call], a nested body, and
    last its own job with the progress value of [s']. *)
Definition visit_of (cur_bbox : BBox) (level : Z) (progess_str : string)
    (w : Q) (a : bool) (s s' : state) : Prop :=
  exists body,
    trace s' = trace s ++
               Call cur_bbox level progess_str w a ::
               body ++
               [Put (subtiles_of cur_bbox level, (progess_str, progress s'))] /\
    nested body.

(** Every present subtile classifies [NONE]; none can under [all_subtiles]. *)
Definition all_none (all_subtiles : bool) (subtiles : list (option Tile)) : Prop :=
  Forall (fun subtile =>
            forall t, subtile = Some t ->
                      all_subtiles = false /\
                      SeedTask.intersects task (meta_bbox t) = Ok NONE)
         subtiles.

End vocabulary.

(** *** More vocabulary: glyphs, paths, classification, geometry *)

(** The ints for which the float quotient [i/(total/4)] of [status_symbol]
    is as good as the exact one: up to [2^50] in size an int converts to a
    float exactly, and the rounded quotient of a sibling position has the
    ceiling of the exact quotient. *)
Definition float_safe (n : Z) : Prop := Z.abs n <= 2 ^ 50.

(** The glyphs of the four quartile buckets. *)
Definition bucket_glyphs : list string := ["."; "o"; "O"; "0"]%string.

(** [glyphs n s]: [s] is [n] bucket glyphs, one after the other. *)
Inductive glyphs : nat -> string -> Prop :=
| glyphs_nil : glyphs 0 ""
| glyphs_snoc n s g :
    glyphs n s -> In g bucket_glyphs -> glyphs (S n) (s ++ g).

(** The bucket of sibling [i] of [n], in integer arithmetic:
    the ceiling of [4 * (i + 1) / n]. *)
Definition bucket (i n : Z) : Z := (4 * (i + 1) + n - 1) / n.

(** The progress snapshots of the jobs put, in order. *)
Definition snapshots (tr : list event) : list Q :=
  flat_map (fun e =>
              match e with
              | Put (_, (_, snapshot)) => [snapshot]
              | _ => []
              end) tr.

(** The rectangle [_geom_intersects] builds from a bbox. *)
Definition bbox_polygon (bbox : BBox) : geometry :=
  Polygon ([ (bbox0 bbox, bbox1 bbox);
             (bbox2 bbox, bbox1 bbox);
             (bbox2 bbox, bbox3 bbox);
             (bbox0 bbox, bbox3 bbox) ], []).

(** The geometry types [transform_geometry] handles. *)
Definition plain (g : geometry) : bool :=
  match g with
  | Polygon _ | MultiPolygon _ => true
  | OtherGeometry | PreparedGeometry _ => false
  end.

(** A point transformation applied to every ring. *)
Definition map_polygon (f : list (Q * Q) -> list (Q * Q)) (p : polygon) : polygon :=
  (f (fst p), map f (snd p)).

Definition map_geometry (f : list (Q * Q) -> list (Q * Q)) (g : geometry) : geometry :=
  match g with
  | Polygon p => Polygon (map_polygon f p)
  | MultiPolygon ps => MultiPolygon (map (map_polygon f) ps)
  | OtherGeometry => OtherGeometry
  | PreparedGeometry c => PreparedGeometry c
  end.

(** The visits of a descent as a tree: a visit, with the tile list and the
    path of the job it owes, over the visits made below it. *)
#[local] Unset Elimination Schemes.
Inductive visits : Type :=
| Visit (tiles : list (option Tile)) (progess_str : string) (below : list visits).
#[local] Set Elimination Schemes.

Definition job_of (v : visits) : list (option Tile) * string :=
  match v with Visit tiles progess_str _ => (tiles, progess_str) end.

Definition below (v : visits) : list visits :=
  match v with Visit _ _ vs => vs end.

(** Post-order: the jobs of the visits below, subtree after subtree, then
    the visit's own job. *)
Fixpoint post_order (v : visits) : list (list (option Tile) * string) :=
  match v with
  | Visit tiles progess_str vs =>
      flat_map post_order vs ++ [(tiles, progess_str)]
  end.

(** [within u v]: the visit [u] is [v] or lies somewhere below it. *)
Inductive within (u : visits) : visits -> Prop :=
| within_here : within u u
| within_below tiles progess_str vs v :
    In v vs -> within u v -> within u (Visit tiles progess_str vs).

(** [enumerate(l)], counting from [i]. *)
Fixpoint enumerate {A} (i : Z) (l : list A) : list (Z * A) :=
  match l with
  | [] => []
  | a :: l' => (i, a) :: enumerate (i + 1) l'
  end.

(** The glyph of sibling [i] of [total]. *)
Definition glyph (i total : Z) : string :=
  match status_symbol i total with
  | Ok symbol => symbol
  | Error _ => ""%string
  end.

Section more_vocabulary.
Context {grid : MetaGrid} {grid_module : GridModule} {srs_module : SrsModule}
        {shapely : Shapely}.
Variable task : SeedTask.t.

(** A visit's path continues [str0] by one bucket glyph per level below
    [l0]; the path of a job continues [str0] by bucket glyphs. *)
Definition path_from (l0 : Z) (str0 : string) (e : event) : Prop :=
  match e with
  | Call _ level progess_str _ _ =>
      exists n suffix,
        glyphs n suffix /\ progess_str = (str0 ++ suffix)%string /\
        level = l0 + Z.of_nat n
  | Put (_, (progess_str, _)) =>
      exists n suffix, glyphs n suffix /\ progess_str = (str0 ++ suffix)%string
  | _ => True
  end.

(** A visit is made with the inherited flag set, or of a bbox the predicate
    classifies INTERSECTS. *)
Definition touches_region (e : event) : Prop :=
  match e with
  | Call cur_bbox _ _ _ all_subtiles =>
      all_subtiles = true \/
      SeedTask.intersects task cur_bbox = Ok INTERSECTS
  | _ => True
  end.

(** The bboxes of the present subtiles, in order. *)
Definition present_bboxes (subtiles : list (option Tile)) : list BBox :=
  flat_map (fun subtile =>
              match subtile with
              | Some t => [meta_bbox t]
              | None => []
              end) subtiles.

(** The bboxes the predicate does not classify NONE, with their
    classification. *)
Definition kept (bboxes : list BBox) : list (BBox * Z) :=
  flat_map (fun bbox =>
              match SeedTask.intersects task bbox with
              | Ok c => if truthy c then [(bbox, c)] else []
              | Error _ => []
              end) bboxes.

(** The survivors of a tile list when no classification raises: under
    [all_subtiles] every present subtile, as CONTAINS; else, in order, the
    present subtiles the predicate does not classify NONE. *)
Definition survivors (all_subtiles : bool) (subtiles : list (option Tile))
    : list (BBox * Z) :=
  if all_subtiles then all_contains subtiles
  else kept (present_bboxes subtiles).

(** The tree of the visits of a descent of at most [depth] levels below
    [cur_bbox]: a visit below [max_level] has one visit below it for each of
    its survivors, in order, one level down, with the survivor's glyph added
    to the path and the flag set for a survivor classified CONTAINS; a visit
    at [max_level] or beyond has none. *)
Fixpoint descent (depth : nat) (cur_bbox : BBox) (level : Z)
    (progess_str : string) (all_subtiles : bool) : visits :=
  Visit (subtiles_of cur_bbox level) progess_str
    match depth with
    | O => []
    | S depth =>
        if level <? SeedTask.max_level task then
          let sub_seeds := survivors all_subtiles (subtiles_of cur_bbox level) in
          map (fun '(i, (sub_bbox, intersection)) =>
                 descent depth sub_bbox (level + 1)
                   (progess_str ++ glyph i (Z.of_nat (List.length sub_seeds)))
                   (if intersection =? CONTAINS then true else false))
              (enumerate 0 sub_seeds)
        else []
    end.

(** The trace ends in a visit below [max_level] that found no survivor:
    after its [Call] only the predicate was invoked. *)
Definition ends_barren (tr : list event) : Prop :=
  exists front cur_bbox level progess_str w all_subtiles seg,
    tr = front ++ Call cur_bbox level progess_str w all_subtiles :: seg /\
    level < SeedTask.max_level task /\
    Forall is_intersects seg /\
    survivors all_subtiles (subtiles_of cur_bbox level) = [].

(** The trace ends in an invocation of the predicate, which raised [e]. *)
Definition ends_asking (e : exn) (tr : list event) : Prop :=
  exists front bbox,
    tr = front ++ [Intersects bbox] /\
    SeedTask.intersects task bbox = Error e.

(** What lies behind an exception of a pass: behind a division by zero a
    visit without survivor, behind an unbound name a predicate asked
    without shapely; an index is never out of range.  Of the other
    exceptions nothing is said. *)
Definition cause (e : exn) (tr : list event) : Prop :=
  match e with
  | ZeroDivisionError => ends_barren tr
  | NameError =>
      shapely_present = false /\ SeedTask.geom task <> None /\
      ends_asking NameError tr
  | IndexError => False
  | AttributeError | ImportError => True
  end.

End more_vocabulary.

(** ** Reasoning about runs *)

Lemma wp_ret {A} (a : A) Q E s : Q a s -> wp (ret a) Q E s.
Proof. exact (fun H => H). Qed.

Lemma wp_raise {A} (e : exn) (Q : A -> state -> Prop) E s :
  E (Some e) s -> wp (raise e) Q E s.
Proof. exact (fun H => H). Qed.

Lemma wp_bind {A B} (m : M A) (k : A -> M B) Q E s :
  wp m (fun a s' => wp (k a) Q E s') E s -> wp (bind m k) Q E s.
Proof.
  unfold wp, bind. destruct (m s); auto.
Qed.

Lemma wp_mono {A} (m : M A) (Q Q' : A -> state -> Prop) (E E' : option exn -> state -> Prop) s :
  wp m Q E s ->
  (forall a s', Q a s' -> Q' a s') ->
  (forall x s', E x s' -> E' x s') ->
  wp m Q' E' s.
Proof.
  unfold wp. destruct (m s); auto.
Qed.

Lemma wp_lift {A} (r : result A) Q E s :
  match r with Ok a => Q a s | Error e => E (Some e) s end ->
  wp (lift r) Q E s.
Proof. destruct r; exact (fun H => H). Qed.

Lemma wp_emit (e : event) Q E s :
  Q tt {| progress := progress s; trace := trace s ++ [e] |} ->
  wp (emit e) Q E s.
Proof. exact (fun H => H). Qed.

Lemma wp_get_progress Q E s : Q (progress s) s -> wp get_progress Q E s.
Proof. exact (fun H => H). Qed.

Lemma wp_true_div (x : Q) (n : Z) Q E s :
  (n = 0 -> E (Some ZeroDivisionError) s) ->
  (n <> 0 -> Q (x / inject_Z n)%Q s) ->
  wp (true_div x n) Q E s.
Proof.
  intros H0 H1. unfold true_div.
  destruct (Z.eqb_spec n 0); [apply wp_raise | apply wp_ret]; auto.
Qed.

(** The loop rule: [I n] holds before the [n]-th iteration, counting the
    iterations already made as [k]. *)
Lemma wp_for_enumerate {A} (I : nat -> state -> Prop) E (body : Z -> A -> M unit) :
  forall (l : list A) (k : nat) (i : Z) (s : state),
  I k s ->
  (forall n a s1, nth_error l n = Some a -> I (k + n)%nat s1 ->
     wp (body (i + Z.of_nat n) a) (fun _ s2 => I (S (k + n)) s2) E s1) ->
  wp (for_enumerate i l body) (fun _ s' => I (k + List.length l)%nat s') E s.
Proof.
  induction l as [|a l IH]; intros k i s HI Hbody; simpl.
  - apply wp_ret. now rewrite Nat.add_0_r.
  - apply wp_bind.
    pose proof (Hbody 0%nat a s eq_refl) as H0.
    rewrite Nat.add_0_r, Z.add_0_r in H0.
    eapply wp_mono; [apply H0, HI | | auto].
    intros u s2 HI2. cbv beta in HI2 |- *.
    eapply wp_mono; [apply (IH (S k) (i + 1) s2 HI2) | | auto].
    + intros n b s1 Hn Hs1.
      specialize (Hbody (S n) b s1 Hn).
      replace (i + Z.of_nat (S n)) with (i + 1 + Z.of_nat n) in Hbody by lia.
      replace (k + S n)%nat with (S k + n)%nat in Hbody by lia.
      exact (Hbody Hs1).
    + intros u' s' Hs'. now replace (k + S (List.length l))%nat with (S k + List.length l)%nat by lia.
Qed.

(** *** The glyph of a real sibling position *)

Lemma py_index_symbols (k : Z) :
  1 <= k <= 4 ->
  exists c, py_index [" "; "."; "o"; "O"; "0"]%string k = Ok c.
Proof.
  intros Hk.
  assert (k = 1 \/ k = 2 \/ k = 3 \/ k = 4) as [->|[->|[->| ->]]] by lia;
    eexists; reflexivity.
Qed.

Lemma quartile_bounds (i total : Z) :
  0 < i <= total ->
  1 <= Qceiling (inject_Z i / (inject_Z total / 4)) <= 4.
Proof.
  intros [Hi Hit].
  set (q := (inject_Z i / (inject_Z total / 4))%Q).
  assert (Htot : (0 < inject_Z total)%Q)
    by (change (inject_Z 0 < inject_Z total)%Q; rewrite <- Zlt_Qlt; lia).
  assert (Hi' : (0 < inject_Z i)%Q)
    by (change (inject_Z 0 < inject_Z i)%Q; rewrite <- Zlt_Qlt; lia).
  assert (Hle : (inject_Z i <= inject_Z total)%Q) by (rewrite <- Zle_Qle; lia).
  assert (Hd : (0 < inject_Z total / 4)%Q) by (apply Qlt_shift_div_l; lra).
  assert (Hq0 : (0 < q)%Q) by (apply Qlt_shift_div_l; lra).
  assert (Hq4 : (q <= 4)%Q).
  { apply Qle_shift_div_r; [exact Hd|].
    setoid_replace (4 * (inject_Z total / 4))%Q with (inject_Z total) by field.
    exact Hle. }
  pose proof (Qle_ceiling q) as Hc.
  pose proof (Qceiling_lt q) as Hc'.
  split.
  - assert (inject_Z 0 < inject_Z (Qceiling q))%Q as H
      by (change (inject_Z 0) with 0%Q; lra).
    rewrite <- Zlt_Qlt in H. lia.
  - assert (inject_Z (Qceiling q - 1) < inject_Z 4)%Q as H by (change (inject_Z 4) with 4%Q; lra).
    rewrite <- Zlt_Qlt in H. lia.
Qed.

Lemma status_symbol_sibling (i total : Z) :
  0 <= i < total -> exists c, status_symbol i total = Ok c.
Proof.
  intros H. unfold status_symbol.
  replace (i + 1 >? total) with false
    by (symmetry; rewrite Z.gtb_ltb; apply Z.ltb_ge; lia).
  rewrite andb_false_r.
  replace (total =? 0) with false by (symmetry; apply Z.eqb_neq; lia).
  apply py_index_symbols, quartile_bounds. lia.
Qed.

(** ** The descent *)

Section descent.
Context {grid : MetaGrid} {grid_module : GridModule} {srs_module : SrsModule}
        {shapely : Shapely}.
Variable task : SeedTask.t.

Abbreviation max_level := (SeedTask.max_level task).
Abbreviation start_level := (SeedTask.start_level task).
Abbreviation _seed := (Seeder._seed task).
Abbreviation _sub_seeds := (Seeder._sub_seeds task).

Lemma classified_refl a s : classified a s s.
Proof.
  split; [reflexivity|]. exists []. now rewrite app_nil_r.
Qed.

Lemma classified_trans a s1 s2 s3 :
  classified a s1 s2 -> classified a s2 s3 -> classified a s1 s3.
Proof.
  intros [Hp [seg [Ht [Hf Ha]]]] [Hp' [seg' [Ht' [Hf' Ha']]]].
  split; [congruence|].
  exists (seg ++ seg'). repeat split.
  - now rewrite Ht', Ht, app_assoc.
  - now apply Forall_app.
  - intros H. now rewrite (Ha H), (Ha' H).
Qed.

Lemma _sub_seeds_from_spec (subtiles : list (option Tile)) (a : bool) :
  forall (acc : list (BBox * Z)) (s : state),
  wp (Seeder._sub_seeds_from task acc subtiles a)
     (fun l s' => classified a s s' /\
                  exists new, l = acc ++ new /\ Forall (survivor task a) new)
     (fun x s' => x <> None /\ a = false /\ classified a s s')
     s.
Proof.
  induction subtiles as [|[subtile|] subtiles IH]; intros acc s; simpl.
  - apply wp_ret. split; [apply classified_refl|].
    exists []. now rewrite app_nil_r.
  - apply wp_bind. destruct a.
    + apply wp_ret. change (truthy CONTAINS) with true. cbv iota.
      eapply wp_mono; [apply IH | | auto].
      intros l s' [Hc [new [-> Hnew]]]. split; [exact Hc|].
      exists ((meta_bbox subtile, CONTAINS) :: new).
      rewrite <- app_assoc. split; [reflexivity|].
      constructor; [now split | exact Hnew].
    + unfold Seeder.task_intersects.
      apply wp_bind, wp_emit, wp_lift.
      set (s1 := {| progress := progress s;
                    trace := trace s ++ [Intersects (meta_bbox subtile)] |}).
      assert (H1 : classified false s s1).
      { split; [reflexivity|]. exists [Intersects (meta_bbox subtile)].
        repeat split; [repeat constructor | discriminate]. }
      destruct (SeedTask.intersects task (meta_bbox subtile)) as [c|e] eqn:Hc.
      * destruct (truthy c) eqn:Htc.
        -- eapply wp_mono; [apply IH | | ].
           ++ intros l s' [Hcl [new [-> Hnew]]].
              split; [now apply classified_trans with s1|].
              exists ((meta_bbox subtile, c) :: new). rewrite <- app_assoc.
              split; [reflexivity|]. constructor; [now split | exact Hnew].
           ++ intros x s' [Hx [_ Hcl]].
              split; [exact Hx | split; [reflexivity|]].
              now apply classified_trans with s1.
        -- eapply wp_mono; [apply IH | | ].
           ++ intros l s' [Hcl Hnew].
              split; [now apply classified_trans with s1 | exact Hnew].
           ++ intros x s' [Hx [_ Hcl]].
              split; [exact Hx | split; [reflexivity|]].
              now apply classified_trans with s1.
      * split; [discriminate | split; [reflexivity | exact H1]].
  - apply IH.
Qed.

Lemma _sub_seeds_spec (subtiles : list (option Tile)) (a : bool) (s : state) :
  wp (_sub_seeds subtiles a)
     (fun l s' => classified a s s' /\ Forall (survivor task a) l)
     (fun x s' => x <> None /\ a = false /\ classified a s s')
     s.
Proof.
  eapply wp_mono; [apply (_sub_seeds_from_spec subtiles a [] s) | | auto].
  intros l s' [Hc [new [-> Hnew]]]. now split.
Qed.

(** The rule for one visit: what has to be shown of the children loop and of
    the terminal update to conclude [Q] of the visit. *)
Lemma wp_seed_S (fuel : nat) (b : BBox) (l : Z) (str : string) (w : Q) (a : bool)
    (Post : state -> Prop) (E : option exn -> state -> Prop) (s : state) :
  let s1 := entered b l str w a s in
  (l < max_level ->
   wp (_sub_seeds (subtiles_of b l) a)
      (fun subs s2 =>
         (subs = [] -> E (Some ZeroDivisionError) s2) /\
         (subs <> [] ->
          wp (for_enumerate 0 subs (fun i '(sub_bbox, intersection) =>
                symbol <- lift (status_symbol i (Z.of_nat (List.length subs))) ;;
                _seed fuel sub_bbox (l + 1) (str ++ symbol)%string
                      (w / inject_Z (Z.of_nat (List.length subs)))%Q
                      (if intersection =? CONTAINS then true else false)))
             (fun _ s3 => Post (submitted_own b l str s3)) E s2))
      E s1) ->
  (max_level <= l ->
   Post (submitted_own b l str
        {| progress := (progress s + w)%Q;
           trace := trace s1 ++ [Update l (progress s + w)%Q] |})) ->
  wp (_seed (S fuel) b l str w a) (fun _ s' => Post s') E s.
Proof.
  intros s1 Hnode Hleaf. cbn [Seeder._seed].
  apply wp_bind, wp_emit. fold s1.
  unfold submitted_own, subtiles_of in *.
  destruct (get_affected_level_tiles b l) as [[bbox_ tiles_] subtiles].
  cbn [snd] in *.
  apply wp_bind.
  destruct (Z.ltb_spec l max_level) as [Hlt|Hge].
  - apply wp_bind.
    eapply wp_mono; [apply (Hnode Hlt) | | auto].
    intros subs s2 [Hnil Hcons]. cbv beta.
    apply wp_bind, wp_true_div.
    + intros Hlen. apply Hnil. destruct subs; [reflexivity | discriminate].
    + intros Hlen. destruct subs as [|c subs]; [now elim Hlen|].
      eapply wp_mono; [apply Hcons; discriminate | | auto].
      intros u s3 HQ. apply wp_bind, wp_get_progress. exact HQ.
  - unfold Seeder.add_progress, wp at 1.
    apply wp_bind, wp_get_progress. apply (Hleaf Hge).
Qed.

(** The same rule with the bookkeeping done: [_sub_seeds] is replaced by what
    it guarantees, the glyph lookup is known to succeed, and the children
    loop is reduced to an invariant [I n] over the number [n] of children
    already seeded. *)
Lemma wp_visit (fuel : nat) (b : BBox) (l : Z) (str : string) (w : Q) (a : bool)
    (Post : state -> Prop) (E : option exn -> state -> Prop) (s : state) :
  let s1 := entered b l str w a s in
  (l < max_level -> forall e s2,
     a = false -> classified a s1 s2 -> E (Some e) s2) ->
  (l < max_level -> forall s2,
     classified a s1 s2 -> E (Some ZeroDivisionError) s2) ->
  (l < max_level -> forall subs s2,
     classified a s1 s2 -> Forall (survivor task a) subs -> subs <> [] ->
     exists I : nat -> state -> Prop,
       I 0%nat s2 /\
       (forall n sub_bbox c symbol s,
          nth_error subs n = Some (sub_bbox, c) -> I n s ->
          wp (_seed fuel sub_bbox (l + 1) (str ++ symbol)%string
                    (w / inject_Z (Z.of_nat (List.length subs)))%Q
                    (if c =? CONTAINS then true else false))
             (fun _ s' => I (S n) s') E s) /\
       (forall s3, I (List.length subs) s3 -> Post (submitted_own b l str s3))) ->
  (max_level <= l ->
   Post (submitted_own b l str
           {| progress := (progress s + w)%Q;
              trace := trace s1 ++ [Update l (progress s + w)%Q] |})) ->
  wp (_seed (S fuel) b l str w a) (fun _ s' => Post s') E s.
Proof.
  intros s1 Herr Hzero Hnode Hleaf.
  apply wp_seed_S; [|exact Hleaf].
  intros Hlt. fold s1.
  eapply wp_mono; [apply _sub_seeds_spec | |].
  - intros subs s2 [Hcl Hsurv]. split.
    + intros _. now apply Hzero.
    + intros Hne.
      destruct (Hnode Hlt subs s2 Hcl Hsurv Hne) as [I [H0 [Hstep Hend]]].
      eapply wp_mono;
        [apply (wp_for_enumerate I E) with (k := 0%nat); [exact H0|] | | auto].
      * intros n [sub_bbox c] s' Hn HI. cbn [Nat.add] in HI |- *.
        destruct (status_symbol_sibling (0 + Z.of_nat n)
                    (Z.of_nat (List.length subs))) as [symbol Hsym].
        { assert (n < List.length subs)%nat
            by (apply nth_error_Some; congruence).
          lia. }
        apply wp_bind. rewrite Hsym. apply wp_ret.
        now apply Hstep.
      * intros u s3 HI. now apply Hend.
  - intros x s2 [Hx [Ha Hcl]].
    destruct x as [e|]; [now apply Herr | now elim Hx].
Qed.

(** *** Termination *)

Lemma _seed_enough_fuel (fuel : nat) :
  forall b l str w a s,
  (Z.to_nat (max_level - l) < fuel)%nat ->
  wp (_seed fuel b l str w a) (fun _ _ => True) (fun x _ => x <> None) s.
Proof.
  induction fuel as [|fuel IH]; intros b l str w a s Hfuel; [lia|].
  apply wp_visit with (Post := fun _ => True); try discriminate; [|trivial].
  intros Hlt subs s2 _ _ _. exists (fun _ _ => True).
  split; [trivial | split; [|trivial]].
  intros n sub_bbox c symbol s0 _ _. apply IH. lia.
Qed.

(** [seed] gives [_seed] all the fuel it needs. *)
Lemma seed_terminates (s s' : state) : Seeder.seed task s <> OutOfFuel s'.
Proof.
  intros H.
  pose proof (_seed_enough_fuel
                (S (Z.to_nat (max_level - start_level)))
                (SeedTask.bbox task) start_level "" 1%Q false s
                (Nat.lt_succ_diag_r _)) as Hwp.
  unfold wp in Hwp. fold (Seeder.seed task) in Hwp. rewrite H in Hwp.
  now apply Hwp.
Qed.

(** *** Progress accounting *)

Lemma _seed_adds_weight (fuel : nat) :
  forall b l str w a s,
  wp (_seed fuel b l str w a)
     (fun _ s' => progress s' == progress s + w) (fun _ _ => True) s.
Proof.
  induction fuel as [|fuel IH]; intros b l str w a s; [exact I|].
  apply wp_visit with (Post := fun s' => progress s' == progress s + w);
    try (intros; exact I).
  - intros Hlt subs s2 [Hp _] _ Hne.
    set (total := inject_Z (Z.of_nat (List.length subs))).
    exists (fun n s3 => progress s3 == progress s + inject_Z (Z.of_nat n) * (w / total)).
    split; [|split].
    + rewrite Hp. cbn. ring.
    + intros n sub_bbox c symbol s0 _ Hn.
      eapply wp_mono; [apply IH | | auto].
      intros u s' Hs'. cbv beta in Hs' |- *. rewrite Hs', Hn.
      rewrite Nat2Z.inj_succ, <- Z.add_1_r, inject_Z_plus.
      change (inject_Z 1) with 1%Q. ring.
    + intros s3 Hs3. cbn. rewrite Hs3. fold total.
      assert (~ total == 0).
      { unfold total. intros H. apply Hne.
        change 0%Q with (inject_Z 0) in H.
        apply (proj1 (inject_Z_injective _ _)) in H.
        apply length_zero_iff_nil. lia. }
      field. assumption.
  - intros _. cbn. reflexivity.
Qed.

(** *** Progress never decreases and stays within the weight *)

Lemma climbs_app (tr1 tr2 : list event) :
  forall p q r, climbs p tr1 q -> climbs q tr2 r -> climbs p (tr1 ++ tr2) r.
Proof.
  induction tr1 as [|e tr1 IH]; intros p q r H1 H2; simpl in *.
  - now subst q.
  - destruct e as [| | lv v | [tiles [str v]]]; try now apply IH with q.
    + destruct H1 as [Hle H1]. split; [exact Hle | now apply IH with q].
    + destruct H1 as [Hv H1]. split; [exact Hv | now apply IH with q].
Qed.

Lemma climbs_intersects (seg : list event) (p : Q) :
  Forall is_intersects seg -> climbs p seg p.
Proof.
  induction 1 as [|e seg He _ IH]; simpl; [reflexivity|].
  destruct e; simpl in He; now try contradiction.
Qed.

Lemma update_at_intersects (seg : list event) (lv : Z) :
  Forall is_intersects seg -> Forall (update_at lv) seg.
Proof.
  apply Forall_impl. intros [] H; simpl in *; now try contradiction.
Qed.

Lemma climbs_bounds (tr : list event) :
  forall p p', climbs p tr p' -> (p <= p')%Q /\ Forall (value_within p p') tr.
Proof.
  induction tr as [|e tr IH]; intros p p' H; simpl in H.
  - subst p'. split; [apply Qle_refl | constructor].
  - destruct e as [| | lv v | [tiles [str v]]].
    + destruct (IH _ _ H) as [Hle Hin]. split; [exact Hle|].
      constructor; [exact I | exact Hin].
    + destruct (IH _ _ H) as [Hle Hin]. split; [exact Hle|].
      constructor; [exact I | exact Hin].
    + destruct H as [Hpv H]. destruct (IH _ _ H) as [Hle Hin].
      split; [now apply Qle_trans with v|].
      constructor; [now split|].
      revert Hin. apply Forall_impl.
      intros [| | lv' v' | [tiles' [str' v']]]; simpl; try tauto;
        intros [Ha Hb]; (split; [now apply Qle_trans with v | exact Hb]).
    + destruct H as [Hv H]. subst v. destruct (IH _ _ H) as [Hle Hin].
      split; [exact Hle|].
      constructor; [split; [apply Qle_refl | exact Hle] | exact Hin].
Qed.

Lemma share_bound (w : Q) (n total : nat) :
  (0 <= w)%Q -> (n < total)%nat ->
  let x := (w / inject_Z (Z.of_nat total))%Q in
  (0 <= x)%Q /\
  (inject_Z (Z.of_nat total) * x == w)%Q /\
  (inject_Z (Z.of_nat n) * x + x <= w)%Q.
Proof.
  intros Hw Hn x.
  assert (Ht : (0 < inject_Z (Z.of_nat total))%Q)
    by (change 0%Q with (inject_Z 0); rewrite <- Zlt_Qlt; lia).
  assert (Hx : (0 <= x)%Q) by (apply Qle_shift_div_l; [exact Ht | lra]).
  assert (Hall : (inject_Z (Z.of_nat total) * x == w)%Q)
    by (unfold x; field; lra).
  repeat split; try assumption.
  assert (Hrest : (0 <= inject_Z (Z.of_nat total - Z.of_nat n - 1))%Q)
    by (change 0%Q with (inject_Z 0); rewrite <- Zle_Qle; lia).
  pose proof (Qmult_le_0_compat _ _ Hrest Hx) as H.
  unfold Z.sub in H. rewrite !inject_Z_plus, !inject_Z_opp in H.
  change (inject_Z 1) with 1%Q in H. lra.
Qed.

Lemma _seed_advances (fuel : nat) :
  forall b l str w a s,
  (0 <= w)%Q ->
  wp (_seed fuel b l str w a)
     (fun _ s' => advanced task l w s s') (fun _ s' => advanced task l w s s') s.
Proof.
  induction fuel as [|fuel IH]; intros b l str w a s Hw.
  { exists []. rewrite app_nil_r. repeat split; [lra | constructor]. }
  assert (Hquiet : forall w' s2, (0 <= w')%Q ->
                     classified a (entered b l str w a s) s2 ->
                     advanced task l w' s s2).
  { intros w' s2 Hw' [Hp [seg [Ht [Hseg _]]]]. cbn in Hp, Ht.
    exists (Call b l str w a :: seg). rewrite Hp. repeat split.
    - now rewrite Ht, <- app_assoc.
    - cbn. now apply climbs_intersects.
    - lra.
    - constructor; [exact I | now apply update_at_intersects]. }
  apply wp_visit with (Post := advanced task l w s).
  - intros _ e s2 _. now apply Hquiet.
  - intros _ s2. now apply Hquiet.
  - intros Hlt subs s2 Hcl _ Hne.
    set (x := (w / inject_Z (Z.of_nat (List.length subs)))%Q).
    exists (fun n s3 =>
              (n <= List.length subs)%nat /\
              advanced task l (inject_Z (Z.of_nat n) * x) s s3).
    split; [|split].
    + split; [lia|]. apply Hquiet; [|exact Hcl].
      change (inject_Z (Z.of_nat 0)) with 0%Q. rewrite Qmult_0_l. apply Qle_refl.
    + intros n sub_bbox c symbol s0 Hn [_ [seg [Ht [Hc [Hb Hu]]]]].
      assert (Hlen : (n < List.length subs)%nat)
        by (apply nth_error_Some; congruence).
      destruct (share_bound w n (List.length subs) Hw Hlen) as [Hx [Hall Hshare]].
      fold x in Hx, Hall, Hshare.
      assert (Hstep : forall s', advanced task (l + 1) x s0 s' ->
                advanced task l (inject_Z (Z.of_nat (S n)) * x) s s').
      { intros s' [seg' [Ht' [Hc' [Hb' Hu']]]].
        exists (seg ++ seg'). repeat split.
        - now rewrite Ht', Ht, app_assoc.
        - now apply climbs_app with (progress s0).
        - rewrite Nat2Z.inj_succ, <- Z.add_1_r, inject_Z_plus.
          change (inject_Z 1) with 1%Q. lra.
        - apply Forall_app. split; [exact Hu|].
          now replace (Z.max l max_level) with (Z.max (l + 1) max_level) by lia. }
      eapply wp_mono; [apply IH, Hx | |].
      * intros u s' H. split; [lia | now apply Hstep].
      * intros e s' H. apply Hstep in H.
        destruct H as [seg' [Ht' [Hc' [Hb' Hu']]]].
        exists seg'. repeat split; try assumption.
        rewrite Nat2Z.inj_succ, <- Z.add_1_r, inject_Z_plus in Hb'.
        change (inject_Z 1) with 1%Q in Hb'. lra.
    + intros s3 [_ [seg [Ht [Hc [Hb Hu]]]]].
      assert (Hlen : (0 < List.length subs)%nat)
        by (destruct subs; [now elim Hne | simpl; lia]).
      destruct (share_bound w 0 (List.length subs) Hw Hlen) as [_ [Hall _]].
      fold x in Hall.
      exists (seg ++ [Put (subtiles_of b l, (str, progress s3))]).
      cbn. repeat split.
      * now rewrite Ht, app_assoc.
      * apply climbs_app with (progress s3); [exact Hc | now cbn].
      * lra.
      * apply Forall_app. split; [exact Hu | repeat constructor].
  - intros Hge. cbn.
    exists [Call b l str w a; Update l (progress s + w)%Q;
            Put (subtiles_of b l, (str, (progress s + w)%Q))].
    unfold submitted_own. cbn. repeat split.
    + now rewrite <- !app_assoc.
    + lra.
    + apply Qle_refl.
    + repeat constructor. cbn. lia.
Qed.

(** *** Inherited [CONTAINS] *)

Lemma extends_by_refl (P : event -> Prop) (s : state) : extends_by P s s.
Proof. exists []. now rewrite app_nil_r. Qed.

Lemma extends_by_trans (P : event -> Prop) (s1 s2 s3 : state) :
  extends_by P s1 s2 -> extends_by P s2 s3 -> extends_by P s1 s3.
Proof.
  intros [seg [Ht Hf]] [seg' [Ht' Hf']]. exists (seg ++ seg'). split.
  - now rewrite Ht', Ht, app_assoc.
  - now apply Forall_app.
Qed.

Lemma extends_by_impl (P P' : event -> Prop) (s s' : state) :
  (forall e, P e -> P' e) -> extends_by P s s' -> extends_by P' s s'.
Proof.
  intros H [seg [Ht Hf]]. exists seg. split; [exact Ht|].
  revert Hf. now apply Forall_impl.
Qed.

Lemma extends_by_event (P : event -> Prop) (s : state) (e : event) p :
  P e -> extends_by P s {| progress := p; trace := trace s ++ [e] |}.
Proof. intros H. exists [e]. split; [reflexivity | now constructor]. Qed.

Lemma survivor_nth (a : bool) (subs : list (BBox * Z)) n sub_bbox c :
  Forall (survivor task a) subs -> nth_error subs n = Some (sub_bbox, c) ->
  survivor task a (sub_bbox, c).
Proof.
  intros Hsurv Hn. rewrite Forall_forall in Hsurv.
  now apply Hsurv, nth_error_In with n.
Qed.

Lemma _seed_inherits (fuel : nat) :
  forall b l str w s,
  wp (_seed fuel b l str w true)
     (fun _ s' => extends_by inherited s s')
     (fun _ s' => extends_by inherited s s') s.
Proof.
  induction fuel as [|fuel IH]; intros b l str w s; [apply extends_by_refl|].
  assert (Hquiet : forall s2, classified true (entered b l str w true s) s2 ->
                              extends_by inherited s s2).
  { intros s2 [_ [seg [Ht [_ Hnil]]]]. rewrite (Hnil eq_refl), app_nil_r in Ht.
    exists [Call b l str w true]. split; [exact Ht | now repeat constructor]. }
  apply wp_visit with (Post := extends_by inherited s).
  - discriminate.
  - intros _ s2. apply Hquiet.
  - intros _ subs s2 Hcl Hsurv _.
    exists (fun _ s3 => extends_by inherited s s3).
    split; [now apply Hquiet | split].
    + intros n sub_bbox c symbol s0 Hn Hs0.
      destruct (survivor_nth _ _ _ _ _ Hsurv Hn) as [_ Hc]. cbn in Hc. subst c.
      change (CONTAINS =? CONTAINS) with true. cbv iota.
      eapply wp_mono; [apply IH | |];
        intros x s' H; now apply extends_by_trans with s0.
    + intros s3 Hs3. apply extends_by_trans with s3; [exact Hs3|].
      now apply extends_by_event.
  - intros _. unfold submitted_own. cbn.
    exists [Call b l str w true; Update l (progress s + w)%Q;
            Put (subtiles_of b l, (str, (progress s + w)%Q))].
    split; [now rewrite <- !app_assoc | now repeat constructor].
Qed.

Lemma _sub_seeds_all_subtiles (subtiles : list (option Tile)) :
  forall acc s,
  Seeder._sub_seeds_from task acc subtiles true s =
  Return (acc ++ all_contains subtiles) s.
Proof.
  induction subtiles as [|[t|] subtiles IH]; intros acc s; simpl.
  - now rewrite app_nil_r.
  - unfold bind, ret. change (truthy CONTAINS) with true. cbv iota.
    rewrite IH. now rewrite <- app_assoc.
  - apply IH.
Qed.

(** One level of the argument: if the visits made with [fuel] carry the
    flag of their classification, so does everything a visit with one more
    unit of fuel does after its own [Call]. *)
Lemma _seed_flags_step (fuel : nat) :
  (forall b l str w a s,
     flag_follows task (Call b l str w a) ->
     wp (_seed fuel b l str w a)
        (fun _ s' => extends_by (flag_follows task) s s')
        (fun _ s' => extends_by (flag_follows task) s s') s) ->
  forall b l str w a s,
  wp (_seed (S fuel) b l str w a)
     (fun _ s' => extends_by (flag_follows task) (entered b l str w a s) s')
     (fun _ s' => extends_by (flag_follows task) (entered b l str w a s) s') s.
Proof.
  intros IH b l str w a s.
  assert (Hquiet : forall s2, classified a (entered b l str w a s) s2 ->
             extends_by (flag_follows task) (entered b l str w a s) s2).
  { intros s2 [_ [seg [Ht [Hseg _]]]]. exists seg. split; [exact Ht|].
    revert Hseg. apply Forall_impl. intros []; simpl; tauto. }
  apply wp_visit with
    (Post := extends_by (flag_follows task) (entered b l str w a s)).
  - intros _ e s2 _. apply Hquiet.
  - intros _ s2. apply Hquiet.
  - intros _ subs s2 Hcl Hsurv _.
    exists (fun _ s3 => extends_by (flag_follows task) (entered b l str w a s) s3).
    split; [now apply Hquiet | split].
    + intros n sub_bbox c symbol s0 Hn Hs0.
      assert (Hflag : flag_follows task
                        (Call sub_bbox (l + 1) (str ++ symbol)%string
                           (w / inject_Z (Z.of_nat (List.length subs)))
                           (if c =? CONTAINS then true else false))).
      { destruct (survivor_nth _ _ _ _ _ Hsurv Hn) as [_ Hc]. cbn in Hc |- *.
        intros Hcont. destruct a.
        - now subst c.
        - rewrite Hcont in Hc. injection Hc as <-. reflexivity. }
      eapply wp_mono; [apply IH, Hflag | |];
        intros x s' H; now apply extends_by_trans with s0.
    + intros s3 Hs3. apply extends_by_trans with s3; [exact Hs3|].
      now apply extends_by_event.
  - intros _. unfold submitted_own. cbn.
    exists [Update l (progress s + w)%Q;
            Put (subtiles_of b l, (str, (progress s + w)%Q))].
    split; [unfold entered; cbn; now rewrite <- !app_assoc | now repeat constructor].
Qed.

Lemma _seed_flags_from (fuel : nat) :
  forall b l str w a s,
  flag_follows task (Call b l str w a) ->
  wp (_seed fuel b l str w a)
     (fun _ s' => extends_by (flag_follows task) s s')
     (fun _ s' => extends_by (flag_follows task) s s') s.
Proof.
  induction fuel as [|fuel IH]; intros b l str w a s Hflag;
    [apply extends_by_refl|].
  eapply wp_mono; [apply (_seed_flags_step fuel IH) | |];
    intros x s' H;
    (eapply extends_by_trans; [|exact H]); now apply extends_by_event.
Qed.

(** A visit's own [Call] apart, every visit it makes of a bbox the predicate
    classifies [CONTAINS] carries the flag. *)
Lemma _seed_flags (fuel : nat) :
  forall b l str w a s,
  wp (_seed (S fuel) b l str w a)
     (fun _ s' => extends_by (flag_follows task) (entered b l str w a s) s')
     (fun _ s' => extends_by (flag_follows task) (entered b l str w a s) s') s.
Proof.
  apply _seed_flags_step, _seed_flags_from.
Qed.

(** *** Post-order *)

Lemma nested_app (tr1 tr2 : list event) :
  nested tr1 -> nested tr2 -> nested (tr1 ++ tr2).
Proof.
  induction 1 as [| bbox tr _ IH | lv v tr _ IH
                  | b l str w a body p tr Hbody _ _ IH]; intros H2; simpl.
  - exact H2.
  - constructor. now apply IH.
  - constructor. now apply IH.
  - rewrite <- app_assoc, <- app_comm_cons.
    constructor; [exact Hbody | now apply IH].
Qed.

Lemma nested_intersects_all (seg : list event) :
  Forall is_intersects seg -> nested seg.
Proof.
  induction 1 as [|e seg He _ IH]; [constructor|].
  destruct e; simpl in He; try contradiction. now constructor.
Qed.

Lemma nested_complete_visit b l str w a body p :
  nested body ->
  nested (Call b l str w a :: body ++ [Put (subtiles_of b l, (str, p))]).
Proof. intros H. constructor; [exact H | constructor]. Qed.

Lemma owed_app (tr1 tr2 : list event) : owed (tr1 ++ tr2) = owed tr1 ++ owed tr2.
Proof. apply flat_map_app. Qed.

Lemma submitted_app (tr1 tr2 : list event) :
  submitted (tr1 ++ tr2) = submitted tr1 ++ submitted tr2.
Proof. apply flat_map_app. Qed.

(** In a nested trace every visit has its one job. *)
Lemma nested_balanced (tr : list event) :
  nested tr -> Permutation (owed tr) (submitted tr).
Proof.
  induction 1 as [| bbox tr _ IH | lv v tr _ IH
                  | b l str w a body p tr _ IHbody _ IHtr].
  - constructor.
  - exact IH.
  - exact IH.
  - change (Permutation
              ((subtiles_of b l, str) ::
               owed (body ++ Put (subtiles_of b l, (str, p)) :: tr))
              (submitted (body ++ Put (subtiles_of b l, (str, p)) :: tr))).
    rewrite owed_app, submitted_app.
    change (submitted (Put (subtiles_of b l, (str, p)) :: tr))
      with ((subtiles_of b l, str) :: submitted tr).
    change (owed (Put (subtiles_of b l, (str, p)) :: tr)) with (owed tr).
    apply Permutation_cons_app. now apply Permutation_app.
Qed.

Lemma _seed_post_order (fuel : nat) :
  forall b l str w a s,
  wp (_seed fuel b l str w a)
     (fun _ s' => visit_of b l str w a s s') (fun _ _ => True) s.
Proof.
  induction fuel as [|fuel IH]; intros b l str w a s; [exact I|].
  apply wp_visit with (Post := visit_of b l str w a s); try (intros; exact I).
  - intros _ subs s2 [_ [seg [Ht [Hseg _]]]] _ _.
    exists (fun _ s3 => exists body,
                trace s3 = trace s ++ Call b l str w a :: body /\ nested body).
    split; [|split].
    + exists seg. split; [|now apply nested_intersects_all].
      rewrite Ht. cbn. now rewrite <- app_assoc.
    + intros n sub_bbox c symbol s0 _ [body [Hs0 Hbody]].
      eapply wp_mono; [apply IH | | auto].
      intros u s' [body' [Hs' Hbody']].
      eexists. split.
      * rewrite Hs', Hs0, <- app_assoc, <- app_comm_cons. reflexivity.
      * apply nested_app; [exact Hbody|].
        now apply nested_complete_visit.
    + intros s3 [body [Hs3 Hbody]]. exists body. split; [|exact Hbody].
      unfold submitted_own. cbn.
      now rewrite Hs3, <- app_assoc, <- app_comm_cons.
  - intros _. exists [Update l (progress s + w)%Q]. split.
    + unfold submitted_own. cbn. now rewrite <- !app_assoc.
    + repeat constructor.
Qed.

(** The levels visited from [l] lie between [l] and [max_level]. *)
Lemma _seed_levels (fuel : nat) :
  forall b l str w a s,
  wp (_seed fuel b l str w a)
     (fun _ s' => extends_by (visited_between l (Z.max l max_level)) s s')
     (fun _ s' => extends_by (visited_between l (Z.max l max_level)) s s') s.
Proof.
  induction fuel as [|fuel IH]; intros b l str w a s; [apply extends_by_refl|].
  set (P := visited_between l (Z.max l max_level)).
  assert (Hquiet : forall s2, classified a (entered b l str w a s) s2 ->
                              extends_by P s s2).
  { intros s2 [_ [seg [Ht [Hseg _]]]]. cbn in Ht.
    exists (Call b l str w a :: seg). split; [now rewrite Ht, <- app_assoc|].
    constructor; [cbn; lia|].
    revert Hseg. apply Forall_impl. intros []; simpl; tauto. }
  apply wp_visit with (Post := extends_by P s).
  - intros _ e s2 _. apply Hquiet.
  - intros _ s2. apply Hquiet.
  - intros Hlt subs s2 Hcl _ _.
    exists (fun _ s3 => extends_by P s s3).
    split; [now apply Hquiet | split].
    + intros n sub_bbox c symbol s0 _ Hs0.
      eapply wp_mono; [apply IH | |];
        intros x s' H; (apply extends_by_trans with s0; [exact Hs0|]);
        revert H; apply extends_by_impl; intros []; unfold P; cbn; lia.
    + intros s3 Hs3. apply extends_by_trans with s3; [exact Hs3|].
      now apply extends_by_event.
  - intros _. unfold submitted_own. cbn.
    exists [Call b l str w a; Update l (progress s + w)%Q;
            Put (subtiles_of b l, (str, (progress s + w)%Q))].
    split; [now rewrite <- !app_assoc|].
    repeat constructor; cbn; lia.
Qed.

(** *** No survivor *)

Lemma _sub_seeds_from_all_none (subtiles : list (option Tile)) (a : bool) :
  all_none task a subtiles ->
  forall acc s,
  exists s', Seeder._sub_seeds_from task acc subtiles a s = Return acc s' /\
             classified a s s'.
Proof.
  induction 1 as [|[t|] subtiles Ht _ IH]; intros acc s; simpl.
  - exists s. split; [reflexivity | apply classified_refl].
  - destruct (Ht t eq_refl) as [-> Hnone].
    unfold bind, Seeder.task_intersects, emit. rewrite Hnone. cbn.
    match goal with |- context [Seeder._sub_seeds_from _ _ _ _ ?s1] =>
      destruct (IH acc s1) as [s' [Hs' Hcl]] end.
    exists s'. split; [exact Hs'|].
    eapply classified_trans; [|exact Hcl].
    split; [reflexivity|]. exists [Intersects (meta_bbox t)].
    repeat split; [repeat constructor | discriminate].
  - apply IH.
Qed.

(** *** The properties of the descent *)

(** C1 (as amended).  Every visit that completes puts exactly one job on the
    queue: the jobs submitted during a completed call of [_seed] are, up to
    order, the jobs owed by the visits made during it, one per [Call], each
    with the visit's path and with the visit's whole tile list, as
    [get_affected_level_tiles] returned it for the visit's bbox and level,
    placeholders included.  The visits are at levels between the level of
    the call and [max_level]. *)
Theorem every_visit_submits_its_tile_list :
  forall fuel cur_bbox level progess_str w all_subtiles s s',
  _seed fuel cur_bbox level progess_str w all_subtiles s = Return tt s' ->
  exists seg,
    trace s' = trace s ++ seg /\
    Permutation (owed seg) (submitted seg) /\
    Forall (visited_between level (Z.max level max_level)) seg.
Proof.
  intros fuel b l str w a s s' Hrun.
  pose proof (_seed_post_order fuel b l str w a s) as Hpo.
  pose proof (_seed_levels fuel b l str w a s) as Hlv.
  unfold wp in Hpo, Hlv. rewrite Hrun in Hpo, Hlv.
  destruct Hpo as [body [Ht Hbody]]. destruct Hlv as [seg [Ht' Hseg]].
  exists seg. split; [exact Ht'|].
  rewrite Ht' in Ht. apply app_inv_head in Ht. subst seg.
  split; [|exact Hseg].
  now apply nested_balanced, nested_complete_visit.
Qed.

(** C2.  Hereditary CONTAINS.  (1) Whatever a visit does after its own
    [Call], every visit it makes of a bbox that the region predicate
    classifies CONTAINS is made with [all_subtiles] set.  (2) A visit made
    with [all_subtiles] set never invokes the predicate, however it ends, and
    every visit below it is again made with [all_subtiles] set.  (3) Under
    [all_subtiles] every present subtile survives, as CONTAINS, and the
    state is untouched. *)
Theorem hereditary_contains :
  (forall fuel cur_bbox level progess_str w all_subtiles s,
     extends_by (flag_follows task)
       (entered cur_bbox level progess_str w all_subtiles s)
       (final (_seed (S fuel) cur_bbox level progess_str w all_subtiles s))) /\
  (forall fuel cur_bbox level progess_str w s,
     extends_by inherited s
       (final (_seed fuel cur_bbox level progess_str w true s))) /\
  (forall subtiles s,
     _sub_seeds subtiles true s = Return (all_contains subtiles) s).
Proof.
  split; [|split].
  - intros fuel b l str w a s.
    pose proof (_seed_flags fuel b l str w a s) as H. unfold wp in H.
    now destruct (_seed (S fuel) b l str w a s).
  - intros fuel b l str w s.
    pose proof (_seed_inherits fuel b l str w s) as H. unfold wp in H.
    now destruct (_seed fuel b l str w true s).
  - intros subtiles s. apply (_sub_seeds_all_subtiles subtiles [] s).
Qed.

(** C3.  A seed pass that runs to completion ends with [self.progress]
    equal to 1: a completed visit adds exactly its weight, which is split
    evenly among the surviving children and added at terminal visits only.
    (A pass completes only if every visit below [max_level] had a
    survivor.) *)
Theorem progress_sums_to_one :
  forall s',
  Seeder.seed task Seeder.__init__ = Return tt s' ->
  (progress s' == 1)%Q.
Proof.
  intros s' Hrun.
  pose proof (_seed_adds_weight
                (S (Z.to_nat (max_level - start_level)))
                (SeedTask.bbox task) start_level "" 1%Q false
                Seeder.__init__) as H.
  unfold wp in H. fold (Seeder.seed task) in H. rewrite Hrun in H.
  rewrite H. reflexivity.
Qed.

(** C5 (as amended).  In a seed pass, from the state [__init__] leaves and
    however the pass ends: [self.progress] is updated only in visits at the
    level [max start_level max_level], that is at [max_level] whenever
    [start_level <= max_level]; the value starts at 0, no update decreases
    it, and every job carries the value current when it was put; so every
    value it takes lies between 0 and the value it ends with.  No bound
    above is stated: the updates are float additions, and their sum can
    exceed 1. *)
Theorem progress_never_decreases :
  let s' := final (Seeder.seed task Seeder.__init__) in
  Forall (update_at (Z.max start_level max_level)) (trace s') /\
  (start_level <= max_level -> Forall (update_at max_level) (trace s')) /\
  climbs 0 (trace s') (progress s') /\
  Forall (value_within 0 (progress s')) (trace s') /\
  (0 <= progress s')%Q.
Proof.
  intros s'.
  assert (Hadv : advanced task start_level 1 Seeder.__init__ s').
  { pose proof (_seed_advances
                  (S (Z.to_nat (max_level - start_level)))
                  (SeedTask.bbox task) start_level "" 1%Q false
                  Seeder.__init__) as H.
    unfold wp in H. fold (Seeder.seed task) in H. subst s'.
    destruct (Seeder.seed task Seeder.__init__); apply H; discriminate. }
  clearbody s'.
  destruct Hadv as [seg [Ht [Hc [_ Hu]]]].
  change (trace s' = seg) in Ht.
  change (climbs 0 seg (progress s')) in Hc.
  rewrite Ht. destruct (climbs_bounds _ _ _ Hc) as [H0 Hin].
  split; [exact Hu | split; [|split; [exact Hc | split; [exact Hin | exact H0]]]].
  intros Hle. now replace max_level with (Z.max start_level max_level) by lia.
Qed.

(** C9.  A visit below [max_level] none of whose present subtiles survives
    raises [ZeroDivisionError]: [progress / len(sub_seeds)] is evaluated
    before [sub_seeds] is tested.  Nothing was put on the queue for the
    visit and [self.progress] is unchanged: after the visit's [Call] only
    the predicate was invoked. *)
Theorem no_survivor_raises :
  forall fuel cur_bbox level progess_str w all_subtiles s,
  level < max_level ->
  all_none task all_subtiles (subtiles_of cur_bbox level) ->
  exists s',
    _seed (S fuel) cur_bbox level progess_str w all_subtiles s =
      Raise ZeroDivisionError s' /\
    progress s' = progress s /\
    exists seg,
      trace s' =
        trace s ++ Call cur_bbox level progess_str w all_subtiles :: seg /\
      Forall is_intersects seg.
Proof.
  intros fuel b l str w a s Hlt Hnone.
  destruct (_sub_seeds_from_all_none _ _ Hnone []
              (entered b l str w a s)) as [s' [Hsub [Hp [seg [Ht [Hseg _]]]]]].
  exists s'. split; [|split; [exact Hp|]].
  - cbn [Seeder._seed]. unfold bind at 1. unfold emit.
    fold (entered b l str w a s).
    unfold subtiles_of in Hsub.
    destruct (get_affected_level_tiles b l) as [[bbox_ tiles_] subtiles].
    cbn [snd] in Hsub.
    apply Z.ltb_lt in Hlt. rewrite Hlt.
    unfold bind, Seeder._sub_seeds. rewrite Hsub. reflexivity.
  - exists seg. split; [|exact Hseg].
    rewrite Ht. cbn. now rewrite <- app_assoc.
Qed.

End descent.

(** ** The task *)

Section task_properties.
Context {grid_module : GridModule} {srs_module : SrsModule} {shapely : Shapely}.

(** C6.  For a task whose region is a bbox (no geometry), [intersects]
    returns CONTAINS exactly when the region bbox contains the query bbox;
    otherwise INTERSECTS exactly when the two intersect; otherwise NONE. *)
Theorem bbox_classification :
  forall (self : SeedTask.t) (query : BBox),
  SeedTask.geom self = None ->
  (SeedTask.intersects self query = Ok CONTAINS <->
   bbox_contains (SeedTask.bbox self) query = true) /\
  (SeedTask.intersects self query = Ok INTERSECTS <->
   bbox_contains (SeedTask.bbox self) query = false /\
   bbox_intersects (SeedTask.bbox self) query = true) /\
  (SeedTask.intersects self query = Ok NONE <->
   bbox_contains (SeedTask.bbox self) query = false /\
   bbox_intersects (SeedTask.bbox self) query = false).
Proof.
  intros self query Hgeom.
  unfold SeedTask.intersects, SeedTask._bbox_intersects. rewrite Hgeom.
  destruct (bbox_contains (SeedTask.bbox self) query);
    destruct (bbox_intersects (SeedTask.bbox self) query);
    repeat split; intros; try discriminate; try tauto;
    match goal with H : _ /\ _ |- _ => destruct H; discriminate end.
Qed.

End task_properties.

(** ** The status glyph *)

(** C7.  [status_symbol] gives the documented tables for 4 and for 10
    siblings, and for every sibling position [i] of [n] with [i + 1 > n] it
    returns the overflow glyph ["X"]; a position, or a number of siblings,
    is not negative. *)
Theorem status_symbol_tables :
  map (fun i => status_symbol i 4) [0; 1; 2; 3; 4] =
    [Ok "."; Ok "o"; Ok "O"; Ok "0"; Ok "X"]%string /\
  map (fun i => status_symbol i 10) [0; 1; 2; 3; 4; 5; 6; 7; 8; 9; 10] =
    [Ok "."; Ok "."; Ok "o"; Ok "o"; Ok "o"; Ok "O"; Ok "O";
     Ok "0"; Ok "0"; Ok "0"; Ok "X"]%string /\
  (forall i n, 0 <= i \/ 0 <= n -> i + 1 > n ->
               status_symbol i n = Ok "X"%string).
Proof.
  split; [reflexivity | split; [reflexivity|]].
  intros i n Hi Hn. unfold status_symbol.
  replace (0 <? i + 1) with true by (symmetry; apply Z.ltb_lt; lia).
  replace (i + 1 >? n) with true
    by (symmetry; rewrite Z.gtb_ltb; apply Z.ltb_lt; lia).
  reflexivity.
Qed.

(** ** More on the status glyph *)

Lemma Qceiling_unique (x : Q) (k : Z) :
  (inject_Z (k - 1) < x)%Q -> (x <= inject_Z k)%Q -> Qceiling x = k.
Proof.
  intros Hlo Hhi.
  pose proof (Qle_ceiling x) as H1. pose proof (Qceiling_lt x) as H2.
  assert (inject_Z (Qceiling x - 1) < inject_Z k)%Q as A by lra.
  assert (inject_Z (k - 1) < inject_Z (Qceiling x))%Q as B by lra.
  rewrite <- Zlt_Qlt in A, B. lia.
Qed.

(** The float expression of [status_symbol], in integers. *)
Lemma ceiling_of_quotient (a n : Z) :
  0 < n -> Qceiling (inject_Z a / (inject_Z n / 4)) = (4 * a + n - 1) / n.
Proof.
  intros Hn. set (k := (4 * a + n - 1) / n).
  assert (Hk1 : n * k <= 4 * a + n - 1) by (apply Z.mul_div_le; lia).
  assert (Hk2 : 4 * a + n - 1 < n * k + n)
    by (unfold k; pose proof (Z.mod_pos_bound (4 * a + n - 1) n Hn);
        pose proof (Z.div_mod (4 * a + n - 1) n); lia).
  assert (Hd : (0 < inject_Z n / 4)%Q).
  { apply Qlt_shift_div_l; [lra|]. change (0 * 4)%Q with (inject_Z 0).
    rewrite <- Zlt_Qlt. exact Hn. }
  assert (A : (inject_Z (n * k + -n) < inject_Z (4 * a))%Q)
    by (rewrite <- Zlt_Qlt; lia).
  assert (B : (inject_Z (4 * a) <= inject_Z (n * k))%Q)
    by (rewrite <- Zle_Qle; lia).
  rewrite inject_Z_plus, inject_Z_opp in A.
  rewrite (inject_Z_mult 4 a) in A, B.
  change (inject_Z 4) with 4%Q in *.
  apply Qceiling_unique.
  - unfold Z.sub. rewrite inject_Z_plus. change (inject_Z (-1)) with (-1)%Q.
    apply Qlt_shift_div_l; [exact Hd|].
    setoid_replace ((inject_Z k + -1) * (inject_Z n / 4))%Q
      with ((inject_Z (n * k) - inject_Z n) / 4)%Q
      by (rewrite inject_Z_mult; field).
    apply Qlt_shift_div_r; lra.
  - apply Qle_shift_div_r; [exact Hd|].
    setoid_replace (inject_Z k * (inject_Z n / 4))%Q
      with (inject_Z (n * k) / 4)%Q
      by (rewrite inject_Z_mult; field).
    apply Qle_shift_div_l; lra.
Qed.

Lemma bucket_range (i n : Z) : 0 <= i < n -> 1 <= bucket i n <= 4.
Proof.
  intros H. unfold bucket. split.
  - apply Z.div_le_lower_bound; lia.
  - assert ((4 * (i + 1) + n - 1) / n < 5); [|lia].
    apply Z.div_lt_upper_bound; lia.
Qed.

Lemma bucket_monotone (i j n : Z) :
  0 < n -> i <= j -> bucket i n <= bucket j n.
Proof.
  intros Hn Hij. unfold bucket. apply Z.div_le_mono; lia.
Qed.

Lemma py_index_bucket_glyph (k : Z) :
  1 <= k <= 4 ->
  py_index [" "; "."; "o"; "O"; "0"]%string k =
  Ok (nth (Z.to_nat (k - 1)) bucket_glyphs ""%string).
Proof.
  intros Hk.
  assert (k = 1 \/ k = 2 \/ k = 3 \/ k = 4) as [->|[->|[->| ->]]] by lia;
    reflexivity.
Qed.

Lemma status_symbol_below (i n : Z) :
  0 <= i < n -> status_symbol i n = py_index [" "; "."; "o"; "O"; "0"]%string (bucket i n).
Proof.
  intros H. unfold status_symbol.
  replace (i + 1 >? n) with false
    by (symmetry; rewrite Z.gtb_ltb; apply Z.ltb_ge; lia).
  rewrite andb_false_r.
  replace (n =? 0) with false by (symmetry; apply Z.eqb_neq; lia).
  rewrite ceiling_of_quotient by lia. reflexivity.
Qed.

Lemma status_symbol_sibling_bucket (i n : Z) :
  0 <= i < n ->
  1 <= bucket i n <= 4 /\
  status_symbol i n = Ok (nth (Z.to_nat (bucket i n - 1)) bucket_glyphs ""%string).
Proof.
  intros H. pose proof (bucket_range i n H) as Hb.
  split; [exact Hb|].
  rewrite status_symbol_below by exact H.
  now apply py_index_bucket_glyph.
Qed.

(** X1.  For a sibling position [i] of [n] ([0 <= i < n], with [n] up to
    [2^50]) the glyph is the one of the bucket [ceil (4 * (i + 1) / n)],
    computed in integers as [(4 * (i + 1) + n - 1) / n]; the bucket is one
    of 1 to 4, so the glyph is one of [. o O 0]. *)
Theorem status_symbol_bucket :
  forall i n,
  0 <= i < n -> float_safe n ->
  1 <= bucket i n <= 4 /\
  status_symbol i n = Ok (nth (Z.to_nat (bucket i n - 1)) bucket_glyphs ""%string).
Proof. intros i n H _. now apply status_symbol_sibling_bucket. Qed.

Lemma bucket_glyph_in (k : Z) :
  1 <= k <= 4 -> In (nth (Z.to_nat (k - 1)) bucket_glyphs ""%string) bucket_glyphs.
Proof.
  intros Hk. apply nth_In. cbn. lia.
Qed.

(** X2.  For every position [i >= 0] and every [n] up to [2^50] in size,
    zero and the negative ones included, [status_symbol] raises nothing and
    returns one of [. o O 0 X], never the blank; it returns [X] exactly when
    [i + 1 > n]. *)
Theorem status_symbol_of_position :
  forall i n,
  0 <= i -> float_safe n ->
  exists c,
    status_symbol i n = Ok c /\
    In c (bucket_glyphs ++ ["X"]%string) /\
    (c = "X"%string <-> i + 1 > n).
Proof.
  intros i n Hi _. destruct (Z_lt_le_dec i n) as [Hlt|Hge].
  - destruct (status_symbol_sibling_bucket i n (conj Hi Hlt)) as [Hb Hs].
    eexists. split; [exact Hs|]. split.
    + apply in_or_app. left. now apply bucket_glyph_in.
    + split; [|lia]. intros HX. exfalso.
      pose proof (bucket_glyph_in _ Hb) as Hin. rewrite HX in Hin.
      cbn in Hin. intuition discriminate.
  - exists "X"%string. split; [|split].
    + unfold status_symbol.
      replace (0 <? i + 1) with true by (symmetry; apply Z.ltb_lt; lia).
      replace (i + 1 >? n) with true
        by (symmetry; rewrite Z.gtb_ltb; apply Z.ltb_lt; lia).
      reflexivity.
    + apply in_or_app. right. now left.
    + split; [lia | reflexivity].
Qed.

(** X3.  Along the siblings (up to [2^50] of them) the glyph never goes
    back in the order [. o O 0]; the last sibling always gets [0], and the
    first gets [.] as soon as there are four siblings. *)
Theorem status_symbol_order :
  (forall i j n,
     0 <= i -> i <= j -> j < n -> float_safe n ->
     exists a b,
       status_symbol i n = Ok (nth a bucket_glyphs ""%string) /\
       status_symbol j n = Ok (nth b bucket_glyphs ""%string) /\
       (a <= b < 4)%nat) /\
  (forall n, 1 <= n -> float_safe n ->
             status_symbol (n - 1) n = Ok "0"%string) /\
  (forall n, 4 <= n -> float_safe n -> status_symbol 0 n = Ok "."%string).
Proof.
  split; [|split].
  - intros i j n Hi Hij Hj _.
    destruct (status_symbol_sibling_bucket i n) as [Hbi Hsi]; [lia|].
    destruct (status_symbol_sibling_bucket j n) as [Hbj Hsj]; [lia|].
    pose proof (bucket_monotone i j n) as Hm.
    exists (Z.to_nat (bucket i n - 1)), (Z.to_nat (bucket j n - 1)).
    split; [exact Hsi | split; [exact Hsj | lia]].
  - intros n Hn _. destruct (status_symbol_sibling_bucket (n - 1) n) as [_ Hs]; [lia|].
    rewrite Hs. replace (bucket (n - 1) n) with 4; [reflexivity|].
    unfold bucket. apply Z.div_unique with (r := n - 1); lia.
  - intros n Hn _. destruct (status_symbol_sibling_bucket 0 n) as [_ Hs]; [lia|].
    rewrite Hs. replace (bucket 0 n) with 1; [reflexivity|].
    unfold bucket. apply Z.div_unique with (r := 3); lia.
Qed.

Lemma py_index_error {A} (l : list A) (k : Z) (e : exn) :
  py_index l k = Error e -> e = IndexError.
Proof.
  unfold py_index.
  destruct ((if k <? 0 then k + Z.of_nat (List.length l) else k) <? 0);
    cbn [orb].
  - now intros [= <-].
  - destruct (Z.of_nat (List.length l) <=?
              (if k <? 0 then k + Z.of_nat (List.length l) else k)).
    + now intros [= <-].
    + destruct (nth_error l _); [discriminate | now intros [= <-]].
Qed.

(** X4.  For ints up to [2^50] in size, [status_symbol] raises
    [ZeroDivisionError] exactly when there are no siblings ([n = 0]) and the
    position is negative; every other exception it raises is an
    [IndexError]. *)
Theorem status_symbol_errors :
  forall i n,
  float_safe i -> float_safe n ->
  (status_symbol i n = Error ZeroDivisionError <-> n = 0 /\ i < 0) /\
  (forall e, status_symbol i n = Error e ->
             e = ZeroDivisionError \/ e = IndexError).
Proof.
  intros i n _ _. unfold status_symbol.
  destruct (Z.ltb_spec 0 (i + 1)) as [Hpos|Hneg];
    destruct (Z.gtb_spec (i + 1) n) as [Hgt|Hle]; cbn [andb];
    destruct (Z.eqb_spec n 0) as [Hz|Hnz];
    (split; [split|]);
    try discriminate; try lia;
    try (intros [Hn0 Hi0]; lia);
    try (intros H; apply py_index_error in H; discriminate);
    try (split; [assumption | lia]);
    try (intros e [= <-]; now left);
    try (intros e H; right; now apply py_index_error in H).
  all: intros _; try reflexivity; try lia.
Qed.

(** ** More on the descent *)

Lemma string_app_assoc (s1 s2 s3 : string) :
  ((s1 ++ s2) ++ s3 = s1 ++ (s2 ++ s3))%string.
Proof. induction s1 as [|c s1 IH]; simpl; [reflexivity | now rewrite IH]. Qed.

Lemma string_app_nil_r (s : string) : (s ++ "" = s)%string.
Proof. induction s as [|c s IH]; simpl; [reflexivity | now rewrite IH]. Qed.

Lemma glyphs_cons (n : nat) (s g : string) :
  In g bucket_glyphs -> glyphs n s -> glyphs (S n) (g ++ s).
Proof.
  intros Hg H. induction H as [|n s g' H IH Hg'].
  - rewrite string_app_nil_r. exact (glyphs_snoc 0 ""%string g glyphs_nil Hg).
  - rewrite <- string_app_assoc. now apply glyphs_snoc.
Qed.

Lemma glyphs_length (n : nat) (s : string) : glyphs n s -> String.length s = n.
Proof.
  induction 1 as [|n s g _ IH Hg]; [reflexivity|].
  assert (Hlen : forall s1 s2, String.length (s1 ++ s2) =
                               (String.length s1 + String.length s2)%nat)
    by (induction s1; simpl; intros; [reflexivity | now f_equal]).
  rewrite Hlen, IH.
  cbn in Hg. destruct Hg as [<-|[<-|[<-|[<-|[]]]]]; cbn; lia.
Qed.

Section more_descent.
Context {grid : MetaGrid} {grid_module : GridModule} {srs_module : SrsModule}
        {shapely : Shapely}.
Variable task : SeedTask.t.

Abbreviation max_level := (SeedTask.max_level task).
Abbreviation start_level := (SeedTask.start_level task).
Abbreviation _seed := (Seeder._seed task).
Abbreviation _sub_seeds := (Seeder._sub_seeds task).

(** The rule for one visit, for any specification of [_sub_seeds], and with
    the glyph of each child known to be the one [status_symbol] gives. *)
Lemma wp_visit_with (fuel : nat) (b : BBox) (l : Z) (str : string) (w : Q)
    (a : bool)
    (Subs : list (BBox * Z) -> state -> Prop)
    (SubsE : option exn -> state -> Prop)
    (Post : state -> Prop) (E : option exn -> state -> Prop) (s : state) :
  let s1 := entered b l str w a s in
  (l < max_level -> wp (_sub_seeds (subtiles_of b l) a) Subs SubsE s1) ->
  (l < max_level -> forall x s2, SubsE x s2 -> E x s2) ->
  (l < max_level -> forall s2, Subs [] s2 -> E (Some ZeroDivisionError) s2) ->
  (l < max_level -> forall subs s2,
     Subs subs s2 -> subs <> [] ->
     exists I : nat -> state -> Prop,
       I 0%nat s2 /\
       (forall n sub_bbox c symbol s,
          nth_error subs n = Some (sub_bbox, c) ->
          status_symbol (Z.of_nat n) (Z.of_nat (List.length subs)) = Ok symbol ->
          I n s ->
          wp (_seed fuel sub_bbox (l + 1) (str ++ symbol)%string
                    (w / inject_Z (Z.of_nat (List.length subs)))%Q
                    (if c =? CONTAINS then true else false))
             (fun _ s' => I (S n) s') E s) /\
       (forall s3, I (List.length subs) s3 -> Post (submitted_own b l str s3))) ->
  (max_level <= l ->
   Post (submitted_own b l str
           {| progress := (progress s + w)%Q;
              trace := trace s1 ++ [Update l (progress s + w)%Q] |})) ->
  wp (_seed (S fuel) b l str w a) (fun _ s' => Post s') E s.
Proof.
  intros s1 Hsub Herr Hzero Hnode Hleaf.
  apply wp_seed_S; [|exact Hleaf].
  intros Hlt. fold s1.
  eapply wp_mono; [apply (Hsub Hlt) | | now apply Herr].
  intros subs s2 HS. split.
  - intros ->. now apply Hzero.
  - intros Hne.
    destruct (Hnode Hlt subs s2 HS Hne) as [I [H0 [Hstep Hend]]].
    eapply wp_mono;
      [apply (wp_for_enumerate I E) with (k := 0%nat); [exact H0|] | | auto].
    + intros n [sub_bbox c] s' Hn HI. cbn [Nat.add] in HI |- *.
      destruct (status_symbol_sibling (0 + Z.of_nat n)
                  (Z.of_nat (List.length subs))) as [symbol Hsym].
      { assert (n < List.length subs)%nat
          by (apply nth_error_Some; congruence).
        lia. }
      apply wp_bind. rewrite Hsym. apply wp_ret.
      now apply Hstep.
    + intros u s3 HI. now apply Hend.
Qed.

(** *** Paths *)

Lemma path_from_deeper (l : Z) (str symbol : string) (e : event) :
  In symbol bucket_glyphs ->
  path_from (l + 1) (str ++ symbol) e -> path_from l str e.
Proof.
  intros Hsym. destruct e as [b' l' s' w' a' | | | [tiles [s' p']]]; cbn; try tauto.
  - intros [n [suffix [Hg [-> ->]]]].
    exists (S n), (symbol ++ suffix)%string.
    split; [now apply glyphs_cons|].
    split; [apply string_app_assoc | lia].
  - intros [n [suffix [Hg ->]]].
    exists (S n), (symbol ++ suffix)%string.
    split; [now apply glyphs_cons | apply string_app_assoc].
Qed.

Lemma path_from_here_call b l str w a : path_from l str (Call b l str w a).
Proof.
  exists 0%nat, ""%string. repeat split; [constructor | | lia].
  now rewrite string_app_nil_r.
Qed.

Lemma path_from_here_put tiles l str p : path_from l str (Put (tiles, (str, p))).
Proof.
  exists 0%nat, ""%string. split; [constructor | now rewrite string_app_nil_r].
Qed.

Lemma sibling_glyph (n : nat) (total : nat) (symbol : string) :
  (n < total)%nat ->
  status_symbol (Z.of_nat n) (Z.of_nat total) = Ok symbol ->
  In symbol bucket_glyphs.
Proof.
  intros Hn Hs.
  destruct (status_symbol_sibling_bucket (Z.of_nat n) (Z.of_nat total)) as [Hb Hs'];
    [lia|].
  rewrite Hs' in Hs. injection Hs as <-. now apply bucket_glyph_in.
Qed.

Lemma _seed_paths (fuel : nat) :
  forall b l str w a s,
  wp (_seed fuel b l str w a)
     (fun _ s' => extends_by (path_from l str) s s')
     (fun _ s' => extends_by (path_from l str) s s') s.
Proof.
  induction fuel as [|fuel IH]; intros b l str w a s; [apply extends_by_refl|].
  set (P := path_from l str).
  assert (Hquiet : forall s2, classified a (entered b l str w a s) s2 ->
                              extends_by P s s2).
  { intros s2 [_ [seg [Ht [Hseg _]]]]. cbn in Ht.
    exists (Call b l str w a :: seg). split; [now rewrite Ht, <- app_assoc|].
    constructor; [apply path_from_here_call|].
    revert Hseg. apply Forall_impl. intros []; simpl; tauto. }
  apply wp_visit_with with
    (Subs := fun subs s2 => classified a (entered b l str w a s) s2)
    (SubsE := fun x s2 => classified a (entered b l str w a s) s2)
    (Post := extends_by P s).
  - intros _. eapply wp_mono; [apply _sub_seeds_spec | |]; cbv beta; tauto.
  - intros _ x s2. apply Hquiet.
  - intros _ s2. apply Hquiet.
  - intros _ subs s2 Hcl _.
    exists (fun _ s3 => extends_by P s s3).
    split; [now apply Hquiet | split].
    + intros n sub_bbox c symbol s0 Hn Hsym Hs0.
      assert (Hin : In symbol bucket_glyphs).
      { apply sibling_glyph with (2 := Hsym).
        apply nth_error_Some. congruence. }
      eapply wp_mono; [apply IH | |];
        intros x s' H; (apply extends_by_trans with s0; [exact Hs0|]);
        revert H; apply extends_by_impl; intros e;
        now apply path_from_deeper.
    + intros s3 Hs3. apply extends_by_trans with s3; [exact Hs3|].
      apply extends_by_event. apply path_from_here_put.
  - intros _. unfold submitted_own. cbn.
    exists [Call b l str w a; Update l (progress s + w)%Q;
            Put (subtiles_of b l, (str, (progress s + w)%Q))].
    split; [now rewrite <- !app_assoc|].
    repeat constructor;
      [apply path_from_here_call | apply path_from_here_put].
Qed.

(** X5.  In a seed pass, however it ends, the path of every visit has one
    glyph per level below the start level, each one of [. o O 0]: a visit
    at level [l] has a path of [l - start_level] glyphs. *)
Theorem paths_have_one_glyph_per_level :
  forall cur_bbox level progess_str w all_subtiles,
  In (Call cur_bbox level progess_str w all_subtiles)
     (trace (final (Seeder.seed task Seeder.__init__))) ->
  start_level <= level /\
  glyphs (Z.to_nat (level - start_level)) progess_str /\
  Z.of_nat (String.length progess_str) = level - start_level.
Proof.
  intros b l str w a Hin.
  pose proof (_seed_paths
                (S (Z.to_nat (max_level - start_level)))
                (SeedTask.bbox task) start_level "" 1%Q false
                Seeder.__init__) as H.
  unfold wp in H. fold (Seeder.seed task) in H.
  assert (Hext : extends_by (path_from start_level "") Seeder.__init__
                   (final (Seeder.seed task Seeder.__init__)))
    by (destruct (Seeder.seed task Seeder.__init__); exact H).
  destruct Hext as [seg [Ht Hseg]]. change (trace Seeder.__init__ ++ seg) with seg in Ht.
  rewrite Ht in Hin. rewrite Forall_forall in Hseg.
  destruct (Hseg _ Hin) as [n [suffix [Hg [Hstr Hl]]]]. cbn in Hstr. subst.
  replace (start_level + Z.of_nat n - start_level) with (Z.of_nat n) by lia.
  rewrite Nat2Z.id, (glyphs_length _ _ Hg).
  split; [lia | split; [exact Hg | reflexivity]].
Qed.

(** *** What the predicate can answer *)

Lemma intersects_constants (b : BBox) (c : Z) :
  SeedTask.intersects task b = Ok c ->
  c = NONE \/ c = CONTAINS \/ c = INTERSECTS.
Proof.
  unfold SeedTask.intersects, SeedTask._geom_intersects,
    SeedTask._bbox_intersects, shapely_name.
  destruct (SeedTask.geom task) as [g|].
  - destruct shapely_present; cbn; [|discriminate].
    destruct (contains g _); [intros [= <-]; tauto|].
    destruct (intersects_geom g _); intros [= <-]; tauto.
  - destruct (bbox_contains _ b); [intros [= <-]; tauto|].
    destruct (bbox_intersects _ b); intros [= <-]; tauto.
Qed.

Lemma intersects_error (b : BBox) (e : exn) :
  SeedTask.intersects task b = Error e ->
  e = NameError /\ shapely_present = false /\ SeedTask.geom task <> None.
Proof.
  unfold SeedTask.intersects, SeedTask._geom_intersects,
    SeedTask._bbox_intersects, shapely_name.
  destruct (SeedTask.geom task) as [g|].
  - destruct shapely_present; cbn.
    + destruct (contains g _); [discriminate|].
      destruct (intersects_geom g _); discriminate.
    + intros [= <-]. repeat split. discriminate.
  - destruct (bbox_contains _ b); [discriminate|].
    destruct (bbox_intersects _ b); discriminate.
Qed.

Lemma intersects_defined (b : BBox) :
  SeedTask.geom task = None \/ shapely_present = true ->
  exists c, SeedTask.intersects task b = Ok c.
Proof.
  intros H. destruct (SeedTask.intersects task b) as [c|e] eqn:Hi;
    [now exists c|].
  apply intersects_error in Hi. destruct Hi as [_ [Hs Hg]].
  destruct H; congruence.
Qed.

(** *** Pruning *)

Lemma _seed_touches_step (fuel : nat) :
  (forall b l str w a s,
     touches_region task (Call b l str w a) ->
     wp (_seed fuel b l str w a)
        (fun _ s' => extends_by (touches_region task) s s')
        (fun _ s' => extends_by (touches_region task) s s') s) ->
  forall b l str w a s,
  wp (_seed (S fuel) b l str w a)
     (fun _ s' => extends_by (touches_region task) (entered b l str w a s) s')
     (fun _ s' => extends_by (touches_region task) (entered b l str w a s) s') s.
Proof.
  intros IH b l str w a s.
  assert (Hquiet : forall s2, classified a (entered b l str w a s) s2 ->
             extends_by (touches_region task) (entered b l str w a s) s2).
  { intros s2 [_ [seg [Ht [Hseg _]]]]. exists seg. split; [exact Ht|].
    revert Hseg. apply Forall_impl. intros []; simpl; tauto. }
  apply wp_visit with
    (Post := extends_by (touches_region task) (entered b l str w a s)).
  - intros _ e s2 _. apply Hquiet.
  - intros _ s2. apply Hquiet.
  - intros _ subs s2 Hcl Hsurv _.
    exists (fun _ s3 => extends_by (touches_region task) (entered b l str w a s) s3).
    split; [now apply Hquiet | split].
    + intros n sub_bbox c symbol s0 Hn Hs0.
      assert (Hflag : touches_region task
                        (Call sub_bbox (l + 1) (str ++ symbol)%string
                           (w / inject_Z (Z.of_nat (List.length subs)))
                           (if c =? CONTAINS then true else false))).
      { destruct (survivor_nth task _ _ _ _ _ Hsurv Hn) as [Htr Hc].
        cbn in Htr, Hc |- *.
        destruct (Z.eqb_spec c CONTAINS) as [->|Hne]; [now left|]. right.
        destruct a; [contradiction|].
        destruct (intersects_constants _ _ Hc) as [->|[->| ->]];
          [discriminate | contradiction | exact Hc]. }
      eapply wp_mono; [apply IH, Hflag | |];
        intros x s' H; now apply extends_by_trans with s0.
    + intros s3 Hs3. apply extends_by_trans with s3; [exact Hs3|].
      now apply extends_by_event.
  - intros _. unfold submitted_own. cbn.
    exists [Update l (progress s + w)%Q;
            Put (subtiles_of b l, (str, (progress s + w)%Q))].
    split; [unfold entered; cbn; now rewrite <- !app_assoc | now repeat constructor].
Qed.

Lemma _seed_touches_from (fuel : nat) :
  forall b l str w a s,
  touches_region task (Call b l str w a) ->
  wp (_seed fuel b l str w a)
     (fun _ s' => extends_by (touches_region task) s s')
     (fun _ s' => extends_by (touches_region task) s s') s.
Proof.
  induction fuel as [|fuel IH]; intros b l str w a s Hflag;
    [apply extends_by_refl|].
  eapply wp_mono; [apply (_seed_touches_step fuel IH) | |];
    intros x s' H;
    (eapply extends_by_trans; [|exact H]); now apply extends_by_event.
Qed.

(** X6.  Whatever a visit does after its own [Call], every visit made
    without the inherited flag is of a bbox that the region predicate
    classifies INTERSECTS: below a given call, a bbox the predicate would
    classify NONE or CONTAINS is visited only with [all_subtiles] set.
    (Under the flag the predicate is not asked, and nothing is said of the
    bbox.) *)
Theorem unflagged_visits_intersect :
  forall fuel cur_bbox level progess_str w all_subtiles s,
  extends_by (touches_region task)
    (entered cur_bbox level progess_str w all_subtiles s)
    (final (_seed (S fuel) cur_bbox level progess_str w all_subtiles s)).
Proof.
  intros fuel b l str w a s.
  pose proof (_seed_touches_step fuel (_seed_touches_from fuel) b l str w a s)
    as H.
  unfold wp in H. now destruct (_seed (S fuel) b l str w a s).
Qed.

(** *** What a pass can raise *)

Lemma _sub_seeds_from_fails (subtiles : list (option Tile)) (a : bool) :
  forall acc s,
  wp (Seeder._sub_seeds_from task acc subtiles a) (fun _ _ => True)
     (fun x s' => exists e, x = Some e /\ ends_asking task e (trace s')) s.
Proof.
  induction subtiles as [|[t|] subtiles IH]; intros acc s; simpl.
  - exact I.
  - apply wp_bind. destruct a.
    + apply wp_ret. change (truthy CONTAINS) with true. cbv iota. apply IH.
    + unfold Seeder.task_intersects. apply wp_bind, wp_emit, wp_lift.
      destruct (SeedTask.intersects task (meta_bbox t)) as [c|e] eqn:Hc.
      * destruct (truthy c); apply IH.
      * exists e. split; [reflexivity|]. now exists (trace s), (meta_bbox t).
  - apply IH.
Qed.

(** What [_sub_seeds] returns, when it returns, is the list of the
    survivors. *)
Lemma _sub_seeds_from_result (subtiles : list (option Tile)) (a : bool) :
  forall acc s,
  wp (Seeder._sub_seeds_from task acc subtiles a)
     (fun l _ =>
        l = acc ++ (if a then all_contains subtiles
                    else kept task (present_bboxes subtiles)))
     (fun _ _ => True) s.
Proof.
  destruct a.
  - intros acc s. unfold wp. now rewrite _sub_seeds_all_subtiles.
  - induction subtiles as [|[t|] subtiles IH]; intros acc s; simpl.
    + apply wp_ret. now rewrite app_nil_r.
    + apply wp_bind. unfold Seeder.task_intersects.
      apply wp_bind, wp_emit, wp_lift. unfold kept. cbn [flat_map].
      fold (kept task (present_bboxes subtiles)).
      destruct (SeedTask.intersects task (meta_bbox t)) as [c|e]; [|exact I].
      destruct (truthy c).
      * eapply wp_mono; [apply IH | | auto].
        intros l s' ->. now rewrite <- app_assoc.
      * apply IH.
    + apply IH.
Qed.

Lemma _seed_fails (fuel : nat) :
  forall b l str w a s,
  wp (_seed fuel b l str w a) (fun _ _ => True)
     (fun x s' => forall e, x = Some e -> cause task e (trace s')) s.
Proof.
  induction fuel as [|fuel IH]; intros b l str w a s; [discriminate|].
  apply wp_visit_with with
    (Subs := fun subs s2 =>
       subs = survivors task a (subtiles_of b l) /\
       classified a (entered b l str w a s) s2)
    (SubsE := fun x s2 => exists e, x = Some e /\ ends_asking task e (trace s2))
    (Post := fun _ => True); try (intros; exact I).
  - intros _. unfold Seeder._sub_seeds.
    pose proof (_sub_seeds_from_result (subtiles_of b l) a []
                  (entered b l str w a s)) as H1.
    pose proof (_sub_seeds_from_spec task (subtiles_of b l) a []
                  (entered b l str w a s)) as H2.
    pose proof (_sub_seeds_from_fails (subtiles_of b l) a []
                  (entered b l str w a s)) as H3.
    unfold wp in *.
    destruct (Seeder._sub_seeds_from task [] (subtiles_of b l) a
                (entered b l str w a s)) as [subs s2|e s2|s2].
    + split; [exact H1 | apply H2].
    + exact H3.
    + exact H3.
  - intros _ x s2 [e [-> [front [bx [Ht He]]]]] e' [= <-].
    destruct (intersects_error _ _ He) as [-> [Hs Hg]].
    split; [exact Hs | split; [exact Hg|]]. now exists front, bx.
  - intros Hlt s2 [Hsubs [_ [seg [Ht [Hseg _]]]]] e [= <-].
    exists (trace s), b, l, str, w, a, seg.
    split; [|split; [exact Hlt | split; [exact Hseg | now symmetry]]].
    rewrite Ht. cbn. now rewrite <- app_assoc.
  - intros _ subs s2 _ _. exists (fun _ _ => True).
    split; [exact I | split; [|trivial]].
    intros n sub_bbox c symbol s0 _ _ _.
    eapply wp_mono; [apply IH | trivial | trivial].
Qed.

(** X7.  What lies behind three exceptions of a pass.  If a pass raises
    [ZeroDivisionError], the trace ends in a visit below [max_level] that
    found no survivor: its [Call] and then invocations of the predicate
    only.  If it raises [NameError], shapely is missing, the task has a
    geometry, and the last thing done was to ask the predicate.  It never
    raises [IndexError]: the glyph lookup never fails inside a pass. *)
Theorem causes_of_a_failed_pass :
  forall s s',
  (Seeder.seed task s = Raise ZeroDivisionError s' ->
   ends_barren task (trace s')) /\
  (Seeder.seed task s = Raise NameError s' ->
   shapely_present = false /\ SeedTask.geom task <> None /\
   ends_asking task NameError (trace s')) /\
  Seeder.seed task s <> Raise IndexError s'.
Proof.
  intros s s'.
  pose proof (_seed_fails
                (S (Z.to_nat (max_level - start_level)))
                (SeedTask.bbox task) start_level "" 1%Q false s) as H.
  unfold wp in H. fold (Seeder.seed task) in H.
  split; [|split]; intros Hrun; rewrite Hrun in H;
    exact (H _ eq_refl).
Qed.

(** *** The snapshots of the jobs *)

Lemma climbs_snapshots (tr : list event) :
  forall p p',
  climbs p tr p' ->
  StronglySorted Qle (snapshots tr) /\
  Forall (fun v => (p <= v <= p')%Q) (snapshots tr).
Proof.
  induction tr as [|e tr IH]; intros p p' H; simpl in H.
  - cbn. split; constructor.
  - destruct e as [| | lv v | [tiles [str v]]].
    + now apply IH.
    + now apply IH.
    + destruct H as [Hpv H]. destruct (IH _ _ H) as [Hs Hb].
      split; [exact Hs|]. change (snapshots (Update lv v :: tr)) with (snapshots tr).
      revert Hb. apply Forall_impl. intros x [Ha Hb]. split; [|exact Hb].
      now apply Qle_trans with v.
    + destruct H as [Hv H]. subst v. destruct (IH _ _ H) as [Hs Hb].
      change (snapshots (Put (tiles, (str, p)) :: tr)) with (p :: snapshots tr).
      pose proof (climbs_bounds _ _ _ H) as [Hpp' _]. split.
      * constructor; [exact Hs|]. revert Hb. apply Forall_impl. tauto.
      * constructor; [split; [apply Qle_refl | exact Hpp'] | exact Hb].
Qed.

(** X8.  The progress snapshots of the jobs never decrease along the queue,
    however the pass ends.  When the pass completes, the last job put is
    the one of the start-level call, with the empty path, and its snapshot
    is the value the pass ends with, the largest of all. *)
Theorem snapshots_never_decrease :
  StronglySorted Qle
    (snapshots (trace (final (Seeder.seed task Seeder.__init__)))) /\
  (forall s',
     Seeder.seed task Seeder.__init__ = Return tt s' ->
     exists front,
       trace s' =
         front ++
         [Put (subtiles_of (SeedTask.bbox task) start_level,
               (""%string, progress s'))] /\
       Forall (fun p => (p <= progress s')%Q) (snapshots (trace s'))).
Proof.
  pose proof (_seed_advances task
                (S (Z.to_nat (max_level - start_level)))
                (SeedTask.bbox task) start_level "" 1%Q false
                Seeder.__init__) as H.
  unfold wp in H. fold (Seeder.seed task) in H.
  assert (Hadv : advanced task start_level 1 Seeder.__init__
                   (final (Seeder.seed task Seeder.__init__)))
    by (destruct (Seeder.seed task Seeder.__init__); apply H; discriminate).
  destruct Hadv as [seg [Ht [Hc _]]].
  change (trace Seeder.__init__ ++ seg) with seg in Ht.
  rewrite Ht in *. apply climbs_snapshots in Hc. destruct Hc as [Hsorted Hin].
  split; [exact Hsorted|].
  intros s' Hrun.
  pose proof (_seed_post_order task
                (S (Z.to_nat (max_level - start_level)))
                (SeedTask.bbox task) start_level "" 1%Q false
                Seeder.__init__) as Hpo.
  unfold wp in Hpo. fold (Seeder.seed task) in Hpo.
  rewrite Hrun in Hpo, Ht, Hin. cbn [final] in Ht, Hin.
  destruct Hpo as [body [Hs' _]].
  exists (Call (SeedTask.bbox task) start_level "" 1%Q false :: body).
  split; [exact Hs'|].
  rewrite Ht. revert Hin. apply Forall_impl. tauto.
Qed.

(** *** A polygon task without shapely *)

Lemma submitted_intersects (seg : list event) :
  Forall is_intersects seg -> submitted seg = [].
Proof.
  induction 1 as [|e seg He _ IH]; [reflexivity|].
  destruct e; simpl in He; try contradiction. exact IH.
Qed.

Lemma _sub_seeds_from_name_error (g : geometry) (subtiles : list (option Tile)) :
  shapely_present = false ->
  SeedTask.geom task = Some g ->
  (exists t, In (Some t) subtiles) ->
  forall acc s,
  exists s',
    Seeder._sub_seeds_from task acc subtiles false s = Raise NameError s' /\
    classified false s s'.
Proof.
  intros Hs Hg. induction subtiles as [|[t|] subtiles IH]; intros Hin acc s.
  - destruct Hin as [t []].
  - simpl. unfold bind, Seeder.task_intersects, emit.
    unfold SeedTask.intersects, SeedTask._geom_intersects, shapely_name.
    rewrite Hg, Hs. cbn.
    eexists. split; [reflexivity|].
    split; [reflexivity|]. exists [Intersects (meta_bbox t)].
    split; [reflexivity | split; [repeat constructor | discriminate]].
  - simpl. apply IH. destruct Hin as [t [Heq|Hin]]; [discriminate | now exists t].
Qed.

(** X9.  A polygon task on an installation without shapely, which
    [SeedTask] constructs without complaint, fails at the first
    classification: when the start level is below [max_level] and the grid
    returns a present tile for the task's bbox, the pass raises [NameError]
    before any job is put, with progress still 0. *)
Theorem polygon_pass_without_shapely :
  forall g t,
  SeedTask.geom task = Some g ->
  shapely_present = false ->
  start_level < max_level ->
  In (Some t) (subtiles_of (SeedTask.bbox task) start_level) ->
  exists s',
    Seeder.seed task Seeder.__init__ = Raise NameError s' /\
    submitted (trace s') = [] /\
    progress s' = 0%Q.
Proof.
  intros g t Hg Hs Hlt Hin.
  set (b := SeedTask.bbox task) in *.
  destruct (_sub_seeds_from_name_error g (subtiles_of b start_level) Hs Hg
              (ex_intro _ t Hin) []
              (entered b start_level "" 1%Q false Seeder.__init__))
    as [s' [Hsub [Hp [seg [Ht [Hseg _]]]]]].
  exists s'. split; [|split].
  - unfold Seeder.seed. fold b. cbn [Seeder._seed]. unfold bind at 1. unfold emit.
    fold (entered b start_level "" 1%Q false Seeder.__init__).
    unfold subtiles_of in Hsub.
    destruct (get_affected_level_tiles b start_level) as [[bbox_ tiles_] subtiles].
    cbn [snd] in Hsub.
    apply Z.ltb_lt in Hlt. rewrite Hlt.
    unfold bind, Seeder._sub_seeds. rewrite Hsub. reflexivity.
  - rewrite Ht. cbn. now apply submitted_intersects.
  - rewrite Hp. reflexivity.
Qed.

(** *** [_sub_seeds] as a filter *)

Lemma _sub_seeds_from_filters (subtiles : list (option Tile)) :
  SeedTask.geom task = None \/ shapely_present = true ->
  forall acc s,
  Seeder._sub_seeds_from task acc subtiles false s =
  Return (acc ++ kept task (present_bboxes subtiles))
         {| progress := progress s;
            trace := trace s ++ map Intersects (present_bboxes subtiles) |}.
Proof.
  intros Hdef. induction subtiles as [|[t|] subtiles IH]; intros acc s.
  - cbn. rewrite !app_nil_r. now destruct s.
  - simpl. unfold bind at 1. unfold Seeder.task_intersects, bind, emit.
    destruct (intersects_defined (meta_bbox t) Hdef) as [c Hc].
    unfold kept. cbn [flat_map]. rewrite Hc. cbn [lift ret].
    fold (kept task (present_bboxes subtiles)).
    destruct (truthy c); rewrite IH; cbn [progress trace];
      rewrite <- ?app_assoc; reflexivity.
  - simpl. apply IH.
Qed.

(** X10.  For a bbox task, or with shapely present, an unflagged
    [_sub_seeds] asks the predicate exactly once for every present subtile,
    in the order of the list, and returns, in that order, the bboxes not
    classified NONE, each with its classification; placeholders are passed
    over and [self.progress] is untouched. *)
Theorem sub_seeds_filters_in_order :
  SeedTask.geom task = None \/ shapely_present = true ->
  forall subtiles s,
  _sub_seeds subtiles false s =
  Return (kept task (present_bboxes subtiles))
         {| progress := progress s;
            trace := trace s ++ map Intersects (present_bboxes subtiles) |}.
Proof.
  intros Hdef subtiles s.
  apply (_sub_seeds_from_filters subtiles Hdef [] s).
Qed.

End more_descent.

(** ** The order of the jobs *)

Lemma wp_conj {A} (m : M A) (Q1 Q2 : A -> state -> Prop)
    (E1 E2 : option exn -> state -> Prop) (s : state) :
  wp m Q1 E1 s -> wp m Q2 E2 s ->
  wp m (fun a s' => Q1 a s' /\ Q2 a s') (fun x s' => E1 x s' /\ E2 x s') s.
Proof. unfold wp. destruct (m s); now split. Qed.

Lemma nth_error_enumerate {A} (l : list A) :
  forall (i : Z) (n : nat) (a : A),
  nth_error l n = Some a ->
  nth_error (enumerate i l) n = Some (i + Z.of_nat n, a).
Proof.
  induction l as [|x l IH]; intros i [|n] a H; try discriminate.
  - injection H as ->. cbn. now rewrite Z.add_0_r.
  - cbn [enumerate nth_error]. rewrite (IH (i + 1) n a H).
    do 2 f_equal. lia.
Qed.

Lemma length_enumerate {A} (l : list A) :
  forall i, List.length (enumerate i l) = List.length l.
Proof. induction l as [|x l IH]; intros i; cbn; [reflexivity | now rewrite IH]. Qed.

Lemma firstn_snoc {A} (l : list A) :
  forall (n : nat) (a : A),
  nth_error l n = Some a -> firstn (S n) l = firstn n l ++ [a].
Proof.
  induction l as [|x l IH]; intros [|n] a H; try discriminate.
  - now injection H as ->.
  - cbn [firstn app]. f_equal. now apply IH.
Qed.

Lemma post_order_within (u v : visits) :
  within u v ->
  exists before after,
    post_order v =
    before ++ flat_map post_order (below u) ++ [job_of u] ++ after.
Proof.
  induction 1 as [|tiles str vs v Hin _ [before [after IH]]].
  - exists [], []. destruct u as [tiles str vs]. reflexivity.
  - apply in_split in Hin. destruct Hin as [l1 [l2 ->]].
    exists (flat_map post_order l1 ++ before),
           (after ++ flat_map post_order l2 ++ [(tiles, str)]).
    cbn [post_order]. rewrite flat_map_app. cbn [flat_map]. rewrite IH.
    now rewrite <- !app_assoc.
Qed.

Section order.
Context {grid : MetaGrid} {grid_module : GridModule} {srs_module : SrsModule}
        {shapely : Shapely}.
Variable task : SeedTask.t.

Abbreviation max_level := (SeedTask.max_level task).
Abbreviation start_level := (SeedTask.start_level task).
Abbreviation _seed := (Seeder._seed task).
Abbreviation _sub_seeds := (Seeder._sub_seeds task).

Lemma descent_root (depth : nat) b l str a :
  descent task depth b l str a =
  Visit (subtiles_of b l) str (below (descent task depth b l str a)).
Proof. destruct depth; reflexivity. Qed.

Lemma descent_terminal (depth : nat) b l str a :
  max_level <= l -> below (descent task depth b l str a) = [].
Proof.
  intros H. destruct depth; [reflexivity|]. cbn.
  now replace (l <? max_level) with false by (symmetry; apply Z.ltb_ge; lia).
Qed.

(** The jobs a completed visit puts before its own are the jobs of the
    visits below it, in post-order. *)
Lemma _seed_descent (fuel : nat) :
  forall b l str w a s,
  wp (_seed (S fuel) b l str w a)
     (fun _ s' =>
        exists body,
          trace s' =
            trace s ++
            Call b l str w a ::
            body ++ [Put (subtiles_of b l, (str, progress s'))] /\
          submitted body =
            flat_map post_order (below (descent task fuel b l str a)))
     (fun _ _ => True) s.
Proof.
  induction fuel as [|fuel IH]; intros b l str w a s.
  - apply wp_visit_with with
      (Subs := fun _ _ => True) (SubsE := fun _ _ => True)
      (Post := fun s' =>
         exists body,
           trace s' =
             trace s ++
             Call b l str w a ::
             body ++ [Put (subtiles_of b l, (str, progress s'))] /\
           submitted body = []); try (intros; exact I).
    + intros _. unfold wp. now destruct (_sub_seeds _ _ _).
    + intros _ subs s2 _ Hne. exists (fun n _ => n = 0%nat).
      split; [reflexivity | split].
      * intros n sub_bbox c symbol s0 _ _ _. exact I.
      * intros s3 Hlen. apply length_zero_iff_nil in Hlen. contradiction.
    + intros _. exists [Update l (progress s + w)%Q]. split; [|reflexivity].
      unfold submitted_own, entered. cbn. now rewrite <- !app_assoc.
  - set (children := below (descent task (S fuel) b l str a)).
    apply wp_visit_with with
      (Subs := fun subs s2 =>
         subs = survivors task a (subtiles_of b l) /\
         classified a (entered b l str w a s) s2)
      (SubsE := fun _ _ => True)
      (Post := fun s' =>
         exists body,
           trace s' =
             trace s ++
             Call b l str w a ::
             body ++ [Put (subtiles_of b l, (str, progress s'))] /\
           submitted body = flat_map post_order children);
      try (intros; exact I).
    + intros _.
      eapply wp_mono;
        [apply (wp_conj _ _ _ _ _ _
                  (_sub_seeds_from_result task (subtiles_of b l) a [] _)
                  (_sub_seeds_spec task (subtiles_of b l) a _)) | | auto].
      intros subs s2 [Hs [Hcl _]]. now split.
    + intros Hlt subs s2 [Hsubs [_ [seg [Ht [Hseg _]]]]] Hne.
      assert (Hchildren :
                children =
                map (fun '(i, (sub_bbox, intersection)) =>
                       descent task fuel sub_bbox (l + 1)
                         (str ++ glyph i (Z.of_nat (List.length subs)))
                         (if intersection =? CONTAINS then true else false))
                    (enumerate 0 subs)).
      { unfold children. cbn [descent below].
        replace (l <? max_level) with true by (symmetry; now apply Z.ltb_lt).
        now rewrite <- Hsubs. }
      exists (fun n s3 =>
                exists body,
                  trace s3 = trace s ++ Call b l str w a :: body /\
                  submitted body = flat_map post_order (firstn n children)).
      split; [|split].
      * exists seg. split.
        -- rewrite Ht. cbn. now rewrite <- app_assoc.
        -- now apply submitted_intersects.
      * intros n sub_bbox c symbol s0 Hn Hsym [body [Hs0 Hbody]].
        eapply wp_mono; [apply IH | | auto].
        intros u s' [body' [Hs' Hbody']]. cbv beta.
        eexists. split.
        -- rewrite Hs', Hs0, <- app_assoc, <- app_comm_cons. reflexivity.
        -- assert (Hchild :
                     nth_error children n =
                     Some (descent task fuel sub_bbox (l + 1) (str ++ symbol)
                             (if c =? CONTAINS then true else false))).
           { rewrite Hchildren, nth_error_map.
             rewrite (nth_error_enumerate _ _ _ _ Hn). cbn.
             unfold glyph. rewrite Hsym. reflexivity. }
           rewrite (firstn_snoc _ _ _ Hchild), flat_map_app.
           cbn [flat_map]. rewrite app_nil_r.
           rewrite (descent_root fuel). cbn [post_order].
           rewrite submitted_app, Hbody.
           change (submitted (Call ?b' ?l' ?str' ?w' ?a' :: ?tr))
             with (submitted tr).
           rewrite submitted_app, Hbody'. reflexivity.
      * intros s3 [body [Hs3 Hbody]]. exists body. split.
        -- unfold submitted_own. cbn. now rewrite Hs3, <- app_assoc.
        -- rewrite Hbody. f_equal. apply firstn_all2.
           rewrite Hchildren, length_map, length_enumerate. lia.
    + intros Hge. exists [Update l (progress s + w)%Q]. split.
      * unfold submitted_own, entered. cbn. now rewrite <- !app_assoc.
      * unfold children. now rewrite descent_terminal.
Qed.

(** C10.  Jobs are enqueued in post-order.  (1) What a completed call of
    [_seed] appends to the trace is its [Call], a body, and last its own
    job; the jobs put in the body are exactly the jobs of the visits below
    it in the tree of its survivors, in post-order: subtree after subtree,
    in the order of the survivors, each subtree closed by the job of its
    root.  (2) So the jobs of a completed pass are, in this order, the
    post-order of the tree of the start-level call, whose own job is last;
    (3) and for every visit of that tree, the jobs of all the visits below
    it are enqueued, one after the other, right before its own job. *)
Theorem jobs_are_enqueued_in_post_order :
  (forall fuel cur_bbox level progess_str w all_subtiles s s',
     _seed (S fuel) cur_bbox level progess_str w all_subtiles s = Return tt s' ->
     exists body,
       trace s' =
         trace s ++
         Call cur_bbox level progess_str w all_subtiles ::
         body ++
         [Put (subtiles_of cur_bbox level, (progess_str, progress s'))] /\
       submitted body =
         flat_map post_order
           (below (descent task fuel cur_bbox level progess_str all_subtiles))) /\
  (forall s s',
     Seeder.seed task s = Return tt s' ->
     let root := descent task (Z.to_nat (max_level - start_level))
                   (SeedTask.bbox task) start_level "" false in
     exists seg,
       trace s' = trace s ++ seg /\
       submitted seg = post_order root /\
       (exists front,
          submitted seg =
          front ++ [(subtiles_of (SeedTask.bbox task) start_level, ""%string)]) /\
       (forall u,
          within u root ->
          exists before after,
            submitted seg =
            before ++ flat_map post_order (below u) ++ [job_of u] ++ after)).
Proof.
  assert (Hall : forall fuel b l str w a s s',
            _seed (S fuel) b l str w a s = Return tt s' ->
            exists body,
              trace s' =
                trace s ++
                Call b l str w a ::
                body ++ [Put (subtiles_of b l, (str, progress s'))] /\
              submitted body =
                flat_map post_order (below (descent task fuel b l str a))).
  { intros fuel b l str w a s s' Hrun.
    pose proof (_seed_descent fuel b l str w a s) as H.
    unfold wp in H. now rewrite Hrun in H. }
  split; [exact Hall|].
  intros s s' Hrun root.
  destruct (Hall _ _ _ _ _ _ _ _ Hrun) as [body [Ht Hbody]].
  fold root in Hbody.
  assert (Hseg : submitted
                   (Call (SeedTask.bbox task) start_level "" 1%Q false ::
                    body ++
                    [Put (subtiles_of (SeedTask.bbox task) start_level,
                          (""%string, progress s'))]) =
                 post_order root).
  { change (submitted (Call _ _ _ _ _ :: ?tr)) with (submitted tr).
    rewrite submitted_app, Hbody. unfold root at 2.
    rewrite descent_root. reflexivity. }
  eexists. split; [exact Ht|]. split; [exact Hseg|]. split.
  - rewrite Hseg. unfold root at 1. rewrite descent_root. cbn [post_order].
    eexists. reflexivity.
  - intros u Hu. rewrite Hseg. now apply post_order_within.
Qed.

End order.

(** ** More on the task *)

Section more_task.
Context {grid_module : GridModule} {srs_module : SrsModule} {shapely : Shapely}.

(** X11.  For a polygon task with shapely present, [intersects] returns
    CONTAINS exactly when the geometry contains the rectangle built from the
    four corners of the query bbox; otherwise INTERSECTS exactly when the
    two intersect; otherwise NONE.  Without shapely every classification
    raises [NameError]. *)
Theorem geom_classification :
  forall (self : SeedTask.t) (g : geometry) (query : BBox),
  SeedTask.geom self = Some g ->
  (shapely_present = true ->
   (SeedTask.intersects self query = Ok CONTAINS <->
    contains g (bbox_polygon query) = true) /\
   (SeedTask.intersects self query = Ok INTERSECTS <->
    contains g (bbox_polygon query) = false /\
    intersects_geom g (bbox_polygon query) = true) /\
   (SeedTask.intersects self query = Ok NONE <->
    contains g (bbox_polygon query) = false /\
    intersects_geom g (bbox_polygon query) = false)) /\
  (shapely_present = false ->
   SeedTask.intersects self query = Error NameError).
Proof.
  intros self g query Hgeom.
  unfold SeedTask.intersects, SeedTask._geom_intersects, shapely_name.
  rewrite Hgeom. fold (bbox_polygon query).
  split; intros Hs; rewrite Hs; cbn; [|reflexivity].
  destruct (contains g (bbox_polygon query));
    destruct (intersects_geom g (bbox_polygon query));
    repeat split; intros; try discriminate; try tauto;
    match goal with H : _ /\ _ |- _ => destruct H; discriminate end.
Qed.

(** *** Reprojection *)

Lemma combine_xy (r : ring) : combine (map fst r) (map snd r) = r.
Proof.
  induction r as [|[x y] r IH]; [reflexivity|]. cbn. now rewrite IH.
Qed.

Lemma map_result_ok {A B} (f : A -> result B) (g : A -> B) (l : list A) :
  (forall a, f a = Ok (g a)) ->
  SeedTask.map_result f l = Ok (map g l).
Proof.
  intros H. induction l as [|a l IH]; [reflexivity|].
  cbn. rewrite H, IH. reflexivity.
Qed.

Lemma transform_xy_ring (s t : SRS) (r : ring) :
  SeedTask.transform_xy (Some s) t (SeedTask.xy r) = Ok (transform_to s t r).
Proof.
  unfold SeedTask.transform_xy, SeedTask.xy. cbn [fst snd].
  now rewrite combine_xy.
Qed.

Lemma transform_polygon_maps (s t : SRS) (p : polygon) :
  shapely_present = true ->
  SeedTask.transform_polygon (SeedTask.transform_xy (Some s) t) p =
  Ok (map_polygon (transform_to s t) p).
Proof.
  intros Hs. unfold SeedTask.transform_polygon, shapely_name.
  rewrite transform_xy_ring. cbn [result_bind].
  rewrite (map_result_ok _ (transform_to s t)) by apply transform_xy_ring.
  rewrite Hs. reflexivity.
Qed.

Lemma map_polygon_id (f : list (Q * Q) -> list (Q * Q)) (p : polygon) :
  (forall points, f points = points) -> map_polygon f p = p.
Proof.
  intros H. destruct p as [ext ints]. unfold map_polygon. cbn.
  rewrite H.
  replace (map f ints) with ints; [reflexivity|].
  rewrite <- (map_id ints) at 1. apply map_ext. intros r. now rewrite H.
Qed.

Lemma transform_geometry_maps (s t : SRS) (g : geometry) :
  shapely_present = true -> plain g = true ->
  SeedTask.transform_geometry (Some s) t g =
  Ok (Some (map_geometry (transform_to s t) g)).
Proof.
  intros Hs Hplain.
  destruct g as [p|ps| |c]; try discriminate; unfold SeedTask.transform_geometry.
  - now rewrite transform_polygon_maps.
  - unfold SeedTask.transform_multipolygon, shapely_name.
    rewrite (map_result_ok _ (map_polygon (transform_to s t)))
      by (intros p; now apply transform_polygon_maps).
    rewrite Hs. reflexivity.
Qed.

(** X12.  With shapely present, [transform_geometry] applies the SRS's
    point transformation to every ring of a polygon or multipolygon and
    keeps the structure: the same polygons, each with its exterior and the
    same number of interior rings, in order.  When the transformation
    moves no point the geometry comes back unchanged. *)
Theorem transform_geometry_maps_rings :
  shapely_present = true ->
  forall (from_srs to_srs : SRS) (g : geometry),
  plain g = true ->
  SeedTask.transform_geometry (Some from_srs) to_srs g =
    Ok (Some (map_geometry (transform_to from_srs to_srs) g)) /\
  ((forall points, transform_to from_srs to_srs points = points) ->
   SeedTask.transform_geometry (Some from_srs) to_srs g = Ok (Some g)).
Proof.
  intros Hs s t g Hplain.
  pose proof (transform_geometry_maps s t g Hs Hplain) as Hmap.
  split; [exact Hmap|].
  intros Hid. rewrite Hmap. do 2 f_equal.
  destruct g as [p|ps| |c]; try discriminate; cbn.
  - now rewrite map_polygon_id.
  - replace (map (map_polygon (transform_to s t)) ps) with ps; [reflexivity|].
    rewrite <- (map_id ps) at 1. apply map_ext.
    intros p. now rewrite map_polygon_id.
Qed.

Lemma transform_geometry_without_shapely (s t : SRS) (g : geometry) :
  shapely_present = false -> plain g = true ->
  SeedTask.transform_geometry (Some s) t g = Error NameError.
Proof.
  intros Hs Hplain.
  assert (Hp : forall p,
            SeedTask.transform_polygon (SeedTask.transform_xy (Some s) t) p =
            Error NameError).
  { intros p. unfold SeedTask.transform_polygon, shapely_name.
    rewrite transform_xy_ring. cbn [result_bind].
    rewrite (map_result_ok _ (transform_to s t)) by apply transform_xy_ring.
    rewrite Hs. reflexivity. }
  destruct g as [p|ps| |c]; try discriminate; unfold SeedTask.transform_geometry.
  - now rewrite Hp.
  - unfold SeedTask.transform_multipolygon, shapely_name.
    destruct ps as [|p ps]; cbn [SeedTask.map_result result_bind];
      [now rewrite Hs | now rewrite Hp].
Qed.

(** X13.  Reprojection at construction, with shapely present and an SRS
    given that differs from the seed SRS.  A bbox region is stored
    transformed.  For a polygon or multipolygon region the bbox argument is
    ignored: the task's bbox is the bounds of the transformed geometry, and
    the geometry is stored transformed and prepared. *)
Theorem construction_reprojects :
  forall bbox level bbox_srs seed_srs,
  srs_ne bbox_srs seed_srs = true ->
  SeedTask.__init__ bbox level (Some bbox_srs) seed_srs None =
    Ok {| SeedTask.start_level := fst level;
          SeedTask.max_level := snd level;
          SeedTask.bbox_srs := Some bbox_srs;
          SeedTask.seed_srs := seed_srs;
          SeedTask.bbox := transform_bbox_to bbox_srs seed_srs bbox;
          SeedTask.geom := None |} /\
  (forall g,
     shapely_present = true -> plain g = true ->
     SeedTask.__init__ bbox level (Some bbox_srs) seed_srs (Some g) =
       let g' := map_geometry (transform_to bbox_srs seed_srs) g in
       Ok {| SeedTask.start_level := fst level;
             SeedTask.max_level := snd level;
             SeedTask.bbox_srs := Some bbox_srs;
             SeedTask.seed_srs := seed_srs;
             SeedTask.bbox := bounds g';
             SeedTask.geom := Some (PreparedGeometry g') |}).
Proof.
  intros bbox level s t Hne. split.
  - unfold SeedTask.__init__, SeedTask.srs_differ. rewrite Hne. reflexivity.
  - intros g Hs Hplain.
    unfold SeedTask.__init__, SeedTask.srs_differ. rewrite Hne.
    rewrite (transform_geometry_maps _ _ _ Hs Hplain). cbn [result_bind].
    unfold shapely_name. rewrite Hs. reflexivity.
Qed.

(** X14.  When construction fails.  With an SRS given, [__init__] raises
    exactly when that SRS differs from the seed SRS and a geometry is
    given that is a polygon or multipolygon while shapely is missing
    ([NameError]) or is of any other kind ([AttributeError]); in every
    other case a task is built.  With no SRS given and a bbox region it
    always raises [AttributeError]. *)
Theorem construction_fails_exactly :
  (forall bbox level bbox_srs seed_srs geom e,
     SeedTask.__init__ bbox level (Some bbox_srs) seed_srs geom = Error e <->
     srs_ne bbox_srs seed_srs = true /\
     exists g,
       geom = Some g /\
       if plain g then shapely_present = false /\ e = NameError
       else e = AttributeError) /\
  (forall bbox level seed_srs,
     SeedTask.__init__ bbox level None seed_srs None = Error AttributeError).
Proof.
  split; [|reflexivity].
  intros bbox level s t geom e.
  unfold SeedTask.__init__, SeedTask.srs_differ.
  destruct (srs_ne s t) eqn:Hne.
  - destruct geom as [g|].
    + destruct (plain g) eqn:Hplain.
      * destruct shapely_present eqn:Hs.
        -- rewrite (transform_geometry_maps _ _ _ Hs Hplain). cbn [result_bind].
           unfold shapely_name. rewrite Hs. cbn. split; [discriminate|].
           intros [_ [g' [[= <-] H]]]. rewrite Hplain in H.
           destruct H; discriminate.
        -- rewrite (transform_geometry_without_shapely _ _ _ Hs Hplain). cbn.
           split.
           ++ intros [= <-]. split; [reflexivity|]. exists g.
              rewrite Hplain. now repeat split.
           ++ intros [_ [g' [[= <-] H]]]. rewrite Hplain in H.
              destruct H as [_ ->]. reflexivity.
      * assert (Hfail : result_bind
                  (SeedTask.transform_geometry (Some s) t g)
                  (fun geom0 =>
                     match geom0 with
                     | Some g' =>
                         result_bind shapely_name (fun _ =>
                           Ok (bounds g', Some (PreparedGeometry g')))
                     | None => Error AttributeError
                     end) = Error AttributeError)
          by (destruct g; try discriminate; reflexivity).
        rewrite Hfail. cbn. split.
        -- intros [= <-]. split; [reflexivity|]. exists g. now rewrite Hplain.
        -- intros [_ [g' [[= <-] H]]]. rewrite Hplain in H. now subst e.
    + cbn. split; [discriminate|]. intros [_ [g [Hg _]]]. discriminate.
  - cbn. split; [discriminate|]. intros [H _]. discriminate.
Qed.

(** C4 (as amended).  Constructing a task never looks at the two levels.
    (1) When it succeeds, both levels are stored as given, whatever they
    are.  (2) Its outcome is the same for every level pair: with other
    levels it fails with the same exception, or builds the same task but
    for the levels.  (3) For a bbox region with an SRS given it succeeds
    for every level pair, a reversed one included.  (4) With a polygon
    region and shapely missing there is no configuration failure either:
    given in the seed SRS the region is taken as it is and the task is
    built; given in another SRS, a polygon or multipolygon makes
    [transform_geometry] raise [NameError]. *)
Theorem task_construction_is_unchecked :
  (forall bbox level bbox_srs seed_srs geom self,
     SeedTask.__init__ bbox level bbox_srs seed_srs geom = Ok self ->
     SeedTask.start_level self = fst level /\
     SeedTask.max_level self = snd level) /\
  (forall bbox level level' bbox_srs seed_srs geom,
     SeedTask.__init__ bbox level' bbox_srs seed_srs geom =
     match SeedTask.__init__ bbox level bbox_srs seed_srs geom with
     | Ok self =>
         Ok {| SeedTask.start_level := fst level';
               SeedTask.max_level := snd level';
               SeedTask.bbox_srs := SeedTask.bbox_srs self;
               SeedTask.seed_srs := SeedTask.seed_srs self;
               SeedTask.bbox := SeedTask.bbox self;
               SeedTask.geom := SeedTask.geom self |}
     | Error e => Error e
     end) /\
  (forall bbox level bbox_srs seed_srs,
     exists self,
       SeedTask.__init__ bbox level (Some bbox_srs) seed_srs None = Ok self /\
       SeedTask.geom self = None) /\
  (shapely_present = false ->
   forall bbox level bbox_srs seed_srs g,
     (srs_ne bbox_srs seed_srs = false ->
      exists self,
        SeedTask.__init__ bbox level (Some bbox_srs) seed_srs (Some g) = Ok self /\
        SeedTask.bbox self = bbox /\
        SeedTask.geom self = Some g) /\
     (srs_ne bbox_srs seed_srs = true -> plain g = true ->
      SeedTask.__init__ bbox level (Some bbox_srs) seed_srs (Some g) =
      Error NameError)).
Proof.
  split; [|split; [|split]].
  - intros bbox level bbox_srs seed_srs geom self. unfold SeedTask.__init__.
    match goal with |- result_bind ?x _ = _ -> _ => destruct x as [[b g]|e] end;
      cbn; [|discriminate].
    intros [= <-]. now split.
  - intros bbox level level' bbox_srs seed_srs geom. unfold SeedTask.__init__.
    match goal with |- result_bind ?x _ = _ => destruct x as [[b g]|e] end;
      reflexivity.
  - intros bbox level bbox_srs seed_srs. unfold SeedTask.__init__.
    destruct (SeedTask.srs_differ (Some bbox_srs) seed_srs);
      eexists; cbn; split; reflexivity.
  - intros Hs bbox level bbox_srs seed_srs g. split.
    + intros Hsame.
      unfold SeedTask.__init__, SeedTask.srs_differ. rewrite Hsame. cbn.
      eexists. repeat split.
    + intros Hne Hplain.
      unfold SeedTask.__init__, SeedTask.srs_differ. rewrite Hne.
      rewrite (transform_geometry_without_shapely _ _ _ Hs Hplain).
      reflexivity.
Qed.

End more_task.

(** ** The caches of a layer *)

Section layer_properties.
Variable Cache : Type.
Implicit Types (layer : layer_obj Cache) (layers : list (layer_obj Cache)).

Lemma caches_from_layers_flat layers :
  forall caches,
  caches_from_layers caches layers =
  if forallb has_caches layers
  then Ok (caches ++ flat_map layer_caches layers)
  else Error AttributeError.
Proof.
  induction layers as [|[ls [srcs|] [c|]] layers IH]; intros caches; cbn.
  - now rewrite app_nil_r.
  - rewrite IH. destruct (forallb has_caches layers); [|reflexivity].
    now rewrite <- app_assoc.
  - rewrite IH. destruct (forallb has_caches layers); [|reflexivity].
    now rewrite <- app_assoc.
  - rewrite IH. destruct (forallb has_caches layers); [|reflexivity].
    now rewrite <- app_assoc.
  - reflexivity.
Qed.

(** X15.  [caches_from_layer] succeeds exactly when every layer it runs
    over (the layer's [layers] if it has that attribute, else the layer
    itself) has [sources] or a [cache].  It then returns, in order, for a
    layer with [sources] the caches of the sources that have one (sources
    without are passed over) and for any other layer its [cache].
    Otherwise it raises [AttributeError]. *)
Theorem caches_from_layer_result :
  forall layer,
  caches_from_layer layer =
  if forallb has_caches (considered layer)
  then Ok (flat_map layer_caches (considered layer))
  else Error AttributeError.
Proof.
  intros layer. unfold caches_from_layer.
  fold (considered layer). apply (caches_from_layers_flat _ []).
Qed.

Lemma caches_from_plain_layer layer :
  caches_from_layer (without_layers layer) =
  if has_caches layer then Ok (layer_caches layer) else Error AttributeError.
Proof.
  destruct layer as [ls [srcs|] [c|]]; cbn; try reflexivity;
    now rewrite ?app_nil_r.
Qed.

(** X16.  A layer with a [layers] attribute yields what its sublayers yield
    one by one, in order, each taken without its own [layers]: sublayers of
    sublayers are not looked at, nor are the [sources] and the [cache] of
    the layer itself. *)
Theorem multi_layer_concatenates :
  forall layers sources cache,
  caches_from_layer (Layer (Some layers) sources cache) =
  concat_results
    (map (fun sub => caches_from_layer (without_layers sub)) layers).
Proof.
  intros layers sources cache.
  change (caches_from_layer (Layer (Some layers) sources cache))
    with (caches_from_layers [] layers).
  rewrite caches_from_layers_flat. cbn [app].
  induction layers as [|sub layers IH]; [reflexivity|].
  cbn [forallb flat_map map concat_results].
  rewrite caches_from_plain_layer, <- IH.
  destruct (has_caches sub); [|reflexivity]. cbn.
  destruct (forallb has_caches layers); reflexivity.
Qed.

End layer_properties.

(** ** The worker's loop *)

Section worker_properties.
Variable Failure : Type.
Variable load : list (option Tile) -> option Failure.

Lemma run_from_jobs (dry_run : bool) (jobs : list SeedJob) :
  (dry_run = true \/ forall job, In job jobs -> load (fst job) = None) ->
  forall done queue,
  SeedWorker.run_from dry_run load done (map Some jobs ++ queue) =
  SeedWorker.run_from dry_run load
    (done ++ flat_map (SeedWorker.handled dry_run) jobs) queue.
Proof.
  intros Hload. induction jobs as [|[tiles progress] jobs IH]; intros done queue.
  - cbn. now rewrite app_nil_r.
  - cbn [map app SeedWorker.run_from flat_map SeedWorker.handled].
    assert (Hrest : dry_run = true \/
                    forall job, In job jobs -> load (fst job) = None)
      by (destruct Hload as [H|H]; [now left | right; intros; apply H; now right]).
    destruct dry_run.
    + rewrite (IH Hrest). now rewrite <- app_assoc.
    + destruct Hload as [H|H]; [discriminate|].
      pose proof (H (tiles, progress) (or_introl eq_refl)) as Hl.
      cbn [fst] in Hl. rewrite Hl.
      rewrite (IH Hrest). now rewrite <- !app_assoc.
Qed.

(** X17.  Clean shutdown of a worker.  If no load fails (or in a dry run),
    a worker that is delivered some jobs and then a sentinel reports and
    loads every one of the jobs, in the order delivered, takes that one
    sentinel and returns; whatever was behind the sentinel is left on the
    queue. *)
Theorem worker_stops_at_the_sentinel :
  forall dry_run jobs rest,
  (dry_run = true \/ forall job, In job jobs -> load (fst job) = None) ->
  SeedWorker.run dry_run load (map Some jobs ++ None :: rest) =
  (flat_map (SeedWorker.handled dry_run) jobs, SeedWorker.Exited, rest).
Proof.
  intros dry_run jobs rest Hload. unfold SeedWorker.run.
  rewrite (run_from_jobs dry_run jobs Hload). reflexivity.
Qed.

(** X18.  Death of a worker.  Outside a dry run, when the load of a job
    lets an exception escape, the worker ends there: the job's progress
    line had already been printed (the report precedes the load), and
    nothing behind that job on the queue is taken by this worker, neither
    later jobs nor a sentinel. *)
Theorem worker_dies_on_a_failed_load :
  forall before tiles progress f rest,
  (forall job, In job before -> load (fst job) = None) ->
  load tiles = Some f ->
  SeedWorker.run false load
    (map Some before ++ Some (tiles, progress) :: rest) =
  (flat_map (SeedWorker.handled false) before ++
   [SeedWorker.Print (fst progress) (snd progress * 100)%Q;
    SeedWorker.Load tiles],
   SeedWorker.Died f, rest).
Proof.
  intros before tiles progress f rest Hbefore Hfail. unfold SeedWorker.run.
  rewrite (run_from_jobs false before (or_intror Hbefore)).
  cbn. rewrite Hfail. now rewrite <- app_assoc.
Qed.

Lemma dry_run_from (queue : list (option SeedJob)) :
  forall done actions ending rest,
  (forall tiles, ~ In (SeedWorker.Load tiles) done) ->
  SeedWorker.run_from true load done queue = (actions, ending, rest) ->
  (forall tiles, ~ In (SeedWorker.Load tiles) actions) /\
  (forall f, ending <> SeedWorker.Died f) /\
  (ending = SeedWorker.Exited <-> In None queue).
Proof.
  induction queue as [|[[tiles progress]|] queue IH];
    intros done actions ending rest Hdone Hrun; cbn in Hrun.
  - injection Hrun as <- <- <-. repeat split; try discriminate; try tauto.
    intros [].
  - apply IH in Hrun.
    + destruct Hrun as [H1 [H2 H3]]. repeat split; try assumption.
      * intros H. right. now apply H3.
      * intros [H|H]; [discriminate | now apply H3].
    + intros tiles' Hin. apply in_app_or in Hin.
      destruct Hin as [Hin|[Hin|[]]]; [now apply (Hdone tiles') | discriminate].
  - injection Hrun as <- <- <-. repeat split; try assumption; try discriminate.
    now left.
Qed.

(** X19.  In a dry run a worker never calls the loader and never dies; it
    returns exactly when a sentinel is delivered, and otherwise ends up
    waiting on the queue. *)
Theorem dry_run_loads_nothing :
  forall queue actions ending rest,
  SeedWorker.run true load queue = (actions, ending, rest) ->
  (forall tiles, ~ In (SeedWorker.Load tiles) actions) /\
  (forall f, ending <> SeedWorker.Died f) /\
  (ending = SeedWorker.Exited <-> In None queue).
Proof.
  intros queue actions ending rest. apply dry_run_from. intros tiles [].
Qed.

End worker_properties.

(** ** The pool and its workers *)

Section pool_properties.
Variable Failure : Type.
Variable dry_run : bool.
Variable load : list (option Tile) -> option Failure.

Abbreviation standing := (Pool.standing dry_run load).
Abbreviation joined := (Pool.joined dry_run load).
Abbreviation step := (Pool.step dry_run load).
Abbreviation steps := (Pool.steps dry_run load).
Abbreviation idle := (Pool.idle dry_run load).
Abbreviation sentinels := Pool.sentinels.

Lemma sentinels_app (l1 l2 : list (option SeedJob)) :
  sentinels (l1 ++ l2) = (sentinels l1 + sentinels l2)%nat.
Proof. unfold Pool.sentinels. now rewrite filter_app, length_app. Qed.

Lemma sentinels_jobs (js : list SeedJob) : sentinels (map Some js) = 0%nat.
Proof. induction js as [|j js IH]; [reflexivity | exact IH]. Qed.

Lemma sentinels_repeat (n : nat) : sentinels (repeat None n) = n.
Proof.
  induction n as [|n IH]; [reflexivity|].
  unfold Pool.sentinels in *. cbn. now rewrite IH.
Qed.

Lemma sentinels_permutation (l l' : list (option SeedJob)) :
  Permutation l l' -> sentinels l = sentinels l'.
Proof.
  unfold Pool.sentinels.
  induction 1 as [|x l l' _ IH|x y l|l1 l2 l3 _ IH1 _ IH2]; cbn.
  - reflexivity.
  - destruct x; cbn; now rewrite IH.
  - destruct x, y; reflexivity.
  - now rewrite IH1.
Qed.

(** The sentinels are the last items put: once as many were taken as
    there are workers, nothing is left. *)
Lemma nothing_behind_the_sentinels (front rest : list (option SeedJob))
    (jobs : list SeedJob) (size : nat) :
  front ++ rest = map Some jobs ++ repeat None size ->
  sentinels front = size -> (0 < size)%nat -> rest = [].
Proof.
  intros Heq Hfront Hsize.
  assert (Hrest : sentinels rest = 0%nat).
  { pose proof (f_equal Pool.sentinels Heq) as H.
    rewrite !sentinels_app, sentinels_jobs, sentinels_repeat in H. lia. }
  destruct rest as [|r rest]; [reflexivity | exfalso].
  destruct (exists_last (l := r :: rest)) as [rest' [x Hlast]]; [discriminate|].
  rewrite Hlast in Heq, Hrest.
  destruct size as [|size]; [lia|].
  change (repeat None (S size)) with (@None SeedJob :: repeat None size) in Heq.
  rewrite repeat_cons, !app_assoc in Heq.
  apply app_inj_tail in Heq. destruct Heq as [_ ->].
  rewrite sentinels_app in Hrest. cbn in Hrest. lia.
Qed.

Lemma steps_cons (n : nat) (m1 m2 m3 : Pool.moment) :
  step m1 m2 -> steps n m2 m3 -> steps (S n) m1 m3.
Proof.
  intros H1 H2. induction H2 as [m | n a b c _ IH Hbc].
  - eapply Pool.steps_S; [apply Pool.steps_O | exact H1].
  - eapply Pool.steps_S; [now apply IH | exact Hbc].
Qed.

Section no_failure.
Variable jobs : list SeedJob.
Variable size : nat.
Hypothesis loads :
  dry_run = true \/ forall job, In job jobs -> load (fst job) = None.

Abbreviation tidy := (Pool.tidy jobs).
Abbreviation sound := (Pool.sound jobs size).

Lemma loads_among (js : list SeedJob) :
  Forall (fun job => In job jobs) js ->
  dry_run = true \/ forall job, In job js -> load (fst job) = None.
Proof.
  intros Hjs. destruct loads as [H|H]; [now left | right].
  intros job Hin. apply H. rewrite Forall_forall in Hjs. now apply Hjs.
Qed.

Lemma run_jobs (js : list SeedJob) :
  Forall (fun job => In job jobs) js ->
  SeedWorker.run dry_run load (map Some js) =
  (flat_map (SeedWorker.handled dry_run) js, SeedWorker.Waiting, []).
Proof.
  intros Hjs. unfold SeedWorker.run.
  rewrite <- (app_nil_r (map Some js)).
  now rewrite (run_from_jobs Failure load dry_run js (loads_among js Hjs)).
Qed.

Lemma run_jobs_sentinel (js : list SeedJob) :
  Forall (fun job => In job jobs) js ->
  SeedWorker.run dry_run load (map Some js ++ [None]) =
  (flat_map (SeedWorker.handled dry_run) js, SeedWorker.Exited, []).
Proof.
  intros Hjs. unfold SeedWorker.run.
  now rewrite (run_from_jobs Failure load dry_run js (loads_among js Hjs)).
Qed.

Lemma tidy_waiting (taken : list (option SeedJob)) :
  tidy taken -> standing taken = SeedWorker.Waiting ->
  exists js, Forall (fun job => In job jobs) js /\ taken = map Some js.
Proof.
  intros [js [Hjs [->| ->]]] Hw; [now exists js|].
  unfold Pool.standing in Hw. now rewrite (run_jobs_sentinel js Hjs) in Hw.
Qed.

Lemma tidy_ended (taken : list (option SeedJob)) :
  tidy taken -> standing taken <> SeedWorker.Waiting ->
  exists js,
    Forall (fun job => In job jobs) js /\ taken = map Some js ++ [None].
Proof.
  intros [js [Hjs [->| ->]]] Hw; [|now exists js].
  unfold Pool.standing in Hw. now rewrite (run_jobs js Hjs) in Hw.
Qed.

Lemma tidy_sentinels (taken : list (option SeedJob)) :
  tidy taken ->
  (sentinels taken <= 1)%nat /\
  (sentinels taken = 1%nat -> standing taken <> SeedWorker.Waiting).
Proof.
  intros [js [Hjs [->| ->]]].
  - rewrite sentinels_jobs. split; [lia | discriminate].
  - rewrite sentinels_app, sentinels_jobs. cbn. split; [lia|].
    intros _. unfold Pool.standing. now rewrite (run_jobs_sentinel js Hjs).
Qed.

Lemma sentinels_of_the_ended (procs : list (list (option SeedJob))) :
  Forall tidy procs ->
  Forall (fun taken => standing taken <> SeedWorker.Waiting) procs ->
  sentinels (List.concat procs) = List.length procs.
Proof.
  induction 1 as [|taken procs Ht _ IH]; intros Hj; [reflexivity|].
  inversion Hj as [|? ? Hw Hj']; subst.
  destruct (tidy_ended taken Ht Hw) as [js [_ ->]].
  cbn [List.concat List.length]. rewrite !sentinels_app, sentinels_jobs, (IH Hj').
  reflexivity.
Qed.

Lemma sentinels_of_the_tidy (procs : list (list (option SeedJob))) :
  Forall tidy procs ->
  (sentinels (List.concat procs) <= List.length procs)%nat /\
  (sentinels (List.concat procs) = List.length procs ->
   Forall (fun taken => standing taken <> SeedWorker.Waiting) procs).
Proof.
  induction 1 as [|taken procs Ht _ [IHle IHeq]]; [split; [cbn; lia | constructor]|].
  destruct (tidy_sentinels taken Ht) as [Hle Hone].
  cbn [List.concat List.length]. rewrite sentinels_app. split; [lia|].
  intros Heq. constructor; [apply Hone | apply IHeq]; lia.
Qed.

Lemma concat_repeat_nil {A} (n : nat) : List.concat (repeat (@nil A) n) = [].
Proof. induction n as [|n IH]; [reflexivity | exact IH]. Qed.

Lemma sound_start :
  sound (map Some jobs ++ Pool.stop (Pool.__init__ size), Pool.__init__ size).
Proof.
  unfold Pool.sound, Pool.stop, Pool.__init__. cbn [fst snd Pool.procs Pool.tiles_queue].
  rewrite repeat_length. split; [reflexivity | split].
  - apply Forall_forall. intros taken Hin. apply repeat_spec in Hin. subst.
    exists []. split; [constructor | now left].
  - exists []. rewrite concat_repeat_nil. split; [constructor | reflexivity].
Qed.

Lemma sound_step (m m' : Pool.moment) : sound m -> step m m' -> sound m'.
Proof.
  intros [Hlen [Htidy [consumed [Hperm Heq]]]] Hstep.
  destruct Hstep as [item todo self Hroom | todo item queue before taken after Hw];
    unfold Pool.sound; cbn [fst snd Pool.procs Pool.tiles_queue] in *.
  - split; [exact Hlen | split; [exact Htidy|]].
    exists consumed. split; [exact Hperm|].
    now rewrite <- Heq, <- !app_assoc.
  - assert (Htaken : tidy taken).
    { rewrite Forall_forall in Htidy. apply Htidy, in_elt. }
    destruct (tidy_waiting taken Htaken Hw) as [js [Hjs ->]].
    assert (Hitem : In item (map Some jobs ++ repeat None size)).
    { rewrite <- Heq. apply in_or_app. right. now left. }
    split; [|split].
    + rewrite <- Hlen, !length_app. reflexivity.
    + apply Forall_app in Htidy. destruct Htidy as [Hb Ha].
      inversion Ha as [|? ? _ Ha']; subst.
      apply Forall_app. split; [exact Hb|]. constructor; [|exact Ha'].
      destruct item as [job|].
      * exists (js ++ [job]). split.
        -- apply Forall_app. split; [exact Hjs|]. constructor; [|constructor].
           apply in_app_or in Hitem. destruct Hitem as [Hin|Hin].
           ++ apply in_map_iff in Hin. destruct Hin as [j [[= ->] Hin]]. exact Hin.
           ++ apply repeat_spec in Hin. discriminate.
        -- left. now rewrite map_app.
      * exists js. split; [exact Hjs | now right].
    + exists (consumed ++ [item]). split.
      * rewrite !concat_app in *. cbn [List.concat] in *.
        rewrite <- !app_assoc.
        apply Permutation_trans
          with ((List.concat before ++ map Some js ++ List.concat after) ++ [item]).
        -- now apply Permutation_app_tail.
        -- rewrite <- !app_assoc. apply Permutation_app_head, Permutation_app_head.
           cbn. apply Permutation_sym, Permutation_cons_append.
      * rewrite <- Heq, <- !app_assoc. reflexivity.
Qed.

Lemma sound_steps (n : nat) (m m' : Pool.moment) :
  steps n m m' -> sound m -> sound m'.
Proof.
  induction 1 as [|n m1 m2 m3 _ IH Hstep]; intros Hm; [exact Hm|].
  apply sound_step with m2; [now apply IH | exact Hstep].
Qed.

(** Every step takes one item one place further: from the main process to
    the queue, or from the queue to a worker. *)
Lemma steps_bound (n : nat) (m m' : Pool.moment) :
  steps n m m' ->
  (2 * List.length (fst m) + List.length (Pool.tiles_queue (snd m)) =
   2 * List.length (fst m') + List.length (Pool.tiles_queue (snd m')) + n)%nat.
Proof.
  induction 1 as [|n m1 m2 m3 _ IH Hstep]; [lia|]. rewrite IH.
  destruct Hstep; cbn [fst snd Pool.tiles_queue List.length];
    rewrite ?length_app; cbn [List.length]; lia.
Qed.

Lemma sound_joined (todo : list (option SeedJob)) (self : Pool.t) :
  (0 < size)%nat -> sound (todo, self) -> joined self ->
  todo = [] /\ Pool.tiles_queue self = [] /\
  Permutation (List.concat (Pool.procs self)) (map Some jobs ++ repeat None size).
Proof.
  intros Hsize [Hlen [Htidy [consumed [Hperm Heq]]]] Hj.
  cbn [fst snd] in *.
  assert (Hrest : Pool.tiles_queue self ++ todo = []).
  { apply (nothing_behind_the_sentinels consumed _ jobs size Heq); [|exact Hsize].
    rewrite (sentinels_permutation _ _ Hperm), <- Hlen.
    now apply sentinels_of_the_ended. }
  apply app_eq_nil in Hrest. destruct Hrest as [Hq Ht].
  split; [exact Ht | split; [exact Hq|]].
  rewrite Hq, Ht, !app_nil_r in Heq. rewrite <- Heq. now apply Permutation_sym.
Qed.

Lemma sound_idle (todo : list (option SeedJob)) (self : Pool.t) :
  sound (todo, self) -> idle (todo, self) -> joined self.
Proof.
  intros [Hlen [Htidy [consumed [Hperm Heq]]]] Hidle. cbn [fst snd] in *.
  destruct self as [queue procs]. cbn [Pool.procs Pool.tiles_queue] in *.
  unfold Pool.joined. cbn [Pool.procs].
  destruct queue as [|item queue].
  - destruct todo as [|item todo].
    + rewrite !app_nil_r in Heq. subst consumed.
      apply (sentinels_of_the_tidy procs Htidy).
      rewrite <- (sentinels_permutation _ _ Hperm).
      rewrite sentinels_app, sentinels_jobs, sentinels_repeat. lia.
    + exfalso. eapply Hidle. apply Pool.step_put. cbn. unfold Pool.maxsize. lia.
  - apply Forall_forall. intros taken Hin Hw.
    apply in_split in Hin. destruct Hin as [before [after ->]].
    eapply Hidle. now apply Pool.step_get.
Qed.

End no_failure.

(** C8 (as amended).  A pool of [size >= 1] workers, the jobs put by [seed]
    and then the sentinels put by [stop], one for each worker, when no load
    lets an exception escape (or in a dry run).  However the puts of the
    main process and the gets of the workers interleave: (1) nothing moves
    after at most two steps per item; (2) when nothing moves any more, or
    at any moment at which the joins of [stop] return, every item has been
    put and taken; every worker took some of the jobs and then exactly one
    sentinel, handled each of these jobs in the order taken, and returned;
    and the items taken are, worker by worker, the jobs and the sentinels:
    no job was dropped and none handled twice. *)
Theorem stop_joins_every_worker :
  forall (size : nat) (jobs : list SeedJob) (n : nat)
         (todo : list (option SeedJob)) (self : Pool.t),
  (0 < size)%nat ->
  (dry_run = true \/ forall job, In job jobs -> load (fst job) = None) ->
  steps n (map Pool.seed jobs ++ Pool.stop (Pool.__init__ size),
           Pool.__init__ size)
        (todo, self) ->
  (n <= 2 * (List.length jobs + size))%nat /\
  (idle (todo, self) \/ joined self ->
   todo = [] /\
   Pool.tiles_queue self = [] /\
   joined self /\
   List.length (Pool.procs self) = size /\
   Forall (fun taken =>
             exists js,
               taken = map Some js ++ [None] /\
               SeedWorker.run dry_run load taken =
               (flat_map (SeedWorker.handled dry_run) js,
                SeedWorker.Exited, []))
          (Pool.procs self) /\
   Permutation (List.concat (Pool.procs self)) (map Some jobs ++ repeat None size)).
Proof.
  intros size jobs n todo self Hsize Hloads Hsteps.
  change (map Pool.seed jobs) with (map Some jobs) in Hsteps. split.
  - apply steps_bound in Hsteps.
    unfold Pool.stop, Pool.__init__ in Hsteps.
    cbn [fst snd Pool.tiles_queue Pool.procs List.length] in Hsteps.
    rewrite length_app, length_map, !repeat_length in Hsteps. lia.
  - intros Hend.
    pose proof (sound_steps jobs size Hloads _ _ _ Hsteps
                  (sound_start jobs size)) as Hsound.
    assert (Hj : joined self).
    { destruct Hend as [Hidle|Hj]; [|exact Hj].
      now apply (sound_idle jobs size Hloads todo). }
    destruct (sound_joined jobs size Hloads todo self Hsize Hsound Hj)
      as [Ht [Hq Hperm]].
    destruct Hsound as [Hlen [Htidy _]]. cbn [snd] in Hlen, Htidy.
    repeat (split; [assumption|]). split; [|exact Hperm].
    unfold Pool.joined in Hj. rewrite Forall_forall in Hj, Htidy |- *.
    intros taken Hin.
    destruct (tidy_ended jobs Hloads taken (Htidy _ Hin) (Hj _ Hin))
      as [js [Hjs ->]].
    exists js. split; [reflexivity | now apply (run_jobs_sentinel jobs Hloads)].
Qed.

End pool_properties.

(** ** Seeding the caches of a view *)

Section view_properties.
Context {grid_module : GridModule} {srs_module : SrsModule} {shapely : Shapely}.
Variable srs_eq : SRS -> SRS -> bool.
Variable Timestamp : Type.
Variable timestamp_truth : Timestamp -> bool.

Abbreviation seed_view_from :=
  (CacheSeeder.seed_view_from srs_eq timestamp_truth).
Abbreviation seed_view :=
  (CacheSeeder.seed_view srs_eq timestamp_truth).
Abbreviation selected_from := (CacheSeeder.selected_from srs_eq).

Lemma running_app (log1 log2 : list CacheSeeder.event) :
  forall pools,
  CacheSeeder.running (log1 ++ log2) pools =
  CacheSeeder.running log2 (CacheSeeder.running log1 pools).
Proof.
  induction log1 as [|e log1 IH]; intros pools; [reflexivity|].
  destruct e; cbn; apply IH.
Qed.

Lemma one_pool_snoc (log : list CacheSeeder.event) (e : CacheSeeder.event) :
  CacheSeeder.one_pool_at_a_time log ->
  (List.length (CacheSeeder.running (log ++ [e]) []) <= 1)%nat ->
  CacheSeeder.one_pool_at_a_time (log ++ [e]).
Proof.
  intros Hlog He pre post Heq.
  destruct post as [|x post] using rev_ind.
  - rewrite app_nil_r in Heq. now subst pre.
  - rewrite app_assoc in Heq. apply app_inj_tail in Heq.
    destruct Heq as [Heq _]. now apply (Hlog pre post).
Qed.

(** One round of the loop: the log of a cache whose pool was started, and
    of a cache whose pass returned. *)
Lemma pool_started (self : CacheSeeder.t Timestamp) (i : nat)
    (log : list CacheSeeder.event) :
  CacheSeeder.running log [] = [] ->
  CacheSeeder.one_pool_at_a_time log ->
  let log1 :=
    (if timestamp_truth (CacheSeeder.remove_before self)
     then log ++ [CacheSeeder.ExpireSet i] else log) ++
    [CacheSeeder.PoolStarted i (CacheSeeder.concurrency self)
       (CacheSeeder.dry_run self)] in
  CacheSeeder.running log1 [] = [i] /\ CacheSeeder.one_pool_at_a_time log1.
Proof.
  intros Hrun Hone log1. subst log1.
  destruct (timestamp_truth (CacheSeeder.remove_before self)).
  - assert (H1 : CacheSeeder.running (log ++ [CacheSeeder.ExpireSet i]) [] = [])
      by (rewrite running_app, Hrun; reflexivity).
    assert (H2 : CacheSeeder.one_pool_at_a_time (log ++ [CacheSeeder.ExpireSet i]))
      by (apply one_pool_snoc; [exact Hone | rewrite H1; cbn; lia]).
    split.
    + rewrite running_app, H1. reflexivity.
    + apply one_pool_snoc; [exact H2|].
      rewrite running_app, H1. cbn. lia.
  - split.
    + rewrite running_app, Hrun. reflexivity.
    + apply one_pool_snoc; [exact Hone|].
      rewrite running_app, Hrun. cbn. lia.
Qed.

Lemma pool_stopped (i : nat) (s : state) (log1 : list CacheSeeder.event) :
  CacheSeeder.running log1 [] = [i] ->
  CacheSeeder.one_pool_at_a_time log1 ->
  let log2 := log1 ++ [CacheSeeder.Seeded i s; CacheSeeder.PoolStopped i] in
  CacheSeeder.running log2 [] = [] /\ CacheSeeder.one_pool_at_a_time log2.
Proof.
  intros Hrun Hone log2. subst log2.
  change [CacheSeeder.Seeded i s; CacheSeeder.PoolStopped i]
    with ([CacheSeeder.Seeded i s] ++ [CacheSeeder.PoolStopped i]).
  rewrite app_assoc.
  assert (H1 : CacheSeeder.running (log1 ++ [CacheSeeder.Seeded i s]) [] = [i])
    by (rewrite running_app, Hrun; reflexivity).
  assert (H2 : CacheSeeder.one_pool_at_a_time (log1 ++ [CacheSeeder.Seeded i s]))
    by (apply one_pool_snoc; [exact Hone | rewrite H1; cbn; lia]).
  assert (H3 : CacheSeeder.running
                 ((log1 ++ [CacheSeeder.Seeded i s]) ++
                  [CacheSeeder.PoolStopped i]) [] = []).
  { rewrite running_app, H1. cbn. now rewrite Nat.eqb_refl. }
  split; [exact H3|].
  apply one_pool_snoc; [exact H2 | rewrite H3; cbn; lia].
Qed.

Lemma seed_view_from_pools (self : CacheSeeder.t Timestamp)
    (bbox : BBox) (level : Z * Z) (srs : option SRS)
    (cache_srs : option (list SRS)) (geom : option geometry)
    (rest : list CacheSeeder.cache) :
  forall i log,
  CacheSeeder.running log [] = [] ->
  CacheSeeder.one_pool_at_a_time log ->
  CacheSeeder.pools_left
    (seed_view_from self i rest bbox level srs cache_srs geom log).
Proof.
  induction rest as [|c rest IH]; intros i log Hrun Hone;
    cbn [CacheSeeder.seed_view_from].
  - now split.
  - destruct (CacheSeeder.selected srs_eq cache_srs c); [|now apply IH].
    destruct (pool_started self i log Hrun Hone) as [Hrun1 Hone1].
    cbv zeta in Hrun1, Hone1.
    set (log1 := (if timestamp_truth (CacheSeeder.remove_before self)
                  then log ++ [CacheSeeder.ExpireSet i] else log) ++
                 [CacheSeeder.PoolStarted i (CacheSeeder.concurrency self)
                    (CacheSeeder.dry_run self)]) in *.
    assert (Habort : forall e,
              CacheSeeder.pools_left (CacheSeeder.Aborted log1 e)).
    { intros e. split; [|exact Hone1].
      eexists i, _, _, _. split; [reflexivity | exact Hrun1]. }
    destruct (SeedTask.__init__ bbox level srs (CacheSeeder.cache_grid_srs c) geom)
      as [seed_task|e]; [|apply Habort].
    destruct (@Seeder.seed (CacheSeeder.cache_grid c) _ _ _ seed_task
                Seeder.__init__) as [u s|e s|s] eqn:Hseed.
    + destruct (pool_stopped i s log1 Hrun1 Hone1) as [Hrun2 Hone2].
      now apply IH.
    + apply Habort.
    + now apply (@seed_terminates (CacheSeeder.cache_grid c)) in Hseed.
Qed.

(** X20.  [seed_view] runs one pool at a time.  If it returns, every pool
    it started has been stopped, each before the next was started.  If an
    exception escapes, from the construction of a task or from a pass, the
    pool of the cache at hand had been started, is the last thing logged,
    and is never stopped; no later cache is touched. *)
Theorem seed_view_pools :
  forall self bbox level srs cache_srs geom,
  match seed_view self bbox level srs cache_srs geom with
  | CacheSeeder.Completed log =>
      CacheSeeder.running log [] = [] /\ CacheSeeder.one_pool_at_a_time log
  | CacheSeeder.Aborted log e =>
      (exists i size dry_run front,
         log = front ++ [CacheSeeder.PoolStarted i size dry_run] /\
         CacheSeeder.running log [] = [i]) /\
      CacheSeeder.one_pool_at_a_time log
  | CacheSeeder.Stuck _ => False
  end.
Proof.
  intros self bbox level srs cache_srs geom.
  apply (seed_view_from_pools self bbox level srs cache_srs geom
           (CacheSeeder.caches self) 0%nat []).
  - reflexivity.
  - intros pre post Heq. symmetry in Heq. apply app_eq_nil in Heq.
    destruct Heq as [-> _]. cbn. lia.
Qed.

Lemma started_app (log1 log2 : list CacheSeeder.event) :
  CacheSeeder.started (log1 ++ log2) =
  CacheSeeder.started log1 ++ CacheSeeder.started log2.
Proof. apply flat_map_app. Qed.

Lemma seed_view_from_started (self : CacheSeeder.t Timestamp)
    (bbox : BBox) (level : Z * Z) (srs : option SRS)
    (cache_srs : option (list SRS)) (geom : option geometry)
    (rest : list CacheSeeder.cache) :
  forall i log,
  exists more,
    CacheSeeder.started log ++ selected_from cache_srs i rest =
    CacheSeeder.started
      (CacheSeeder.log_of
         (seed_view_from self i rest bbox level srs cache_srs geom log)) ++ more /\
    (forall log',
       seed_view_from self i rest bbox level srs cache_srs geom log =
         CacheSeeder.Completed log' -> more = []).
Proof.
  induction rest as [|c rest IH]; intros i log;
    cbn [CacheSeeder.seed_view_from CacheSeeder.selected_from
         CacheSeeder.log_of].
  - exists []. split; [reflexivity | reflexivity].
  - destruct (CacheSeeder.selected srs_eq cache_srs c); [|apply IH].
    set (log1 := (if timestamp_truth (CacheSeeder.remove_before self)
                  then log ++ [CacheSeeder.ExpireSet i] else log) ++
                 [CacheSeeder.PoolStarted i (CacheSeeder.concurrency self)
                    (CacheSeeder.dry_run self)]).
    assert (H1 : CacheSeeder.started log1 = CacheSeeder.started log ++ [i]).
    { unfold log1. destruct (timestamp_truth _); rewrite !started_app; cbn;
        now rewrite ?app_nil_r. }
    assert (Hstop : exists more,
              CacheSeeder.started log ++ i :: selected_from cache_srs (S i) rest =
              CacheSeeder.started log1 ++ more).
    { exists (selected_from cache_srs (S i) rest).
      rewrite H1, <- app_assoc. reflexivity. }
    destruct (SeedTask.__init__ bbox level srs (CacheSeeder.cache_grid_srs c) geom)
      as [seed_task|e].
    + destruct (@Seeder.seed (CacheSeeder.cache_grid c) _ _ _ seed_task
                  Seeder.__init__) as [u s|e s|s].
      * destruct (IH (S i) (log1 ++ [CacheSeeder.Seeded i s;
                                     CacheSeeder.PoolStopped i]))
          as [more [Heq Hdone]].
        exists more. split; [|exact Hdone].
        rewrite <- Heq, started_app, H1. cbn. rewrite app_nil_r.
        now rewrite <- app_assoc.
      * destruct Hstop as [more Hmore]. exists more.
        split; [exact Hmore | discriminate].
      * destruct Hstop as [more Hmore]. exists more.
        split; [exact Hmore | discriminate].
    + destruct Hstop as [more Hmore]. exists more.
      split; [exact Hmore | discriminate].
Qed.

Lemma selected_from_all (cache_srs : option (list SRS))
    (rest : list CacheSeeder.cache) :
  cache_srs = None \/ cache_srs = Some [] ->
  forall i, selected_from cache_srs i rest = seq i (List.length rest).
Proof.
  intros Hall. induction rest as [|c rest IH]; intros i; [reflexivity|].
  cbn. replace (CacheSeeder.selected srs_eq cache_srs c) with true
    by (destruct Hall as [-> | ->]; reflexivity).
  now rewrite IH.
Qed.

(** X21.  [seed_view] starts a pool for the caches whose grid SRS is among
    [cache_srs], in the order of [self.caches], and for no other cache: for
    all of those caches if it returns, for a first part of them if an
    exception escapes.  With [cache_srs] missing or empty every cache is
    taken. *)
Theorem seed_view_selects :
  forall self bbox level srs cache_srs geom,
  (exists more,
     selected_from cache_srs 0 (CacheSeeder.caches self) =
     CacheSeeder.started
       (CacheSeeder.log_of (seed_view self bbox level srs cache_srs geom)) ++
     more /\
     (forall log,
        seed_view self bbox level srs cache_srs geom =
          CacheSeeder.Completed log -> more = [])) /\
  (cache_srs = None \/ cache_srs = Some [] ->
   selected_from cache_srs 0 (CacheSeeder.caches self) =
   seq 0 (List.length (CacheSeeder.caches self))).
Proof.
  intros self bbox level srs cache_srs geom. split.
  - apply (seed_view_from_started self bbox level srs cache_srs geom
             (CacheSeeder.caches self) 0%nat []).
  - intros Hall. now apply selected_from_all.
Qed.

End view_properties.

(** ** The shapely guard *)

Section guard_properties.
Context {grid_module : GridModule} {srs_module : SrsModule} {shapely : Shapely}.

Lemma transform_geometry_with_shapely (from_srs : option SRS) (to_srs : SRS)
    (g : geometry) (e : exn) :
  shapely_present = true ->
  SeedTask.transform_geometry from_srs to_srs g = Error e ->
  e = AttributeError.
Proof.
  intros Hs. destruct from_srs as [s|].
  - destruct (plain g) eqn:Hplain.
    + rewrite (transform_geometry_maps _ _ _ Hs Hplain). discriminate.
    + destruct g; try discriminate; cbn; congruence.
  - destruct g as [p|[|p ps]| |c]; cbn; unfold shapely_name; try rewrite Hs;
      cbn; congruence.
Qed.

(** X22.  [check_shapely] as a guard.  Once it has returned, no
    [NameError] is left in what follows: the construction of a task does
    not raise it, the region predicate of any task returns, and no pass,
    over any grid, raises it. *)
Theorem check_shapely_guards :
  check_shapely = Ok tt ->
  (forall bbox level bbox_srs seed_srs geom,
     SeedTask.__init__ bbox level bbox_srs seed_srs geom <> Error NameError) /\
  (forall (task : SeedTask.t) bbox,
     exists c, SeedTask.intersects task bbox = Ok c) /\
  (forall (grid : MetaGrid) (task : SeedTask.t) s s',
     Seeder.seed task s <> Raise NameError s').
Proof.
  unfold check_shapely.
  destruct shapely_present eqn:Hs; intros H0;
    [clear H0 | cbn in H0; discriminate H0].
  split; [|split].
  - intros bbox level bbox_srs seed_srs geom.
    unfold SeedTask.__init__.
    destruct (SeedTask.srs_differ bbox_srs seed_srs); [|discriminate].
    destruct geom as [g|].
    + destruct (SeedTask.transform_geometry bbox_srs seed_srs g)
        as [[g'|]|e'] eqn:Ht; cbn.
      * unfold shapely_name. rewrite Hs. discriminate.
      * discriminate.
      * apply transform_geometry_with_shapely in Ht; [|exact Hs].
        subst e'. discriminate.
    + destruct bbox_srs; cbn; discriminate.
  - intros task bbox. apply intersects_defined. now right.
  - intros grid task s s' Hrun.
    pose proof (_seed_fails task
                  (S (Z.to_nat (SeedTask.max_level task -
                                SeedTask.start_level task)))
                  (SeedTask.bbox task) (SeedTask.start_level task)
                  "" 1%Q false s) as H.
    unfold wp in H. fold (Seeder.seed task) in H. rewrite Hrun in H.
    destruct (H NameError eq_refl) as [Hno _]. congruence.
Qed.

End guard_properties.


(** ** The sample world, run *)

Import Sample.

Example lower_half_jobs :
  submitted (trace (final (Seeder.seed lower_half Seeder.__init__))) =
  [ ([Some (0, 0, 2); Some (1, 0, 2); Some (0, 1, 2); Some (1, 1, 2)], "o");
    ([Some (2, 0, 2); Some (3, 0, 2); Some (2, 1, 2); Some (3, 1, 2)], "0");
    ([Some (0, 0, 1); Some (1, 0, 1)], "") ]%string.
Proof. vm_compute. reflexivity. Qed.

Example point_pass_raises :
  exists s', Seeder.seed point Seeder.__init__ = Raise ZeroDivisionError s' /\
             submitted (trace s') = [].
Proof. eexists. split; vm_compute; reflexivity. Qed.

Example status_symbol_single : status_symbol 0 1 = Ok "0"%string.
Proof. reflexivity. Qed.

Example status_symbol_negative : status_symbol (-3) (-5) = Ok "o"%string.
Proof. reflexivity. Qed.

Lemma every_visit_submits_its_tile_list_witness :
  Seeder._seed lower_half 2 (0, 0, 1, 1 # 2)%Q 1 "" 1%Q false Seeder.__init__ =
    Return tt lower_half_end /\
  exists seg,
    trace lower_half_end = trace Seeder.__init__ ++ seg /\
    Permutation (owed seg) (submitted seg) /\
    Forall (visited_between 1 (Z.max 1 (SeedTask.max_level lower_half))) seg.
Proof.
  assert (H : Seeder._seed lower_half 2 (0, 0, 1, 1 # 2)%Q 1 "" 1%Q false
                Seeder.__init__ = Return tt lower_half_end)
    by (vm_compute; reflexivity).
  split; [exact H|].
  exact (every_visit_submits_its_tile_list lower_half _ _ _ _ _ _ _ _ H).
Defined.

(** The batch of the one job of this pass holds a placeholder. *)
Lemma placeholders_are_submitted :
  ~ placeholders_skipped (trace (final (Seeder.seed overhang Seeder.__init__))).
Proof.
  intros H.
  apply (H ([None; Some (0, 0, 1)], (""%string, 1%Q))).
  - vm_compute. right. right. left. reflexivity.
  - left. reflexivity.
Qed.

Lemma progress_sums_to_one_witness :
  Seeder.seed whole Seeder.__init__ = Return tt whole_end /\
  (progress whole_end == 1)%Q.
Proof.
  assert (H : Seeder.seed whole Seeder.__init__ = Return tt whole_end)
    by (vm_compute; reflexivity).
  split; [exact H|].
  exact (progress_sums_to_one whole whole_end H).
Defined.

(** Construction accepts a reversed level range; the pass that follows
    does its seeding work, at level 3. *)
Lemma reversed_levels_are_accepted :
  SeedTask.__init__ (0, 0, 1 # 8, 1 # 8)%Q (3, 1) (Some epsg4326) epsg4326 None =
    Ok reversed /\
  SeedTask.start_level reversed > SeedTask.max_level reversed /\
  exists s',
    Seeder.seed reversed Seeder.__init__ = Return tt s' /\
    submitted (trace s') = [([Some (0, 0, 3)], ""%string)].
Proof.
  split; [reflexivity | split; [reflexivity|]].
  eexists. split; vm_compute; reflexivity.
Qed.

Lemma task_construction_is_unchecked_witness :
  shapely_present = false /\
  srs_ne epsg4326 Fixtures.epsg3857 = true /\
  plain Fixtures.triangle = true /\
  SeedTask.__init__ unit_square (3, 1) (Some epsg4326) Fixtures.epsg3857
    (Some Fixtures.triangle) = Error NameError.
Proof.
  assert (H1 : shapely_present = false) by reflexivity.
  assert (H2 : srs_ne epsg4326 Fixtures.epsg3857 = true) by reflexivity.
  assert (H3 : plain Fixtures.triangle = true) by reflexivity.
  split; [exact H1 | split; [exact H2 | split; [exact H3|]]].
  exact (proj2 (proj2 (proj2 (proj2 task_construction_is_unchecked)) H1
                  unit_square (3, 1) epsg4326 Fixtures.epsg3857
                  Fixtures.triangle) H2 H3).
Defined.

(** With the range (3, 1) the one update of the pass happens at level 3. *)
Lemma update_above_max_level :
  ~ Forall (update_at (SeedTask.max_level reversed))
      (trace (final (Seeder.seed reversed Seeder.__init__))).
Proof.
  intros H. rewrite Forall_forall in H.
  assert (Hin : In (Update 3 1%Q)
                  (trace (final (Seeder.seed reversed Seeder.__init__))))
    by (vm_compute; right; left; reflexivity).
  apply H in Hin. discriminate Hin.
Qed.

Lemma bbox_classification_witness :
  SeedTask.geom lower_half = None /\
  SeedTask.intersects lower_half (0, 0, 1 # 2, 1 # 2)%Q = Ok CONTAINS /\
  SeedTask.intersects lower_half (0, 1 # 4, 1 # 2, 3 # 4)%Q = Ok INTERSECTS /\
  SeedTask.intersects lower_half (0, 1 # 2, 1 # 2, 1)%Q = Ok NONE.
Proof.
  split; [reflexivity|].
  split; [|split].
  - apply (proj1 (bbox_classification lower_half (0, 0, 1 # 2, 1 # 2)%Q eq_refl)).
    reflexivity.
  - apply (proj1 (proj2
             (bbox_classification lower_half (0, 1 # 4, 1 # 2, 3 # 4)%Q eq_refl))).
    split; reflexivity.
  - apply (proj2 (proj2
             (bbox_classification lower_half (0, 1 # 2, 1 # 2, 1)%Q eq_refl))).
    split; reflexivity.
Defined.

Lemma status_symbol_tables_witness :
  (0 <= 4 \/ 0 <= 4) /\ 4 + 1 > 4 /\ status_symbol 4 4 = Ok "X"%string.
Proof.
  assert (H1 : 0 <= 4 \/ 0 <= 4) by (left; lia).
  assert (H2 : 4 + 1 > 4) by lia.
  split; [exact H1 | split; [exact H2|]].
  exact (proj2 (proj2 status_symbol_tables) 4 4 H1 H2).
Defined.

Lemma no_survivor_raises_witness :
  1 < SeedTask.max_level point /\
  all_none point false (subtiles_of unit_square 1) /\
  exists s',
    Seeder._seed point 1 unit_square 1 "0" 1%Q false Seeder.__init__ =
      Raise ZeroDivisionError s' /\
    progress s' = progress Seeder.__init__ /\
    exists seg,
      trace s' =
        trace Seeder.__init__ ++ Call unit_square 1 "0" 1%Q false :: seg /\
      Forall is_intersects seg.
Proof.
  assert (H1 : 1 < SeedTask.max_level point) by reflexivity.
  assert (H2 : all_none point false (subtiles_of unit_square 1)).
  { unfold all_none.
    replace (subtiles_of unit_square 1)
      with [Some (0, 0, 1); Some (1, 0, 1); Some (0, 1, 1); Some (1, 1, 1)]
      by (vm_compute; reflexivity).
    repeat (apply Forall_cons; [intros t [= <-]; split; reflexivity|]).
    apply Forall_nil. }
  split; [exact H1 | split; [exact H2|]].
  exact (no_survivor_raises point 0%nat unit_square 1 "0" 1%Q false
           Seeder.__init__ H1 H2).
Defined.

(** The tree of the pass over [lower_half]: two survivors at level 1, and
    under the start-level visit their two visits, whose jobs come first. *)
Example lower_half_tree :
  descent lower_half 1 (0, 0, 1, 1 # 2)%Q 1 "" false =
  Visit [Some (0, 0, 1); Some (1, 0, 1)] ""
    [ Visit [Some (0, 0, 2); Some (1, 0, 2); Some (0, 1, 2); Some (1, 1, 2)]
        "o" [];
      Visit [Some (2, 0, 2); Some (3, 0, 2); Some (2, 1, 2); Some (3, 1, 2)]
        "0" [] ].
Proof. vm_compute. reflexivity. Qed.

Lemma jobs_are_enqueued_in_post_order_witness :
  Seeder.seed lower_half Seeder.__init__ = Return tt lower_half_end /\
  exists seg,
    trace lower_half_end = trace Seeder.__init__ ++ seg /\
    submitted seg =
      post_order (descent lower_half 1 (0, 0, 1, 1 # 2)%Q 1 "" false).
Proof.
  assert (H : Seeder.seed lower_half Seeder.__init__ = Return tt lower_half_end)
    by (vm_compute; reflexivity).
  split; [exact H|].
  destruct (proj2 (jobs_are_enqueued_in_post_order lower_half) _ _ H)
    as [seg [Ht [Hpo _]]].
  exists seg. split; [exact Ht | exact Hpo].
Defined.

(** *** More runs *)

Import Fixtures.

Example two_layers :
  caches_from_layer
    (Layer (Some [ Layer None (Some [ {| source_cache := Some 1%nat |};
                                      {| source_cache := None |};
                                      {| source_cache := Some 2%nat |} ]) None;
                   Layer (Some []) None (Some 3%nat) ])
           None None) = Ok [1; 2; 3]%nat.
Proof. reflexivity. Qed.

Example layer_without_cache :
  caches_from_layer (Layer None None (None : option nat)) = Error AttributeError.
Proof. reflexivity. Qed.

Lemma status_symbol_bucket_witness :
  0 <= 6 < 10 /\
  float_safe 10 /\
  1 <= bucket 6 10 <= 4 /\
  status_symbol 6 10 =
    Ok (nth (Z.to_nat (bucket 6 10 - 1)) bucket_glyphs ""%string).
Proof.
  assert (H : 0 <= 6 < 10) by lia.
  assert (Hn : float_safe 10) by (vm_compute; discriminate).
  split; [exact H | split; [exact Hn | exact (status_symbol_bucket 6 10 H Hn)]].
Defined.

Lemma status_symbol_of_position_witness :
  0 <= 7 /\
  float_safe 3 /\
  exists c,
    status_symbol 7 3 = Ok c /\
    In c (bucket_glyphs ++ ["X"]%string) /\
    (c = "X"%string <-> 7 + 1 > 3).
Proof.
  assert (H : 0 <= 7) by lia.
  assert (Hn : float_safe 3) by (vm_compute; discriminate).
  split; [exact H | split; [exact Hn|]].
  exact (status_symbol_of_position 7 3 H Hn).
Defined.

Lemma status_symbol_order_witness :
  0 <= 2 /\ 2 <= 5 /\ 5 < 10 /\ float_safe 10 /\
  exists a b,
    status_symbol 2 10 = Ok (nth a bucket_glyphs ""%string) /\
    status_symbol 5 10 = Ok (nth b bucket_glyphs ""%string) /\
    (a <= b < 4)%nat.
Proof.
  assert (H1 : 0 <= 2) by lia.
  assert (H2 : 2 <= 5) by lia.
  assert (H3 : 5 < 10) by lia.
  assert (Hn : float_safe 10) by (vm_compute; discriminate).
  split; [exact H1 | split; [exact H2 | split; [exact H3 | split; [exact Hn|]]]].
  exact (proj1 status_symbol_order 2 5 10 H1 H2 H3 Hn).
Defined.

Lemma status_symbol_errors_witness :
  float_safe (-1) /\ float_safe 0 /\
  (0 = 0 /\ -1 < 0) /\ status_symbol (-1) 0 = Error ZeroDivisionError.
Proof.
  assert (Hi : float_safe (-1)) by (vm_compute; discriminate).
  assert (Hn : float_safe 0) by (vm_compute; discriminate).
  assert (H : 0 = 0 /\ -1 < 0) by (split; [reflexivity | lia]).
  split; [exact Hi | split; [exact Hn | split; [exact H|]]].
  exact (proj2 (proj1 (status_symbol_errors (-1) 0 Hi Hn)) H).
Defined.

Lemma paths_have_one_glyph_per_level_witness :
  In (Call (1 # 2, 0 # 2, 2 # 2, 1 # 2)%Q 2 "0o" (1 # 4)%Q true)
     (trace (final (Seeder.seed whole Seeder.__init__))) /\
  SeedTask.start_level whole <= 2 /\
  glyphs (Z.to_nat (2 - SeedTask.start_level whole)) "0o" /\
  Z.of_nat (String.length "0o") = 2 - SeedTask.start_level whole.
Proof.
  assert (H : In (Call (1 # 2, 0 # 2, 2 # 2, 1 # 2)%Q 2 "0o" (1 # 4)%Q true)
                 (trace (final (Seeder.seed whole Seeder.__init__)))).
  { vm_compute. do 6 right. left. reflexivity. }
  split; [exact H|].
  exact (paths_have_one_glyph_per_level whole _ _ _ _ _ H).
Defined.

Lemma causes_of_a_failed_pass_witness :
  Seeder.seed point Seeder.__init__ =
    Raise ZeroDivisionError (final (Seeder.seed point Seeder.__init__)) /\
  ends_barren point (trace (final (Seeder.seed point Seeder.__init__))).
Proof.
  assert (H : Seeder.seed point Seeder.__init__ =
              Raise ZeroDivisionError (final (Seeder.seed point Seeder.__init__)))
    by (vm_compute; reflexivity).
  split; [exact H|].
  exact (proj1 (causes_of_a_failed_pass point _ _) H).
Defined.

Lemma snapshots_never_decrease_witness :
  Seeder.seed whole Seeder.__init__ = Return tt whole_end /\
  exists front,
    trace whole_end =
      front ++
      [Put (subtiles_of (SeedTask.bbox whole) (SeedTask.start_level whole),
            (""%string, progress whole_end))] /\
    Forall (fun p => (p <= progress whole_end)%Q) (snapshots (trace whole_end)).
Proof.
  assert (H : Seeder.seed whole Seeder.__init__ = Return tt whole_end)
    by (vm_compute; reflexivity).
  split; [exact H|].
  exact (proj2 (snapshots_never_decrease whole) whole_end H).
Defined.

Lemma polygon_pass_without_shapely_witness :
  SeedTask.geom polygon_task = Some triangle /\
  shapely_present = false /\
  SeedTask.start_level polygon_task < SeedTask.max_level polygon_task /\
  In (Some (0, 0, 0))
     (subtiles_of (SeedTask.bbox polygon_task)
        (SeedTask.start_level polygon_task)) /\
  exists s',
    Seeder.seed polygon_task Seeder.__init__ = Raise NameError s' /\
    submitted (trace s') = [] /\
    progress s' = 0%Q.
Proof.
  assert (H1 : SeedTask.geom polygon_task = Some triangle) by reflexivity.
  assert (H2 : shapely_present = false) by reflexivity.
  assert (H3 : SeedTask.start_level polygon_task <
               SeedTask.max_level polygon_task) by reflexivity.
  assert (H4 : In (Some (0, 0, 0))
                  (subtiles_of (SeedTask.bbox polygon_task)
                     (SeedTask.start_level polygon_task)))
    by (vm_compute; left; reflexivity).
  split; [exact H1 | split; [exact H2 | split; [exact H3 | split; [exact H4|]]]].
  exact (polygon_pass_without_shapely polygon_task triangle (0, 0, 0)
           H1 H2 H3 H4).
Defined.

Lemma sub_seeds_filters_in_order_witness :
  (SeedTask.geom lower_half = None \/ shapely_present = true) /\
  Seeder._sub_seeds lower_half [Some (0, 0, 1); None; Some (0, 1, 1)] false
    Seeder.__init__ =
  Return (kept lower_half
            (present_bboxes [Some (0, 0, 1); None; Some (0, 1, 1)]))
         {| progress := progress Seeder.__init__;
            trace := trace Seeder.__init__ ++
                     map Intersects
                       (present_bboxes [Some (0, 0, 1); None; Some (0, 1, 1)]) |}.
Proof.
  assert (H : SeedTask.geom lower_half = None \/ shapely_present = true)
    by (left; reflexivity).
  split; [exact H|].
  exact (sub_seeds_filters_in_order lower_half H _ _).
Defined.

Lemma geom_classification_witness :
  SeedTask.geom polygon_task = Some triangle /\
  shapely_present = false /\
  SeedTask.intersects polygon_task unit_square = Error NameError.
Proof.
  assert (H1 : SeedTask.geom polygon_task = Some triangle) by reflexivity.
  assert (H2 : shapely_present = false) by reflexivity.
  split; [exact H1 | split; [exact H2|]].
  exact (proj2 (geom_classification polygon_task triangle unit_square H1) H2).
Defined.

Lemma transform_geometry_maps_rings_witness :
  shapely_present (Shapely := with_shapely) = true /\
  plain triangle = true /\
  SeedTask.transform_geometry (shapely := with_shapely)
    (Some epsg4326) epsg3857 triangle =
  Ok (Some (map_geometry (transform_to epsg4326 epsg3857) triangle)).
Proof.
  assert (H1 : shapely_present (Shapely := with_shapely) = true) by reflexivity.
  assert (H2 : plain triangle = true) by reflexivity.
  split; [exact H1 | split; [exact H2|]].
  exact (proj1 (transform_geometry_maps_rings (shapely := with_shapely)
                  H1 epsg4326 epsg3857 triangle H2)).
Defined.

Lemma construction_reprojects_witness :
  srs_ne epsg4326 epsg3857 = true /\
  SeedTask.__init__ unit_square (0, 2) (Some epsg4326) epsg3857 None =
    Ok {| SeedTask.start_level := 0;
          SeedTask.max_level := 2;
          SeedTask.bbox_srs := Some epsg4326;
          SeedTask.seed_srs := epsg3857;
          SeedTask.bbox := transform_bbox_to epsg4326 epsg3857 unit_square;
          SeedTask.geom := None |}.
Proof.
  assert (H : srs_ne epsg4326 epsg3857 = true) by reflexivity.
  split; [exact H|].
  exact (proj1 (construction_reprojects unit_square (0, 2) epsg4326 epsg3857 H)).
Defined.

Lemma construction_fails_exactly_witness :
  (srs_ne epsg4326 epsg3857 = true /\
   exists g,
     Some triangle = Some g /\
     if plain g then shapely_present = false /\ NameError = NameError
     else NameError = AttributeError) /\
  SeedTask.__init__ unit_square (0, 2) (Some epsg4326) epsg3857
    (Some triangle) = Error NameError.
Proof.
  assert (H : srs_ne epsg4326 epsg3857 = true /\
              exists g,
                Some triangle = Some g /\
                if plain g then shapely_present = false /\ NameError = NameError
                else NameError = AttributeError).
  { split; [reflexivity|]. exists triangle. now repeat split. }
  split; [exact H|].
  exact (proj2 (proj1 construction_fails_exactly unit_square (0, 2)
                  epsg4326 epsg3857 (Some triangle) NameError) H).
Defined.

Lemma worker_stops_at_the_sentinel_witness :
  (false = true \/
   forall job, In job [job_a; job_b] -> load_nonempty (fst job) = None) /\
  SeedWorker.run false load_nonempty
    (map Some [job_a; job_b] ++ None :: [Some job_empty; None]) =
  (flat_map (SeedWorker.handled false) [job_a; job_b],
   SeedWorker.Exited, [Some job_empty; None]).
Proof.
  assert (H : false = true \/
              forall job, In job [job_a; job_b] ->
                          load_nonempty (fst job) = None).
  { right. intros job [<-|[<-|[]]]; reflexivity. }
  split; [exact H|].
  exact (worker_stops_at_the_sentinel unit load_nonempty false
           [job_a; job_b] [Some job_empty; None] H).
Defined.

Lemma worker_dies_on_a_failed_load_witness :
  (forall job, In job [job_a] -> load_nonempty (fst job) = None) /\
  load_nonempty [] = Some tt /\
  SeedWorker.run false load_nonempty
    (map Some [job_a] ++ Some ([], ("0"%string, 1%Q)) :: [Some job_b; None]) =
  (flat_map (SeedWorker.handled false) [job_a] ++
   [SeedWorker.Print "0" (1 * 100)%Q; SeedWorker.Load []],
   SeedWorker.Died tt, [Some job_b; None]).
Proof.
  assert (H1 : forall job, In job [job_a] -> load_nonempty (fst job) = None)
    by (intros job [<-|[]]; reflexivity).
  assert (H2 : load_nonempty [] = Some tt) by reflexivity.
  split; [exact H1 | split; [exact H2|]].
  exact (worker_dies_on_a_failed_load unit load_nonempty
           [job_a] [] ("0"%string, 1%Q) tt [Some job_b; None] H1 H2).
Defined.

Lemma dry_run_loads_nothing_witness :
  SeedWorker.run true load_nonempty [Some job_empty; Some job_a] =
    ([SeedWorker.Print "0" (1 * 100)%Q; SeedWorker.Print "." ((1 # 2) * 100)%Q],
     SeedWorker.Waiting, []) /\
  (forall tiles,
     ~ In (SeedWorker.Load tiles)
          [SeedWorker.Print "0" (1 * 100)%Q;
           SeedWorker.Print "." ((1 # 2) * 100)%Q]) /\
  (forall f : unit, SeedWorker.Waiting <> SeedWorker.Died f) /\
  (SeedWorker.Waiting = SeedWorker.Exited (Failure := unit) <->
   In None [Some job_empty; Some job_a]).
Proof.
  assert (H : SeedWorker.run true load_nonempty [Some job_empty; Some job_a] =
              ([SeedWorker.Print "0" (1 * 100)%Q;
                SeedWorker.Print "." ((1 # 2) * 100)%Q],
               SeedWorker.Waiting, [])) by reflexivity.
  split; [exact H|].
  exact (dry_run_loads_nothing unit load_nonempty _ _ _ _ H).
Defined.

Lemma seed_view_selects_witness :
  ((None : option (list SRS)) = None \/ (None : option (list SRS)) = Some []) /\
  CacheSeeder.selected_from Z.eqb None 0 (CacheSeeder.caches two_caches) =
  seq 0 (List.length (CacheSeeder.caches two_caches)).
Proof.
  assert (H : (None : option (list SRS)) = None \/
              (None : option (list SRS)) = Some []) by (left; reflexivity).
  split; [exact H|].
  exact (proj2 (seed_view_selects Z.eqb (option Q) float_truth two_caches
                  unit_square (0, 1) (Some epsg4326) None None) H).
Defined.

Example two_caches_one_srs :
  CacheSeeder.started
    (CacheSeeder.log_of
       (CacheSeeder.seed_view Z.eqb float_truth two_caches
          unit_square (0, 1) (Some epsg4326) (Some [epsg3857]) None)) = [1%nat].
Proof. vm_compute. reflexivity. Qed.

Lemma check_shapely_guards_witness :
  check_shapely (H := with_shapely) = Ok tt /\
  exists c,
    SeedTask.intersects (shapely := with_shapely) polygon_task unit_square =
    Ok c.
Proof.
  assert (H : check_shapely (H := with_shapely) = Ok tt) by reflexivity.
  split; [exact H|].
  exact (proj1 (proj2 (check_shapely_guards (shapely := with_shapely) H))
           polygon_task unit_square).
Defined.

(** *** The pool, run *)

(** One worker, outside a dry run, and a loader that fails on the first
    job.  The main process puts two jobs and then, in [stop], the sentinel;
    the worker takes the first job and dies in its load.  Nothing moves any
    more and the join of [stop] returns, but the worker has taken no
    sentinel, and the second job, put before [stop] was called, is still on
    the queue: it is never loaded. *)
Lemma a_dead_worker_drops_jobs :
  load_nonempty (fst job_empty) = Some tt /\
  SeedWorker.run false load_nonempty [Some job_empty; Some job_b; None] =
    ([SeedWorker.Print "0" (1 * 100)%Q; SeedWorker.Load []],
     SeedWorker.Died tt, [Some job_b; None]) /\
  exists self,
    Pool.steps false load_nonempty 4
      (map Pool.seed [job_empty; job_b] ++ Pool.stop (Pool.__init__ 1),
       Pool.__init__ 1)
      ([], self) /\
    Pool.idle false load_nonempty ([], self) /\
    Pool.joined false load_nonempty self /\
    Pool.procs self = [[Some job_empty]] /\
    Pool.tiles_queue self = [Some job_b; None].
Proof.
  split; [reflexivity | split; [reflexivity|]].
  exists {| Pool.tiles_queue := [Some job_b; None];
            Pool.procs := [[Some job_empty]] |}.
  split; [|split; [|split; [|split; reflexivity]]].
  - eapply steps_cons; [apply Pool.step_put; cbn; unfold Pool.maxsize; lia|].
    eapply steps_cons;
      [exact (Pool.step_get unit false load_nonempty _ (Some job_empty) [] [] [] [] eq_refl)|].
    eapply steps_cons; [apply Pool.step_put; cbn; unfold Pool.maxsize; lia|].
    eapply steps_cons; [apply Pool.step_put; cbn; unfold Pool.maxsize; lia|].
    apply Pool.steps_O.
  - intros m' Hstep.
    remember ([], {| Pool.tiles_queue := [Some job_b; None];
                     Pool.procs := [[Some job_empty]] |}) as m eqn:Hm.
    destruct Hstep as [|todo item queue before taken after Hw];
      [discriminate Hm|].
    injection Hm as _ _ _ Hprocs.
    destruct before as [|b before]; [|destruct before; discriminate Hprocs].
    injection Hprocs as ->. discriminate Hw.
  - repeat constructor. discriminate.
Qed.

Lemma stop_joins_every_worker_witness :
  (0 < 2)%nat /\
  (false = true \/
   forall job, In job [job_a; job_b] -> load_nonempty (fst job) = None) /\
  Pool.steps false load_nonempty 8
    (map Pool.seed [job_a; job_b] ++ Pool.stop (Pool.__init__ 2),
     Pool.__init__ 2)
    ([], {| Pool.tiles_queue := [];
            Pool.procs := [[Some job_a; None]; [Some job_b; None]] |}) /\
  Pool.joined false load_nonempty
    {| Pool.tiles_queue := [];
       Pool.procs := [[Some job_a; None]; [Some job_b; None]] |} /\
  (8 <= 2 * (List.length [job_a; job_b] + 2))%nat /\
  Permutation [Some job_a; None; Some job_b; None]
              (map Some [job_a; job_b] ++ repeat None 2).
Proof.
  assert (H1 : (0 < 2)%nat) by lia.
  assert (H2 : false = true \/
               forall job, In job [job_a; job_b] ->
                           load_nonempty (fst job) = None)
    by (right; intros job [<-|[<-|[]]]; reflexivity).
  assert (H3 : Pool.steps false load_nonempty 8
                 (map Pool.seed [job_a; job_b] ++ Pool.stop (Pool.__init__ 2),
                  Pool.__init__ 2)
                 ([], {| Pool.tiles_queue := [];
                         Pool.procs := [[Some job_a; None];
                                        [Some job_b; None]] |})).
  { eapply steps_cons; [apply Pool.step_put; cbn; unfold Pool.maxsize; lia|].
    eapply steps_cons;
      [exact (Pool.step_get unit false load_nonempty _ (Some job_a) [] [] [] [[]] eq_refl)|].
    eapply steps_cons; [apply Pool.step_put; cbn; unfold Pool.maxsize; lia|].
    eapply steps_cons;
      [exact (Pool.step_get unit false load_nonempty _ (Some job_b) [] [[Some job_a]] [] []
                eq_refl)|].
    eapply steps_cons; [apply Pool.step_put; cbn; unfold Pool.maxsize; lia|].
    eapply steps_cons; [apply Pool.step_put; cbn; unfold Pool.maxsize; lia|].
    eapply steps_cons;
      [exact (Pool.step_get unit false load_nonempty _ None [None] [] [Some job_a]
                [[Some job_b]] eq_refl)|].
    eapply steps_cons;
      [exact (Pool.step_get unit false load_nonempty _ None [] [[Some job_a; None]]
                [Some job_b] [] eq_refl)|].
    apply Pool.steps_O. }
  assert (H4 : Pool.joined false load_nonempty
                 {| Pool.tiles_queue := [];
                    Pool.procs := [[Some job_a; None]; [Some job_b; None]] |})
    by (repeat constructor; discriminate).
  split; [exact H1 | split; [exact H2 | split; [exact H3 | split; [exact H4|]]]].
  destruct (stop_joins_every_worker unit false load_nonempty
              2 [job_a; job_b] 8 _ _ H1 H2 H3) as [Hn Hend].
  destruct (Hend (or_intror H4)) as [_ [_ [_ [_ [_ Hperm]]]]].
  split; [exact Hn | exact Hperm].
Defined.

(** *** Rounding *)

(** The pass over [nine] in the program's floats: the start-level visit has
    nine survivors, each gets the weight [1.0 / 9], and the nine additions
    at level 3 end at 1.0000000000000002 (here in hexadecimal), above 1. *)
Lemma progress_exceeds_one :
  SeedTask.start_level nine <= SeedTask.max_level nine /\
  exists s',
    Float64.seed nine Float64.__init__ = Float64.Return tt s' /\
    List.length (Float64.tiles_queue s') = 10%nat /\
    Float64.progress s' = 0x1.0000000000001p+0%float /\
    PrimFloat.ltb 1 (Float64.progress s') = true.
Proof.
  split; [discriminate|].
  eexists. split; [vm_compute; reflexivity|].
  split; [reflexivity | split; reflexivity].
Qed.

Lemma progress_never_decreases_witness :
  SeedTask.start_level nine <= SeedTask.max_level nine /\
  Forall (update_at (SeedTask.max_level nine))
         (trace (final (Seeder.seed nine Seeder.__init__))).
Proof.
  assert (H : SeedTask.start_level nine <= SeedTask.max_level nine)
    by (vm_compute; discriminate).
  split; [exact H|].
  exact (proj1 (proj2 (progress_never_decreases nine)) H).
Defined.

(** In exact arithmetic the same pass ends at 1. *)
Example nine_in_exact_arithmetic :
  exists s',
    Seeder.seed nine Seeder.__init__ = Return tt s' /\ (progress s' == 1)%Q.
Proof. eexists. split; [vm_compute; reflexivity | reflexivity]. Qed.
